(** * smart-weather-clock: the text-to-image layout engine

    A shallow embedding of [src/utils.py] and [src/image_generator.py]:
    markup parsing, word wrapping, automatic font sizing, stroke selection
    and the positions at which the compositor draws.

    Conventions of the embedding.
    - A Python [str] is a [list ascii]; a character is a code point below
      256 (Latin-1), which covers every character the tag patterns and
      [str.split] treat specially in that range.
    - A Python [int] is a [Z]; [//] is [Z.div] (floor division).
    - A Python [float] is a binary64 [PrimFloat.float].  The justified
      line, whose pen position is a float, is written over an interface of
      the float operations it uses ([PyFloatOps]), with binary64 as its
      instance; what is proved about it is proved for binary64, whose
      accuracy ([PyFloatSpec]) is derived from the specification of the
      primitive floats.
    - The font handle and [ImageDraw.textbbox] are external capabilities:
      they are Section variables, instantiated by a fixed-pitch measurer
      where a concrete run is needed.
    - Drawing is modelled by the list of draw calls issued, in order. *)

From Stdlib Require Import Reals Lra.
From Stdlib Require Import PrimFloat FloatOps SpecFloat FloatAxioms.
From Stdlib Require Uint63.
From Stdlib Require Import String.
From Stdlib Require Import ZArith List Bool Ascii Lia.
Import Datatypes List ListNotations.

Local Open Scope Z_scope.

(* Decimal float literals are read as the nearest binary64, as Python
   reads them. *)
#[local] Set Warnings "-inexact-float".

(** ** Python strings *)

Definition str := list ascii.

Definition lit (s : string) : str := list_ascii_of_string s.

(** [str.isspace] on one character, for code points below 256. *)
Definition isspace (c : ascii) : bool :=
  let n := N_of_ascii c in
  (((9 <=? n) && (n <=? 13)) || ((28 <=? n) && (n <=? 32))
   || (n =? 133) || (n =? 160))%N.

(** [text.split()]: maximal runs of non-whitespace characters, in order. *)
Fixpoint split (s : str) : list str :=
  match s with
  | [] => []
  | c :: s' =>
      if isspace c then split s'
      else match s' with
           | [] => [[c]]
           | c' :: _ =>
               if isspace c' then [c] :: split s'
               else match split s' with
                    | w :: ws => (c :: w) :: ws
                    | [] => [[c]]
                    end
           end
  end.

(** [sep.join(parts)]. *)
Fixpoint join (sep : str) (parts : list str) : str :=
  match parts with
  | [] => []
  | [x] => x
  | x :: xs => x ++ sep ++ join sep xs
  end.

Definition SP : str := lit " ".

(** A word: what [split] produces, a non-empty run without whitespace. *)
Definition is_word (w : str) : Prop :=
  w <> [] /\ forallb (fun c => negb (isspace c)) w = true.

(** What may follow a word inside a string: nothing, or whitespace. *)
Definition word_end (s : str) : Prop :=
  match s with
  | [] => True
  | c :: _ => isspace c = true
  end.

(** [a == b] on strings. *)
Fixpoint str_eqb (a b : str) : bool :=
  match a, b with
  | [], [] => true
  | x :: a', y :: b' => Ascii.eqb x y && str_eqb a' b'
  | _, _ => false
  end.

(** [x in l] for a list of strings. *)
Definition str_in (x : str) (l : list str) : bool := existsb (str_eqb x) l.

(** [l.remove(x)], used where [x in l] holds: the first occurrence goes. *)
Fixpoint list_remove (x : str) (l : list str) : list str :=
  match l with
  | [] => []
  | y :: l' => if str_eqb y x then l' else y :: list_remove x l'
  end.

(** [s[a:b]] for indices [0 <= a] and [0 <= b]. *)
Definition slice (a b : nat) (s : str) : str := skipn a (firstn b s).

(** [c.lower()] for one character below 256. *)
Definition lower_char (c : ascii) : ascii :=
  let n := N_of_ascii c in
  if (((65 <=? n) && (n <=? 90))
      || ((192 <=? n) && (n <=? 222) && negb (n =? 215)))%N
  then ascii_of_N (n + 32)
  else c.

Definition lower (s : str) : str := map lower_char s.

(** ** Markup ([utils.py]) *)

Record TextSegment := mkTextSegment {
  text : str;
  bold : bool;
  italic : bool;
  underline : bool
}.

(** [TextSegment(text=t)]: the flags default to [False]. *)
Definition plain_segment (t : str) : TextSegment :=
  mkTextSegment t false false false.

(** One match object of [re.finditer]: [start()], [end()], [group(1)],
    [group(2)]. *)
Record Match := mkMatch {
  m_start : nat;
  m_end : nat;
  group1 : str;
  group2 : str
}.

(** The class [[biu]] under [re.IGNORECASE]. *)
Definition is_biu (c : ascii) : bool :=
  existsb (Ascii.eqb c) (lit "biuBIU").

(** [\s*], greedy: the number of leading whitespace characters and what
    follows them. *)
Fixpoint skip_spaces (s : str) : nat * str :=
  match s with
  | c :: s' =>
      if isspace c then let '(k, r) := skip_spaces s' in (S k, r)
      else (O, s)
  | [] => (O, [])
  end.

(** An anchored match of [<(/?)([biu])\s*/?>] at the head of [s], case
    ignored: the two groups and the length of the match.  No choice of
    the pattern has an alternative that can succeed when the greedy one
    fails (no whitespace is a slash or a closing bracket), so the greedy
    reading is the only one. *)
Definition match_tag (s : str) : option (str * str * nat) :=
  match s with
  | "<"%char :: s1 =>
      let '(g1, s2) :=
        match s1 with
        | "/"%char :: s2 => (lit "/", s2)
        | _ => ([], s1)
        end in
      match s2 with
      | c :: s3 =>
          if is_biu c then
            let '(k, s4) := skip_spaces s3 in
            let '(j, s5) :=
              match s4 with
              | "/"%char :: s5 => (1%nat, s5)
              | _ => (0%nat, s4)
              end in
            match s5 with
            | ">"%char :: _ => Some (g1, [c], (1 + length g1 + 1 + k + j + 1)%nat)
            | _ => None
            end
          else None
      | [] => None
      end
  | _ => None
  end.

(** [re.finditer(tag_pattern, text, re.IGNORECASE)] from position [pos]:
    leftmost matches, not overlapping; [skip] characters still belong to
    the previous match. *)
Fixpoint finditer_from (pos skip : nat) (s : str) : list Match :=
  match s with
  | [] => []
  | _ :: s' =>
      match skip with
      | S k => finditer_from (S pos) k s'
      | O =>
          match match_tag s with
          | Some (g1, g2, len) =>
              mkMatch pos (pos + len) g1 g2
              :: finditer_from (S pos) (len - 1) s'
          | None => finditer_from (S pos) 0 s'
          end
      end
  end.

Definition finditer_tags (s : str) : list Match := finditer_from 0 0 s.

(** State of the parsing loop. *)
Record ParseState := mkParseState {
  format_stack : list str;
  segments : list TextSegment;
  current_text : str;
  last_pos : nat
}.

(** The segment appended at a flush: the flags are membership of the tag
    names in the stack. *)
Definition flush_segment (format_stack : list str) (current_text : str)
    : TextSegment :=
  mkTextSegment current_text
    (str_in (lit "b") format_stack)
    (str_in (lit "i") format_stack)
    (str_in (lit "u") format_stack).

(** The body of [for match in re.finditer(...)]. *)
Definition parse_step (txt : str) (st : ParseState) (m : Match) : ParseState :=
  let current_text :=
    if (last_pos st <? m_start m)%nat
    then current_text st ++ slice (last_pos st) (m_start m) txt
    else current_text st in
  let is_closing := match group1 m with [] => false | _ :: _ => true end in
  let tag_name := lower (group2 m) in
  if negb is_closing then
    let '(segments, current_text) :=
      match current_text with
      | _ :: _ =>
          (segments st ++ [flush_segment (format_stack st) current_text], [])
      | [] => (segments st, current_text)
      end in
    mkParseState (format_stack st ++ [tag_name]) segments current_text (m_end m)
  else
    let '(segments, current_text) :=
      match current_text with
      | _ :: _ =>
          (segments st ++ [flush_segment (format_stack st) current_text], [])
      | [] => (segments st, current_text)
      end in
    let format_stack :=
      if str_in tag_name (format_stack st)
      then list_remove tag_name (format_stack st)
      else format_stack st in
    mkParseState format_stack segments current_text (m_end m).

Definition parse_html_formatting (txt : str) : list TextSegment :=
  if match txt with [] => true | _ :: _ => false end
     || negb (existsb (Ascii.eqb "<"%char) txt)
  then [plain_segment txt]
  else
    let st :=
      fold_left (parse_step txt) (finditer_tags txt)
        (mkParseState [] [] [] 0) in
    let current_text :=
      if (last_pos st <? length txt)%nat
      then current_text st ++ slice (last_pos st) (length txt) txt
      else current_text st in
    let segments :=
      match current_text with
      | _ :: _ => segments st ++ [flush_segment (format_stack st) current_text]
      | [] => segments st
      end in
    match segments with
    | [] => [plain_segment txt]
    | _ :: _ => segments
    end.

(** [.*?>] after the tag letter: some closing bracket follows with no
    newline before it (the dot does not match a newline). *)
Fixpoint reaches_gt (s : str) : bool :=
  match s with
  | [] => false
  | c :: s' =>
      if Ascii.eqb c ">"%char then true
      else if Ascii.eqb c "010"%char then false
      else reaches_gt s'
  end.

(** An anchored match of [<[biu].*?>] at the head of [s], case ignored. *)
Definition match_loose_tag (s : str) : bool :=
  match s with
  | "<"%char :: c :: s' => is_biu c && reaches_gt s'
  | _ => false
  end.

(** [re.search]: a match at some position. *)
Fixpoint re_search_loose (s : str) : bool :=
  match s with
  | [] => false
  | _ :: s' => match_loose_tag s || re_search_loose s'
  end.

Definition has_html_tags (txt : str) : bool :=
  match txt with
  | [] => false
  | _ :: _ => re_search_loose txt
  end.

(** The text contains a well-formed opening tag of the recognised kinds,
    as the parser's own pattern reads one: a match with an empty first
    group. *)
Definition has_opening_tag (txt : str) : bool :=
  existsb (fun m => match group1 m with [] => true | _ :: _ => false end)
    (finditer_tags txt).

(** ** Bounding boxes *)

Definition bbox := (Z * Z * Z * Z)%type.

Definition bbox0 (b : bbox) : Z := let '(l, _, _, _) := b in l.
Definition bbox1 (b : bbox) : Z := let '(_, t, _, _) := b in t.
Definition bbox2 (b : bbox) : Z := let '(_, _, r, _) := b in r.
Definition bbox3 (b : bbox) : Z := let '(_, _, _, d) := b in d.

(** ** Configuration ([config.ImageConfig]) and the generator object *)

Record ImageConfig := {
  LINE_SPACING : Z;
  PADDING_TOP : Z;
  PADDING_BOTTOM : Z;
  PADDING_LEFT : Z;
  PADDING_RIGHT : Z;
  MIN_AUTO_FONT_SIZE : Z;
  MAX_AUTO_FONT_SIZE : Z;
  AUTO_SIZE_PADDING : Z;
  AUTO_SIZE_PADDING_BOTTOM : Z
}.

(** The values shipped in [config_example.py]. *)
Definition example_config : ImageConfig := {|
  LINE_SPACING := 10;
  PADDING_TOP := 0;
  PADDING_BOTTOM := 25;
  PADDING_LEFT := 0;
  PADDING_RIGHT := 0;
  MIN_AUTO_FONT_SIZE := 10;
  MAX_AUTO_FONT_SIZE := 200;
  AUTO_SIZE_PADDING := 10;
  AUTO_SIZE_PADDING_BOTTOM := 35
|}.

Record ImageGenerator := {
  width : Z;
  height : Z;
  config : ImageConfig;
  padding_top : Z;
  padding_bottom : Z;
  padding_left : Z;
  padding_right : Z
}.

(** [ImageGenerator.__init__]: a padding not given falls back to the
    configured one. *)
Definition new_ImageGenerator (cfg : ImageConfig) (w h : Z)
    (pt pb pl pr : option Z) : ImageGenerator := {|
  width := w;
  height := h;
  config := cfg;
  padding_top := match pt with Some p => p | None => PADDING_TOP cfg end;
  padding_bottom := match pb with Some p => p | None => PADDING_BOTTOM cfg end;
  padding_left := match pl with Some p => p | None => PADDING_LEFT cfg end;
  padding_right := match pr with Some p => p | None => PADDING_RIGHT cfg end
|}.

(** ** Plain-text wrapping *)

Section Wrap.
Context {Font : Type}.

(** [draw.textbbox(xy, text, font=font)]. *)
Variable textbbox : Z * Z -> str -> Font -> bbox.

(** Measured width of a string, as every caller computes it:
    [bbox[2] - bbox[0]] of the box at the origin. *)
Definition measure (font : Font) (s : str) : Z :=
  let b := textbbox (0, 0) s font in bbox2 b - bbox0 b.

(** One iteration of the [for word in words] loop shared, line for line,
    by [_wrap_text] and [_wrap_text_for_size]; the state is
    [(lines, current_line)]. *)
Definition wrap_step (font : Font) (max_width : Z)
    (st : list str * list str) (word : str) : list str * list str :=
  let '(lines, current_line) := st in
  let test_line := join SP (current_line ++ [word]) in
  let b := textbbox (0, 0) test_line font in
  let text_width := bbox2 b - bbox0 b in
  if text_width <=? max_width then (lines, current_line ++ [word])
  else match current_line with
       | _ :: _ => (lines ++ [join SP current_line], [word])
       | [] => (lines ++ [word], current_line)
       end.

Definition _wrap_text_for_size (text : str) (font : Font) (max_width : Z)
    : list str :=
  let words := split text in
  let '(lines, current_line) :=
    fold_left (wrap_step font max_width) words ([], []) in
  let lines :=
    match current_line with
    | _ :: _ => lines ++ [join SP current_line]
    | [] => lines
    end in
  match lines with
  | [] => [text]
  | _ :: _ => lines
  end.

Definition _wrap_text (self : ImageGenerator) (text : str) (font : Font)
    : list str :=
  let max_width := width self - (padding_left self + padding_right self) in
  let words := split text in
  let '(lines, current_line) :=
    fold_left (wrap_step font max_width) words ([], []) in
  let lines :=
    match current_line with
    | _ :: _ => lines ++ [join SP current_line]
    | [] => lines
    end in
  match lines with
  | [] => [text]
  | _ :: _ => lines
  end.

(** The width bound on the lines of [_wrap_text]: a line is within the
    budget, or it is a single word that is wider than the budget. *)
Definition wrapped_within_budget (self : ImageGenerator) (text : str)
    (font : Font) : Prop :=
  let max_width := width self - (padding_left self + padding_right self) in
  forall l : str,
    In l (_wrap_text self text font) ->
    measure font l <= max_width
    \/ (split l = [l] /\ max_width < measure font l).

(** A line respects the budget, or is one input word that is wider than
    the budget on its own. *)
Definition line_ok (font : Font) (max_width : Z) (words : list str)
    (l : str) : Prop :=
  measure font l <= max_width
  \/ (In l words /\ max_width < measure font l).

(** Loop invariant of the wrapping loop after the words [done]: the closed
    lines are the groups [gs] of [done], the open line holds the rest, every
    closed line is within the budget or a lone overlong word, and the open
    line was measured within the budget unless it is a single word. *)
Record wrap_inv (font : Font) (max_width : Z) (gs : list (list str))
    (done : list str) (st : list str * list str) : Prop := {
  inv_nonempty : Forall (fun g => g <> []) gs;
  inv_concat : concat gs ++ snd st = done;
  inv_lines : fst st = map (join SP) gs;
  inv_widths : Forall (line_ok font max_width done) (fst st);
  inv_open : snd st = []
             \/ measure font (join SP (snd st)) <= max_width
             \/ exists w, snd st = [w]
}.

End Wrap.

(** ** Automatic font size *)

Section AutoSize.
Context {Font : Type}.
Variable textbbox : Z * Z -> str -> Font -> bbox.

(** [self._get_font(font_path, font_size)]: the font-resolution capability
    with its fallback chain; it always hands back some font. *)
Variable _get_font : option str -> Z -> Font.

(** The [for line in wrapped_lines] accumulation of
    [(total_height, actual_max_width)]. *)
Definition measure_lines (font : Font) (wrapped_lines : list str) : Z * Z :=
  fold_left
    (fun (acc : Z * Z) (line : str) =>
       let '(total_height, actual_max_width) := acc in
       let b := textbbox (0, 0) line font in
       let line_height := bbox3 b - bbox1 b in
       let line_width := bbox2 b - bbox0 b in
       (total_height + line_height, Z.max actual_max_width line_width))
    wrapped_lines (0, 0).

(** The body of one iteration of the search, up to the test
    [fits_height and fits_width]. *)
Definition size_fits (self : ImageGenerator) (text : str)
    (font_path : option str) (mid_size : Z) : bool :=
  let padding_h := AUTO_SIZE_PADDING (config self) in
  let padding_bottom := AUTO_SIZE_PADDING_BOTTOM (config self) in
  let padding_top := AUTO_SIZE_PADDING (config self) in
  let font := _get_font font_path mid_size in
  let max_width := width self - (2 * padding_h) in
  let wrapped_lines := _wrap_text_for_size textbbox text font max_width in
  let '(total_height, actual_max_width) := measure_lines font wrapped_lines in
  let total_height :=
    if 1 <? Z.of_nat (length wrapped_lines)
    then total_height
         + (Z.of_nat (length wrapped_lines) - 1) * LINE_SPACING (config self)
    else total_height in
  let available_height := height self - padding_top - padding_bottom in
  let fits_height := total_height <=? available_height in
  let fits_width := actual_max_width <=? width self - 2 * padding_h in
  fits_height && fits_width.

(** The [for _ in range(10)] loop with [n] iterations left. *)
Fixpoint auto_size_loop (self : ImageGenerator) (text : str)
    (font_path : option str) (n : nat) (min_size max_size best_size : Z) : Z :=
  match n with
  | O => best_size
  | S n' =>
      if max_size <? min_size then best_size
      else
        let mid_size := (min_size + max_size) / 2 in
        if size_fits self text font_path mid_size
        then auto_size_loop self text font_path n' (mid_size + 1) max_size mid_size
        else auto_size_loop self text font_path n' min_size (mid_size - 1) best_size
  end.

Definition calculate_auto_font_size (self : ImageGenerator) (text : str)
    (font_path : option str) : Z :=
  let min_size := MIN_AUTO_FONT_SIZE (config self) in
  let max_size := MAX_AUTO_FONT_SIZE (config self) in
  let best_size := min_size in
  auto_size_loop self text font_path 10 min_size max_size best_size.

(** The sizes the loop tests, in the order it tests them: the same loop,
    recording each [mid_size]. *)
Fixpoint auto_size_probes (self : ImageGenerator) (text : str)
    (font_path : option str) (n : nat) (min_size max_size : Z) : list Z :=
  match n with
  | O => []
  | S n' =>
      if max_size <? min_size then []
      else
        let mid_size := (min_size + max_size) / 2 in
        mid_size ::
        (if size_fits self text font_path mid_size
         then auto_size_probes self text font_path n' (mid_size + 1) max_size
         else auto_size_probes self text font_path n' min_size (mid_size - 1))
  end.

Definition tested_sizes (self : ImageGenerator) (text : str)
    (font_path : option str) : list Z :=
  auto_size_probes self text font_path 10
    (MIN_AUTO_FONT_SIZE (config self)) (MAX_AUTO_FONT_SIZE (config self)).

(** The fit as the specification words it: the text wrapped at the width
    budget, the widest line against the width budget, and the summed line
    heights plus [(line_count - 1) * LINE_SPACING] against the height
    budget. *)
Definition fits_budget (self : ImageGenerator) (text : str)
    (font_path : option str) (size : Z) : Prop :=
  let cfg := config self in
  let font := _get_font font_path size in
  let width_budget := width self - 2 * AUTO_SIZE_PADDING cfg in
  let height_budget :=
    height self - AUTO_SIZE_PADDING cfg - AUTO_SIZE_PADDING_BOTTOM cfg in
  let lines := _wrap_text_for_size textbbox text font width_budget in
  let line_height l :=
    bbox3 (textbbox (0, 0) l font) - bbox1 (textbbox (0, 0) l font) in
  fold_right Z.max 0 (map (measure textbbox font) lines) <= width_budget
  /\ fold_right Z.add 0 (map line_height lines)
     + (Z.of_nat (length lines) - 1) * LINE_SPACING cfg <= height_budget.

End AutoSize.

(** ** Draw calls *)

Definition Color := (Z * Z * Z)%type.

(** What the compositor asks of [ImageDraw]: [draw.text(xy, text, fill,
    font, stroke_width)] (the stroke width is 0 when not passed) and
    [draw.line([p1, p2], fill, width)]. *)
Inductive DrawOp (Font : Type) : Type :=
| DrawText (xy : Z * Z) (txt : str) (fill : Color) (font : Font)
    (stroke_width : Z)
| DrawLine (p1 p2 : Z * Z) (fill : Color) (line_width : Z).

Arguments DrawText {Font} xy txt fill font stroke_width.
Arguments DrawLine {Font} p1 p2 fill line_width.

(** ** Stroke and contrast *)

(** [float(z)]: the nearest binary64, exact below [2^53] in magnitude
    (the conversion wraps from [2^63] on; colour channels are 8-bit). *)
Definition float_of_int (z : Z) : float :=
  if z <? 0 then PrimFloat.opp (PrimFloat.of_uint63 (Uint63.of_Z (- z)))
  else PrimFloat.of_uint63 (Uint63.of_Z z).

Definition color_eqb (a b : Color) : bool :=
  let '(r1, g1, b1) := a in
  let '(r2, g2, b2) := b in
  (r1 =? r2) && (g1 =? g2) && (b1 =? b2).

(** The local function of [_calculate_contrast_ratio]. *)
Definition relative_luminance (rgb : Color) : float :=
  let '(r0, g0, b0) := rgb in
  let r := (float_of_int r0 / 255.0)%float in
  let g := (float_of_int g0 / 255.0)%float in
  let b := (float_of_int b0 / 255.0)%float in
  (0.2126 * r + 0.7152 * g + 0.0722 * b)%float.

(** Python raises [ZeroDivisionError] when the divisor is [0.0], which
    takes a channel outside 0..255 (a luminance of -0.05); the division
    here gives an infinity or a NaN there.  What is stated about the
    ratio is stated for channels from 0 to 255. *)
Definition _calculate_contrast_ratio (color1 color2 : Color) : float :=
  let lum1 := relative_luminance color1 in
  let lum2 := relative_luminance color2 in
  if (lum2 <? lum1)%float
  then ((lum1 + 0.05) / (lum2 + 0.05))%float
  else ((lum2 + 0.05) / (lum1 + 0.05))%float.

(** [brightness] in [_get_contrasting_color]. *)
Definition brightness (color : Color) : float :=
  let '(r, g, b) := color in
  (float_of_int (r * 299 + g * 587 + b * 114) / float_of_int 1000)%float.

Definition _get_contrasting_color (color : Color) : Color :=
  if (float_of_int 128 <? brightness color)%float
  then (0, 0, 0)
  else (255, 255, 255).

Definition _calculate_stroke_settings (text_color background_color : Color)
    (stroke_width : Z) (stroke_color : option Color) (auto_stroke : bool)
    : Z * option Color :=
  if (stroke_width =? 0) && negb auto_stroke then (0, None)
  else if 0 <? stroke_width then
    let stroke_color :=
      match stroke_color with
      | None => _get_contrasting_color text_color
      | Some c => c
      end in
    (stroke_width, Some stroke_color)
  else if auto_stroke then
    let contrast_ratio :=
      _calculate_contrast_ratio text_color background_color in
    if (contrast_ratio <? 7.0)%float
       && negb (color_eqb text_color (255, 255, 255))
    then
      let auto_stroke_width := 1 in
      let auto_stroke_color := _get_contrasting_color text_color in
      (auto_stroke_width, Some auto_stroke_color)
    else (0, None)
  else (0, None).

(** ** Python numbers of the justified line *)

(** The float operations [_draw_justified_line] uses: [float(z)] (the
    conversion Python applies when an int meets a float), [a / b] on two
    ints, [x + y] on floats and [int(x)]. *)
Class PyFloatOps (F : Type) := {
  of_int : Z -> F;
  truediv : Z -> Z -> F;
  fadd : F -> F -> F;
  to_int : F -> Z
}.

(** [int(f)] on a binary64: truncation towards zero (Python raises on an
    infinity or a NaN; 0 stands for that here). *)
Definition int_of_float (f : float) : Z :=
  match Prim2SF f with
  | S754_finite s m e =>
      let mag := if 0 <=? e then Zpos m * 2 ^ e else Zpos m / 2 ^ (- e) in
      if s then - mag else mag
  | _ => 0
  end.

(** binary64, the arithmetic of Python.  [a / b] on two ints is the
    quotient of their conversions: that is Python's result when both are
    below [2^53] in magnitude, and when [b] is 1 (beyond, Python rounds
    the exact quotient once). *)
#[export] Instance binary64 : PyFloatOps float := {
  of_int := float_of_int;
  truediv a b := PrimFloat.div (float_of_int a) (float_of_int b);
  fadd := PrimFloat.add;
  to_int := int_of_float
}.

(** The value of the variable [x] of the justified line: an int until the
    first gap is added, a float from then on. *)
Inductive PyNum (F : Type) : Type :=
| PyInt (z : Z)
| PyFloat (f : F).

Arguments PyInt {F} z.
Arguments PyFloat {F} f.

(** The real number a binary64 stands for (0 for an infinity or a NaN,
    which [float_finite] excludes). *)
Definition pow2 (e : Z) : R := powerRZ 2 e.

Definition SF2R (x : spec_float) : R :=
  match x with
  | S754_finite s m e =>
      if s then (- (IZR (Zpos m) * pow2 e))%R else (IZR (Zpos m) * pow2 e)%R
  | _ => 0%R
  end.

Definition SF_finite (x : spec_float) : bool :=
  match x with
  | S754_finite _ _ _ | S754_zero _ => true
  | _ => false
  end.

Definition float_val (f : float) : R := SF2R (Prim2SF f).

Definition float_finite (f : float) : Prop := SF_finite (Prim2SF f) = true.

(** The rounding error allowed to binary64 below [2^31]: [3 * 2^-21]
    (round-to-nearest is within [2^-22] there; the bound proved is the
    coarser one). *)
Definition eps64 : R := (3 * pow2 (-21))%R.

(** How accurate a float arithmetic is: [val] is the real number a float
    stands for and [finite] tells the floats that stand for one; integers
    up to [range] convert exactly; a quotient of two such integers and a
    sum within [range] are finite and within [eps] of the exact result;
    [int] truncates towards zero. *)
Record PyFloatSpec {F : Type} (ops : PyFloatOps F) : Type := {
  val : F -> R;
  finite : F -> Prop;
  range : Z;
  eps : R;
  eps_nonneg : (0 <= eps)%R;
  of_int_exact :
    forall z : Z,
      - range <= z <= range -> finite (of_int z) /\ val (of_int z) = IZR z;
  truediv_close :
    forall a b : Z,
      - range <= a <= range -> 0 < b <= range ->
      finite (truediv a b)
      /\ (IZR a / IZR b - eps <= val (truediv a b) <= IZR a / IZR b + eps)%R;
  fadd_close :
    forall x y : F,
      finite x -> finite y ->
      (- IZR range <= val x + val y <= IZR range)%R ->
      finite (fadd x y)
      /\ (val x + val y - eps <= val (fadd x y) <= val x + val y + eps)%R;
  to_int_trunc :
    forall x : F,
      finite x ->
      ((0 <= val x)%R ->
       (IZR (to_int x) <= val x < IZR (to_int x) + 1)%R)
      /\ ((val x <= 0)%R ->
          (IZR (to_int x) - 1 < val x <= IZR (to_int x))%R)
}.

Arguments val {F ops} _ _.
Arguments finite {F ops} _ _.
Arguments range {F ops} _.
Arguments eps {F ops} _.

(** binary64 is that accurate on 32-bit coordinates; the four properties
    are proved among the lemmas on the justified line, from the
    specification of the primitive floats. *)
Definition binary64_spec_of
    (H0 : (0 <= eps64)%R)
    (H1 : forall z : Z,
        - 2 ^ 31 <= z <= 2 ^ 31 ->
        float_finite (float_of_int z) /\ float_val (float_of_int z) = IZR z)
    (H2 : forall a b : Z,
        - 2 ^ 31 <= a <= 2 ^ 31 -> 0 < b <= 2 ^ 31 ->
        float_finite (float_of_int a / float_of_int b)
        /\ (IZR a / IZR b - eps64
            <= float_val (float_of_int a / float_of_int b)
            <= IZR a / IZR b + eps64)%R)
    (H3 : forall x y : float,
        float_finite x -> float_finite y ->
        (- IZR (2 ^ 31) <= float_val x + float_val y <= IZR (2 ^ 31))%R ->
        float_finite (x + y)
        /\ (float_val x + float_val y - eps64
            <= float_val (x + y)
            <= float_val x + float_val y + eps64)%R)
    (H4 : forall x : float,
        float_finite x ->
        ((0 <= float_val x)%R ->
         (IZR (int_of_float x) <= float_val x < IZR (int_of_float x) + 1)%R)
        /\ ((float_val x <= 0)%R ->
            (IZR (int_of_float x) - 1 < float_val x
             <= IZR (int_of_float x))%R))
    : PyFloatSpec binary64 := {|
  val := float_val;
  finite := float_finite;
  range := 2 ^ 31;
  eps := eps64;
  eps_nonneg := H0;
  of_int_exact := H1;
  truediv_close := H2;
  fadd_close := H3;
  to_int_trunc := H4
|}.

(** ** Plain text drawing *)

Section Draw.
Context {Font : Type} {F : Type} {fops : PyFloatOps F}.
Variable textbbox : Z * Z -> str -> Font -> bbox.

(** The recurring pair of calls: the text in the stroke colour when
    [stroke_width > 0 and stroke_color], then the text in its colour. *)
Definition draw_text_stroked (xy : Z * Z) (txt : str) (font : Font)
    (color : Color) (stroke_width : Z) (stroke_color : option Color)
    : list (DrawOp Font) :=
  (if 0 <? stroke_width
   then match stroke_color with
        | Some c => [DrawText xy txt c font stroke_width]
        | None => []
        end
   else [])
  ++ [DrawText xy txt color font 0].

(** [x += w] for an int [w]. *)
Definition num_add_int (x : PyNum F) (w : Z) : PyNum F :=
  match x with
  | PyInt z => PyInt (z + w)
  | PyFloat f => PyFloat (fadd f (of_int w))
  end.

(** [x += g] for a float [g]. *)
Definition num_add_float (x : PyNum F) (g : F) : PyNum F :=
  match x with
  | PyInt z => PyFloat (fadd (of_int z) g)
  | PyFloat f => PyFloat (fadd f g)
  end.

(** [int(x)]. *)
Definition num_int (x : PyNum F) : Z :=
  match x with
  | PyInt z => z
  | PyFloat f => to_int f
  end.

(** The loop [for i, word in enumerate(words)] of the justified branch,
    from index [i] on; [count] is [len(words)]. *)
Fixpoint justified_loop (y : Z) (font : Font) (color : Color)
    (stroke_width : Z) (stroke_color : option Color) (word_widths : list Z)
    (space_per_gap : F) (count : nat) (words : list str) (i : nat)
    (x : PyNum F) : list (DrawOp Font) :=
  match words with
  | [] => []
  | word :: rest =>
      draw_text_stroked (num_int x, y) word font color stroke_width
        stroke_color
      ++ (let x := num_add_int x (nth i word_widths 0) in
          let x :=
            if Z.of_nat i <? Z.of_nat count - 1
            then num_add_float x space_per_gap
            else x in
          justified_loop y font color stroke_width stroke_color word_widths
            space_per_gap count rest (S i) x)
  end.

(** The x at which each word of that loop is drawn: the same loop,
    keeping [int(x)] only. *)
Fixpoint justified_xs (word_widths : list Z) (space_per_gap : F)
    (count : nat) (words : list str) (i : nat) (x : PyNum F) : list Z :=
  match words with
  | [] => []
  | _ :: rest =>
      num_int x
      :: (let x := num_add_int x (nth i word_widths 0) in
          let x :=
            if Z.of_nat i <? Z.of_nat count - 1
            then num_add_float x space_per_gap
            else x in
          justified_xs word_widths space_per_gap count rest (S i) x)
  end.

(** The loop measuring the words:
    [(total_word_width, word_widths)]. *)
Definition measure_words (font : Font) (words : list str) : Z * list Z :=
  fold_left
    (fun (acc : Z * list Z) (word : str) =>
       let '(total_word_width, word_widths) := acc in
       let b := textbbox (0, 0) word font in
       let word_width := bbox2 b - bbox0 b in
       (total_word_width + word_width, word_widths ++ [word_width]))
    words (0, []).

Definition _draw_justified_line (self : ImageGenerator) (line : str) (y : Z)
    (font : Font) (color : Color) (stroke_width : Z)
    (stroke_color : option Color) : list (DrawOp Font) :=
  let words := split line in
  if (length words <=? 1)%nat then
    let b := textbbox (0, 0) line font in
    let text_width := bbox2 b - bbox0 b in
    let x := (width self - text_width) / 2 in
    draw_text_stroked (x, y) line font color stroke_width stroke_color
  else
    let available_width :=
      width self - padding_left self - padding_right self in
    let '(total_word_width, word_widths) := measure_words font words in
    let total_space_needed := available_width - total_word_width in
    let num_gaps := Z.of_nat (length words) - 1 in
    if (0 <? num_gaps) && (0 <=? total_space_needed) then
      let space_per_gap := truediv total_space_needed num_gaps in
      let x := PyInt (padding_left self) in
      justified_loop y font color stroke_width stroke_color word_widths
        space_per_gap (length words) words 0 x
    else
      let x := padding_left self in
      let current_line := join SP words in
      draw_text_stroked (x, y) current_line font color stroke_width
        stroke_color.

(** The x of a line drawn by the [else] branch of [_draw_multiline_text]. *)
Definition aligned_x (self : ImageGenerator) (alignment : str)
    (count : nat) (i : nat) (text_width : Z) : Z :=
  if str_eqb alignment (lit "center")
     || (str_eqb alignment (lit "justify")
         && (Z.of_nat i =? Z.of_nat count - 1))
  then (width self - text_width) / 2
  else if str_eqb alignment (lit "left") then padding_left self
  else if str_eqb alignment (lit "right")
       then width self - text_width - padding_right self
  else (width self - text_width) / 2.

(** The loop [for i, line in enumerate(lines)], from index [i] on;
    [count] is [len(lines)]. *)
Fixpoint multiline_loop (self : ImageGenerator) (font : Font)
    (color : Color) (alignment : str) (stroke_width : Z)
    (stroke_color : option Color) (line_heights : list Z)
    (effective_line_spacing : Z) (count : nat) (lines : list str) (i : nat)
    (y : Z) : list (DrawOp Font) :=
  match lines with
  | [] => []
  | line :: rest =>
      (if str_eqb alignment (lit "justify")
          && (1 <? Z.of_nat count)
          && (Z.of_nat i <? Z.of_nat count - 1)
       then
         _draw_justified_line self line y font color stroke_width
           stroke_color
       else
         let b := textbbox (0, 0) line font in
         let text_width := bbox2 b - bbox0 b in
         let x := aligned_x self alignment count i text_width in
         draw_text_stroked (x, y) line font color stroke_width stroke_color)
      ++ multiline_loop self font color alignment stroke_width stroke_color
           line_heights effective_line_spacing count rest (S i)
           (y + (nth i line_heights 0 + effective_line_spacing))
  end.

Definition _draw_multiline_text (self : ImageGenerator) (lines : list str)
    (font : Font) (color : Color) (alignment : str) (stroke_width : Z)
    (stroke_color : option Color) : list (DrawOp Font) :=
  let line_heights :=
    map (fun line =>
           let b := textbbox (0, 0) line font in bbox3 b - bbox1 b)
      lines in
  let effective_line_spacing :=
    LINE_SPACING (config self)
    + (if 0 <? stroke_width then stroke_width * 2 else 0) in
  let total_height :=
    fold_right Z.add 0 line_heights
    + (Z.of_nat (length lines) - 1) * effective_line_spacing in
  let available_height :=
    height self - padding_top self - padding_bottom self in
  let y := padding_top self + (available_height - total_height) / 2 in
  multiline_loop self font color alignment stroke_width stroke_color
    line_heights effective_line_spacing (length lines) lines 0 y.

End Draw.

(** ** Formatted text *)

Section Formatted.
Context {Font : Type}.
Variable textbbox : Z * Z -> str -> Font -> bbox.

(** [self._get_formatted_font(font_path, font_size, bold, italic)]: font
    resolution for a formatting, with its fallbacks. *)
Variable _get_formatted_font : option str -> Z -> bool -> bool -> Font.

(** State of the wrapping loops:
    [(lines, current_line, current_line_width)]. *)
Definition FWrapState := (list (list TextSegment) * list TextSegment * Z)%type.

(** The body of [for word in words], inside [for segment in segments]. *)
Definition fwrap_word (max_width : Z) (segment : TextSegment) (font : Font)
    (st : FWrapState) (word : str) : FWrapState :=
  let '(lines, current_line, current_line_width) := st in
  let word_segment :=
    mkTextSegment word (bold segment) (italic segment) (underline segment) in
  let b := textbbox (0, 0) word font in
  let word_width := bbox2 b - bbox0 b in
  let space_width :=
    match current_line with
    | _ :: _ =>
        let space_bbox := textbbox (0, 0) SP font in
        bbox2 space_bbox - bbox0 space_bbox
    | [] => 0
    end in
  if match current_line with _ :: _ => true | [] => false end
     && (max_width <? current_line_width + space_width + word_width)
  then (lines ++ [current_line], [word_segment], word_width)
  else
    let '(current_line, current_line_width) :=
      match current_line with
      | _ :: _ =>
          let space_segment :=
            mkTextSegment SP (bold segment) (italic segment)
              (underline segment) in
          (current_line ++ [space_segment], current_line_width + space_width)
      | [] => (current_line, current_line_width)
      end in
    (lines, current_line ++ [word_segment], current_line_width + word_width).

(** The body of [for segment in segments]. *)
Definition fwrap_segment (max_width : Z) (font_path : option str)
    (font_size : Z) (st : FWrapState) (segment : TextSegment) : FWrapState :=
  let words := split (text segment) in
  let font :=
    _get_formatted_font font_path font_size (bold segment) (italic segment) in
  fold_left (fwrap_word max_width segment font) words st.

Definition _wrap_formatted_text (self : ImageGenerator)
    (segments : list TextSegment) (base_font : Font)
    (font_path : option str) (font_size : Z) : list (list TextSegment) :=
  let max_width := width self - (padding_left self + padding_right self) in
  let '(lines, current_line, _) :=
    fold_left (fwrap_segment max_width font_path font_size) segments
      ([], [], 0) in
  let lines :=
    match current_line with
    | _ :: _ => lines ++ [current_line]
    | [] => lines
    end in
  match lines with
  | [] => [[plain_segment []]]
  | _ :: _ => lines
  end.

(** Total width of a line: the [for segment in line_segments] sum. *)
Definition line_total_width (font_path : option str) (font_size : Z)
    (line_segments : list TextSegment) : Z :=
  fold_left
    (fun (total_width : Z) (segment : TextSegment) =>
       let font :=
         _get_formatted_font font_path font_size (bold segment)
           (italic segment) in
       let b := textbbox (0, 0) (text segment) font in
       total_width + (bbox2 b - bbox0 b))
    line_segments 0.

(** The [if alignment == ...] chain choosing the starting x. *)
Definition formatted_start_x (self : ImageGenerator) (alignment : str)
    (total_width : Z) : Z :=
  if str_eqb alignment (lit "center") then (width self - total_width) / 2
  else if str_eqb alignment (lit "left") then padding_left self
  else if str_eqb alignment (lit "right")
       then width self - total_width - padding_right self
  else (width self - total_width) / 2.

(** The body of the drawing loop; the state is the pen position and the
    calls issued so far. *)
Definition draw_segment (y : Z) (text_color : Color) (stroke_width : Z)
    (stroke_color : option Color) (font_path : option str) (font_size : Z)
    (st : Z * list (DrawOp Font)) (segment : TextSegment)
    : Z * list (DrawOp Font) :=
  let '(current_x, ops) := st in
  match text segment with
  | [] => (current_x, ops)
  | _ :: _ =>
      let font :=
        _get_formatted_font font_path font_size (bold segment)
          (italic segment) in
      let ops :=
        match stroke_color with
        | Some c =>
            if 0 <? stroke_width
            then ops ++ [DrawText (current_x, y) (text segment) c font stroke_width]
            else ops
        | None => ops
        end in
      let ops :=
        if underline segment then
          let b := textbbox (current_x, y) (text segment) font in
          let underline_y := bbox3 b + 1 in
          ops ++ [DrawLine (bbox0 b, underline_y) (bbox2 b, underline_y)
                    text_color 1]
        else ops in
      let ops := ops ++ [DrawText (current_x, y) (text segment) text_color font 0] in
      let b := textbbox (current_x, y) (text segment) font in
      (bbox2 b, ops)
  end.

Definition _draw_formatted_line_segments (self : ImageGenerator)
    (line_segments : list TextSegment) (y : Z) (text_color : Color)
    (alignment : str) (stroke_width : Z) (stroke_color : option Color)
    (font_path : option str) (font_size : Z) : list (DrawOp Font) :=
  let total_width := line_total_width font_path font_size line_segments in
  let current_x := formatted_start_x self alignment total_width in
  snd (fold_left
         (draw_segment y text_color stroke_width stroke_color font_path
            font_size)
         line_segments (current_x, [])).

(** Height of a formatted line: the largest box height of its segments. *)
Definition formatted_line_height (font_path : option str) (font_size : Z)
    (line_segments : list TextSegment) : Z :=
  fold_left
    (fun (max_height : Z) (segment : TextSegment) =>
       let font :=
         _get_formatted_font font_path font_size (bold segment)
           (italic segment) in
       let b := textbbox (0, 0) (text segment) font in
       Z.max max_height (bbox3 b - bbox1 b))
    line_segments 0.

(** The loop [for i, line_segments in enumerate(formatted_lines)]: the
    calls of each line, and [y] advanced by the line height and the
    spacing. *)
Fixpoint draw_formatted_lines (self : ImageGenerator)
    (formatted_lines : list (list TextSegment)) (y : Z) (text_color : Color)
    (alignment : str) (stroke_width : Z) (stroke_color : option Color)
    (font_path : option str) (font_size : Z) (effective_line_spacing : Z)
    : list (DrawOp Font) :=
  match formatted_lines with
  | [] => []
  | line_segments :: rest =>
      _draw_formatted_line_segments self line_segments y text_color alignment
        stroke_width stroke_color font_path font_size
      ++ draw_formatted_lines self rest
           (y + (formatted_line_height font_path font_size line_segments
                 + effective_line_spacing))
           text_color alignment stroke_width stroke_color font_path font_size
           effective_line_spacing
  end.

(** [_draw_formatted_text]; [base_font_size] is [base_font.size], absent
    on a font without that attribute (then 24 is used). *)
Definition _draw_formatted_text (self : ImageGenerator)
    (segments : list TextSegment) (base_font : Font)
    (base_font_size : option Z) (text_color : Color) (alignment : str)
    (stroke_width : Z) (stroke_color : option Color)
    (font_path : option str) : list (DrawOp Font) :=
  let font_size := match base_font_size with Some s => s | None => 24 end in
  let formatted_lines :=
    _wrap_formatted_text self segments base_font font_path font_size in
  let line_heights :=
    map (formatted_line_height font_path font_size) formatted_lines in
  let effective_line_spacing :=
    LINE_SPACING (config self)
    + (if 0 <? stroke_width then stroke_width * 2 else 0) in
  let total_height :=
    fold_right Z.add 0 line_heights
    + (Z.of_nat (length formatted_lines) - 1) * effective_line_spacing in
  let available_height := height self - padding_top self - padding_bottom self in
  let y := padding_top self + (available_height - total_height) / 2 in
  draw_formatted_lines self formatted_lines y text_color alignment
    stroke_width stroke_color font_path font_size effective_line_spacing.

End Formatted.

(** The space segment put before a word unit: it copies the unit's
    formatting. *)
Definition space_before (v : TextSegment) : TextSegment :=
  mkTextSegment SP (bold v) (italic v) (underline v).

(** A line built from word units: the first unit, then each further unit
    behind its space. *)
Definition spaced_line (units : list TextSegment) : list TextSegment :=
  match units with
  | [] => []
  | u :: rest => u :: flat_map (fun v => [space_before v; v]) rest
  end.

(** The word units of a segment list: each word of each segment, with the
    formatting of its segment. *)
Definition word_units (segments : list TextSegment) : list TextSegment :=
  flat_map
    (fun s => map (fun w => mkTextSegment w (bold s) (italic s) (underline s))
                (split (text s)))
    segments.

Definition same_format (a b : TextSegment) : Prop :=
  bold a = bold b /\ italic a = italic b /\ underline a = underline b.

(** The specification's reading of formatted wrapping: wherever a
    single-space segment stands between two segments of a line, it has the
    formatting of the one before it. *)
Definition spaces_follow_previous (lines : list (list TextSegment)) : Prop :=
  forall (l pre post : list TextSegment) (w1 sp w2 : TextSegment),
    In l lines -> l = pre ++ [w1; sp; w2] ++ post -> text sp = SP ->
    same_format sp w1.

(** Invariant of the formatted wrapping loops after the word units
    [done]: the closed lines are the spaced groups [gs], the open line is
    the spaced group [g]. *)
Record fwrap_inv (gs : list (list TextSegment)) (g done : list TextSegment)
    (st : list (list TextSegment) * list TextSegment * Z) : Prop := {
  finv_nonempty : Forall (fun g => g <> []) gs;
  finv_lines : fst (fst st) = map spaced_line gs;
  finv_open : snd (fst st) = spaced_line g;
  finv_concat : concat gs ++ g = done
}.

(** ** The ideal justified layout *)

(** Sum of the first [j] word widths. *)
Definition prefix_width (ws : list Z) (j : nat) : Z :=
  fold_right Z.add 0 (firstn j ws).

(** Sum of the magnitudes of the word widths. *)
Definition abs_width (ws : list Z) : Z :=
  fold_right Z.add 0 (map Z.abs ws).

(** The exact x of word [j] when the space [space] is split evenly over
    [d] gaps from [pl] on. *)
Definition ideal_x (pl : Z) (ws : list Z) (space d : Z) (j : nat) : R :=
  (IZR pl + IZR (prefix_width ws j)
   + IZR (Z.of_nat j) * IZR space / IZR d)%R.

(** State of the pen before word [i]: the int [pl] at the first word, and
    later a finite float within [3 * i * eps] of the exact position. *)
Definition pen_ok {F : Type} {ops : PyFloatOps F} (fs : PyFloatSpec ops)
    (pl : Z) (ws : list Z) (space d : Z) (i : nat) (x : PyNum F) : Prop :=
  match x with
  | PyInt z => i = 0%nat /\ z = pl
  | PyFloat f =>
      (1 <= i)%nat /\ finite fs f
      /\ (ideal_x pl ws space d i - 3 * IZR (Z.of_nat i) * eps fs
          <= val fs f
          <= ideal_x pl ws space d i + 3 * IZR (Z.of_nat i) * eps fs)%R
  end.

(** The calls expected for one piece of text at [xy]: with a stroke
    colour and a positive stroke width, the text in the stroke colour
    with that width; then, in either case, the text in its own colour
    with no stroke. *)
Definition stroke_then_fill {Font : Type} (xy : Z * Z) (txt : str)
    (font : Font) (color : Color) (stroke_width : Z)
    (stroke_color : option Color) : list (DrawOp Font) :=
  match stroke_color with
  | Some c =>
      if 0 <? stroke_width
      then [DrawText xy txt c font stroke_width; DrawText xy txt color font 0]
      else [DrawText xy txt color font 0]
  | None => [DrawText xy txt color font 0]
  end.

(** A justified block as the specification has it: every line but the last
    goes through [_draw_justified_line], the last is centred. *)
Fixpoint justify_block {Font F : Type} {ops : PyFloatOps F}
    (textbbox : Z * Z -> str -> Font -> bbox) (self : ImageGenerator)
    (font : Font) (color : Color) (stroke_width : Z)
    (stroke_color : option Color) (spacing : Z) (lines : list str) (y : Z)
    : list (DrawOp Font) :=
  match lines with
  | [] => []
  | line :: rest =>
      let b := textbbox (0, 0) line font in
      (match rest with
       | [] =>
           stroke_then_fill ((width self - (bbox2 b - bbox0 b)) / 2, y) line
             font color stroke_width stroke_color
       | _ :: _ =>
           _draw_justified_line textbbox self line y font color stroke_width
             stroke_color
       end)
      ++ justify_block textbbox self font color stroke_width stroke_color
           spacing rest (y + (bbox3 b - bbox1 b + spacing))
  end.

(** What the specification says of a justified line as Python draws it
    (in binary64): the words are drawn one by one, in order and from
    [padding_left], and the drawn widths and the gaps between them add up
    to the available width within one pixel per gap.  The sum of the
    widths and the gaps is the right edge of the last word less the left
    edge of the first. *)
Definition justified_within_a_pixel_per_gap {Font : Type}
    (textbbox : Z * Z -> str -> Font -> bbox) (self : ImageGenerator)
    (line : str) (y : Z) (font : Font) (color : Color) (stroke_width : Z)
    (stroke_color : option Color) : Prop :=
  let words := split line in
  let n := length words in
  let word_widths :=
    map (fun w =>
           bbox2 (textbbox (0, 0) w font) - bbox0 (textbbox (0, 0) w font))
      words in
  let available_width :=
    width self - padding_left self - padding_right self in
  exists xs : list Z,
    _draw_justified_line (fops := binary64) textbbox self line y font color
      stroke_width stroke_color
    = flat_map
        (fun xw : Z * str =>
           stroke_then_fill (fst xw, y) (snd xw) font color stroke_width
             stroke_color)
        (combine xs words)
    /\ length xs = n
    /\ nth 0 xs 0 = padding_left self
    /\ Z.abs (nth (n - 1) xs 0 + nth (n - 1) word_widths 0 - nth 0 xs 0
              - available_width)
       <= Z.of_nat n - 1.

(** The lines are the words cut into consecutive non-empty groups, each
    group joined by single spaces. *)
Definition grouped (words lines : list str) : Prop :=
  exists gs : list (list str),
    Forall (fun g => g <> []) gs
    /\ concat gs = words
    /\ lines = map (join SP) gs.

(** A fixed-pitch measurer: the font is its size, every character is
  [size] pixels wide and [size] pixels high. *)
Definition fixed_bbox (xy : Z * Z) (s : str) (size : Z) : bbox :=
let '(x, y) := xy in
(x, y, x + size * Z.of_nat (length s), y + size).



(** The generator built from [config_example.py] for the 240x240 display. *)
Definition example_generator : ImageGenerator :=
  new_ImageGenerator example_config 240 240 None None None None.

(* ================================================================= *)
(** * The rest of the code: further definitions *)

(** ** Checking a property over an integer range *)

(** [all(p(s) for s in range(lo, lo + n))]. *)
Fixpoint all_from (p : Z -> bool) (lo : Z) (n : nat) : bool :=
  match n with
  | O => true
  | S n' => p lo && all_from p (lo + 1) n'
  end.

(** The fit is monotone on [[lo, hi]]: a size that fits leaves every
    smaller size of the range fitting. *)
Definition fit_monotone (fits : Z -> bool) (lo hi : Z) : Prop :=
  forall s t : Z, lo <= s -> s <= t -> t <= hi -> fits t = true -> fits s = true.

(** The same, decided by running [fits] over the range: no size fits
    right above one that does not. *)
Definition fit_monotone_b (fits : Z -> bool) (lo hi : Z) : bool :=
  all_from (fun s => fits s || negb (fits (s + 1))) lo (Z.to_nat (hi - lo)).

(** ** [utils.split_text_into_lines] *)

(** The body of [for word in words]; the state is
    [(lines, current_line, current_length)]. *)
Definition split_lines_step (max_chars_per_line : Z)
    (st : list str * list str * Z) (word : str) : list str * list str * Z :=
  let '(lines, current_line, current_length) := st in
  let word_length := Z.of_nat (length word) in
  if current_length + word_length + Z.of_nat (length current_line)
     <=? max_chars_per_line
  then (lines, current_line ++ [word], current_length + word_length)
  else
    let lines :=
      match current_line with
      | _ :: _ => lines ++ [join SP current_line]
      | [] => lines
      end in
    (lines, [word], word_length).

Definition split_text_into_lines (text : str) (max_chars_per_line : Z)
    : list str :=
  let words := split text in
  let '(lines, current_line, _) :=
    fold_left (split_lines_step max_chars_per_line) words ([], [], 0) in
  match current_line with
  | _ :: _ => lines ++ [join SP current_line]
  | [] => lines
  end.

(** Sum of the lengths of a list of words. *)
Definition total_length (ws : list str) : Z :=
  fold_right Z.add 0 (map (fun w => Z.of_nat (length w)) ws).

(** How the states of [split_text_into_lines] and of the pixel wrapper at
    one pixel per character correspond: they are equal, or the splitter
    still holds a word longer than the limit that the wrapper has already
    put on a line. *)
Definition split_wrap_rel (max_chars_per_line : Z)
    (s : list str * list str * Z) (w : list str * list str) : Prop :=
  snd s = total_length (snd (fst s))
  /\ ((fst (fst s) = fst w /\ snd (fst s) = snd w)
      \/ exists word : str,
           snd (fst s) = [word] /\ snd w = []
           /\ fst w = fst (fst s) ++ [word]
           /\ max_chars_per_line < Z.of_nat (length word)).

(** ** Exceptions *)

(** The exceptions the code meets. *)
Inductive PyExc : Type :=
| ValueError
| TypeError
| AttributeError
| KeyError
| FileNotFoundError
| OSError
| RequestException.

(** A call returns a value or raises. *)
Inductive Result (A : Type) : Type :=
| Ok (a : A)
| Raise (e : PyExc).

Arguments Ok {A} a.
Arguments Raise {A} e.

(** Truthiness of an [Optional[str]]: [None] and [""] are false. *)
Definition truthy (s : option str) : bool :=
  match s with
  | Some (_ :: _) => true
  | _ => false
  end.

(** ** Font resolution ([image_generator.py]) *)

Section Fonts.
Context {Font : Type}.

(** [os.path.exists(path)]. *)
Variable path_exists : str -> bool.

(** [ImageFont.truetype(path, size)]: a font, or an exception when the
    file cannot be loaded. *)
Variable truetype : str -> Z -> Result Font.

(** [ImageFont.load_default()], which has no file to miss. *)
Variable load_default : Font.

(** [os.path.splitext(path)[0]]. *)
Variable splitext_root : str -> str.

(** The candidates of [_find_default_font] for [platform.system()]. *)
Definition font_candidates (system : str) : list str :=
  if str_eqb system (lit "Windows") then
    [ lit "C:\Windows\Fonts\Arial.ttf";
      lit "C:\Windows\Fonts\arial.ttf";
      lit "C:\Windows\Fonts\Calibri.ttf";
      lit "C:\Windows\Fonts\calibri.ttf";
      lit "C:\Windows\Fonts\Verdana.ttf";
      lit "C:\Windows\Fonts\verdana.ttf";
      lit "C:\Windows\Fonts\Tahoma.ttf";
      lit "C:\Windows\Fonts\tahoma.ttf" ]
  else if str_eqb system (lit "Darwin") then
    [ lit "/System/Library/Fonts/Helvetica.ttc";
      lit "/Library/Fonts/Arial.ttf";
      lit "/System/Library/Fonts/Avenir.ttc" ]
  else
    [ lit "/usr/share/fonts/truetype/liberation/LiberationSans-Regular.ttf";
      lit "/usr/share/fonts/truetype/dejavu/DejaVuSans.ttf";
      lit "/usr/share/fonts/truetype/ubuntu/Ubuntu-R.ttf" ].

Definition _find_default_font (system : str) : option str :=
  find path_exists (font_candidates system).

(** [try: return a  except: b]. *)
Definition try_except {A : Type} (a b : Result A) : Result A :=
  match a with
  | Ok x => Ok x
  | Raise _ => b
  end.

(** [_get_font]; [_default_font_path] is the attribute of [self]. *)
Definition _get_font (_default_font_path : option str)
    (font_path : option str) (font_size : Z) : Result Font :=
  try_except
    (match font_path with
     | Some (c :: p) =>
         if path_exists (c :: p) then truetype (c :: p) font_size
         else
           match _default_font_path with
           | Some (d :: q) => truetype (d :: q) font_size
           | _ =>
               try_except (truetype (lit "arial.ttf") font_size)
                 (try_except (truetype (lit "Arial") font_size)
                    (Ok load_default))
           end
     | _ =>
         match _default_font_path with
         | Some (d :: q) => truetype (d :: q) font_size
         | _ =>
             try_except (truetype (lit "arial.ttf") font_size)
               (try_except (truetype (lit "Arial") font_size)
                  (Ok load_default))
         end
     end)
    (Ok load_default).

(** [for suffix in suffixes: ... if os.path.exists(variant_path): return
    ImageFont.truetype(variant_path, font_size)]: the load of the first
    variant that exists, if one does. *)
Definition load_variant (base_name : str) (suffixes : list str)
    (font_size : Z) : option (Result Font) :=
  match find path_exists
          (map (fun suffix => base_name ++ suffix ++ lit ".ttf") suffixes) with
  | Some variant_path => Some (truetype variant_path font_size)
  | None => None
  end.

(** [for font_name in names: try: return ImageFont.truetype(font_name,
    font_size)  except: continue]: the first name that loads. *)
Fixpoint load_first (names : list str) (font_size : Z) : option Font :=
  match names with
  | [] => None
  | font_name :: rest =>
      match truetype font_name font_size with
      | Ok f => Some f
      | Raise _ => load_first rest font_size
      end
  end.

(** The [try] block of [_get_formatted_font]: [Ok (Some f)] when it
    returns [f], [Ok None] when it is left without a [return]. *)
Definition formatted_font_try (_default_font_path : option str)
    (base_font_path : option str) (font_size : Z) (bold italic : bool)
    : Result (option Font) :=
  let some (r : Result Font) : Result (option Font) :=
    match r with
    | Ok f => Ok (Some f)
    | Raise e => Raise e
    end in
  let with_base (p : str) : Result (option Font) :=
    let base_name := splitext_root p in
    let variant :=
      if bold && italic then
        load_variant base_name
          [lit "-BoldItalic"; lit "-BoldOblique"; lit "bi"; lit "BI"]
          font_size
      else if bold then
        load_variant base_name [lit "-Bold"; lit "b"; lit "B"] font_size
      else if italic then
        load_variant base_name
          [lit "-Italic"; lit "-Oblique"; lit "i"; lit "I"] font_size
      else None in
    match variant with
    | Some r => some r
    | None => some (truetype p font_size)
    end in
  let with_default (d : str) : Result (option Font) :=
    let named :=
      if bold && italic then
        load_first [lit "arialbi.ttf"; lit "Arial-BoldItalic.ttf"] font_size
      else if bold then
        load_first [lit "arialbd.ttf"; lit "Arial-Bold.ttf"] font_size
      else if italic then
        load_first [lit "ariali.ttf"; lit "Arial-Italic.ttf"] font_size
      else None in
    match named with
    | Some f => Ok (Some f)
    | None => some (truetype d font_size)
    end in
  match base_font_path with
  | Some (c :: p) =>
      if path_exists (c :: p) then with_base (c :: p)
      else
        match _default_font_path with
        | Some (d :: q) => with_default (d :: q)
        | _ => Ok None
        end
  | _ =>
      match _default_font_path with
      | Some (d :: q) => with_default (d :: q)
      | _ => Ok None
      end
  end.

Definition _get_formatted_font (_default_font_path : option str)
    (base_font_path : option str) (font_size : Z) (bold italic : bool)
    : Result Font :=
  match formatted_font_try _default_font_path base_font_path font_size bold
          italic with
  | Ok (Some f) => Ok f
  | Ok None | Raise _ => _get_font _default_font_path base_font_path font_size
  end.

(** The font a call hands back, for callers that use it as a value. *)
Definition returned_font (r : Result Font) : Font :=
  match r with
  | Ok f => f
  | Raise _ => load_default
  end.

End Fonts.

(** ** Small string operations *)

From Stdlib Require DecimalString.

(** [str(z)] for an int: the decimal numeral. *)
Definition py_str_int (z : Z) : str :=
  list_ascii_of_string (DecimalString.NilZero.string_of_int (Z.to_int z)).

(** [s.startswith(prefix)]. *)
Fixpoint startswith (s prefix : str) {struct prefix} : bool :=
  match prefix with
  | [] => true
  | p :: prefix' =>
      match s with
      | c :: s' => Ascii.eqb c p && startswith s' prefix'
      | [] => false
      end
  end.

(** [s.endswith(suffix)]. *)
Definition endswith (s suffix : str) : bool :=
  startswith (rev s) (rev suffix).

(** ** The upload client ([display_uploader.py]) *)

Record DisplayConfig := {
  BASE_URL : str;
  TIMEOUT : Z;
  IMAGE_WIDTH : Z;
  IMAGE_HEIGHT : Z;
  JPEG_QUALITY : Z;
  SLOTS : list Z
}.

(** The values shipped in [config_example.py]. *)
Definition example_display_config : DisplayConfig := {|
  BASE_URL := lit "http://192.168.10.154";
  TIMEOUT := 10;
  IMAGE_WIDTH := 240;
  IMAGE_HEIGHT := 240;
  JPEG_QUALITY := 70;
  SLOTS := [1; 2; 3; 4; 5]
|}.

(** [slot in slots] for a list of ints. *)
Definition int_in (x : Z) (l : list Z) : bool := existsb (Z.eqb x) l.

(** [utils.validate_slot]. *)
Definition validate_slot (slot : Z) : bool := int_in slot [1; 2; 3; 4; 5].

Record DisplayUploader := {
  base_url : str;
  timeout : Z;
  image_width : Z;
  image_height : Z;
  jpeg_quality : Z
}.

(** The box [_process_pil_image] crops an image of size [w] x [h] to:
    [(left, top, left + side, top + side)]. *)
Definition crop_box (w h : Z) : Z * Z * Z * Z :=
  let side := Z.min w h in
  let left := (w - side) / 2 in
  let top := (h - side) / 2 in
  (left, top, left + side, top + side).

(** One POST: the URL, the file name and bytes of the form field
    [imageFile], the timeout. *)
Record Request (Bytes : Type) := mkRequest {
  req_url : str;
  req_filename : str;
  req_body : Bytes;
  req_timeout : Z
}.

Arguments mkRequest {Bytes} _ _ _ _.
Arguments req_url {Bytes} _.
Arguments req_filename {Bytes} _.
Arguments req_body {Bytes} _.
Arguments req_timeout {Bytes} _.

(** What [requests.post] does: a response with its status and text, a
    [requests.RequestException] with its message, or another exception. *)
Inductive PostOutcome : Type :=
| Responded (status_code : Z) (response_text : str)
| RequestFailed (message : str)
| PostRaised (e : PyExc).

(** The dict [_upload_to_display] returns. *)
Record UploadResult := mkUploadResult {
  success : bool;
  status_code : option Z;
  message : str;
  result_slot : Z;
  result_filename : str
}.

(** The [image] argument of [upload_image]: a path, a PIL image, bytes,
    or a value of another type. *)
Inductive ImageArg (Img Bytes : Type) : Type :=
| ImagePath (file_path : str)
| ImagePIL (img : Img)
| ImageBytes (b : Bytes)
| ImageOther.

Arguments ImagePath {Img Bytes} file_path.
Arguments ImagePIL {Img Bytes} img.
Arguments ImageBytes {Img Bytes} b.
Arguments ImageOther {Img Bytes}.

Section Upload.
Context {Img Bytes : Type}.
Variable dc : DisplayConfig.

(** The filesystem and PIL: [os.path.exists], [Image.open],
    [ImageOps.exif_transpose], [img.mode], [img.convert('RGB')],
    [img.size], [img.crop(box)], [img.resize(size, LANCZOS)] and the JPEG
    encoding [img.save(buf, 'JPEG', quality, optimize=True)]. *)
Variable path_exists : str -> bool.
Variable image_open : str -> Result Img.
Variable exif_transpose : Img -> Img.
Variable img_mode : Img -> str.
Variable convert_rgb : Img -> Img.
Variable img_size : Img -> Z * Z.
Variable img_crop : Img -> Z * Z * Z * Z -> Img.
Variable img_resize : Img -> Z * Z -> Img.
Variable save_jpeg : Img -> Z -> Bytes.

(** [requests.post(url, files=..., timeout=...)]; what the device answers
    may depend on the requests made before. *)
Variable post : list (Request Bytes) -> Request Bytes -> PostOutcome.

Definition _process_pil_image (self : DisplayUploader) (img : Img) : Bytes :=
  let img := exif_transpose img in
  let img := if str_eqb (img_mode img) (lit "RGB") then img
             else convert_rgb img in
  let '(w, h) := img_size img in
  let img :=
    if negb (w =? image_width self) || negb (h =? image_height self) then
      let img := img_crop img (crop_box w h) in
      img_resize img (image_width self, image_height self)
    else img in
  save_jpeg img (jpeg_quality self).

Definition _process_image_file (self : DisplayUploader) (file_path : str)
    : Result Bytes :=
  if negb (path_exists file_path) then Raise FileNotFoundError
  else
    match image_open file_path with
    | Ok img => Ok (_process_pil_image self img)
    | Raise e => Raise e
    end.

(** [_upload_to_display], after the requests of [log]: the log with the
    request made, and the result or the exception that was not a
    [RequestException]. *)
Definition _upload_to_display (self : DisplayUploader)
    (log : list (Request Bytes)) (slot : Z)
    (jpeg_bytes : Bytes) (filename : str)
    : list (Request Bytes) * Result UploadResult :=
  let request :=
    mkRequest (base_url self ++ lit "/upload") filename jpeg_bytes
      (timeout self) in
  (log ++ [request],
   match post log request with
   | Responded status text =>
       Ok (mkUploadResult (status =? 200) (Some status) text slot filename)
   | RequestFailed msg =>
       Ok (mkUploadResult false None msg slot filename)
   | PostRaised e => Raise e
   end).

(** [upload_image]: the log afterwards and the outcome. *)
Definition upload_image (self : DisplayUploader)
    (log : list (Request Bytes)) (slot : Z)
    (image : ImageArg Img Bytes) (filename : option str)
    : list (Request Bytes) * Result UploadResult :=
  if negb (int_in slot (SLOTS dc)) then (log, Raise ValueError)
  else
    let jpeg_bytes :=
      match image with
      | ImagePath file_path => _process_image_file self file_path
      | ImagePIL img => Ok (_process_pil_image self img)
      | ImageBytes b => Ok b
      | ImageOther => Raise TypeError
      end in
    match jpeg_bytes with
    | Raise e => (log, Raise e)
    | Ok jpeg_bytes =>
        let filename :=
          match filename with
          | None => lit "file" ++ py_str_int slot ++ lit ".jpg"
          | Some filename =>
              if negb (endswith filename (lit ".jpg"))
              then filename ++ lit ".jpg"
              else filename
          end in
        _upload_to_display self log slot jpeg_bytes filename
    end.



End Upload.

(** ** Strings and numerals of [utils.py] *)

(** [s.lstrip()], [s.rstrip()] and [s.strip()]. *)
Fixpoint lstrip (s : str) : str :=
  match s with
  | c :: s' => if isspace c then lstrip s' else s
  | [] => []
  end.

Definition rstrip (s : str) : str := rev (lstrip (rev s)).

Definition strip (s : str) : str := rstrip (lstrip s).

(** [s.split(sep)] for a one-character separator: the pieces between the
    separators, empty ones included. *)
Fixpoint split_on (sep : ascii) (s : str) : list str :=
  match s with
  | [] => [[]]
  | c :: s' =>
      if Ascii.eqb c sep then [] :: split_on sep s'
      else match split_on sep s' with
           | p :: ps => (c :: p) :: ps
           | [] => [[c]]
           end
  end.

(** [ch in s]. *)
Definition char_in (ch : ascii) (s : str) : bool := existsb (Ascii.eqb ch) s.

(** The value of a character as a digit: 0 to 9 for the decimal digits,
    10 to 35 for the letters of either case. *)
Definition digit_value (c : ascii) : option Z :=
  let n := Z.of_N (N_of_ascii c) in
  if (48 <=? n) && (n <=? 57) then Some (n - 48)
  else if (97 <=? n) && (n <=? 122) then Some (n - 97 + 10)
  else if (65 <=? n) && (n <=? 90) then Some (n - 65 + 10)
  else None.

(** The whitespace [int(s)] skips at both ends of a [str] of code points
    below 256: the ASCII whitespace of C, and the two other spaces, which
    are first turned into a blank. *)
Definition int_space (c : ascii) : bool :=
  let n := N_of_ascii c in
  (((9 <=? n) && (n <=? 13)) || (n =? 32) || (n =? 133) || (n =? 160))%N.

Fixpoint skip_int_space (s : str) : str :=
  match s with
  | c :: s' => if int_space c then skip_int_space s' else s
  | [] => []
  end.

(** The scan over digits and underscores: the value, the number of
    digits and the rest, or nothing on a doubled or trailing underscore. *)
Fixpoint scan_digits (base : Z) (s : str) (acc digits : Z)
    (prev_underscore : bool) : option (Z * Z * str) :=
  let stop := if prev_underscore then None else Some (acc, digits, s) in
  match s with
  | c :: s' =>
      if Ascii.eqb c "_" then
        if prev_underscore then None else scan_digits base s' acc digits true
      else
        match digit_value c with
        | Some d =>
            if d <? base
            then scan_digits base s' (acc * base + d) (digits + 1) false
            else stop
        | None => stop
        end
  | [] => stop
  end.

(** [int(s, base)] for base 10 or 16; [None] stands for [ValueError].
    Whitespace at the ends, one sign, for base 16 an optional [0x] that
    one underscore may follow, digits with single underscores between
    them.  In base 10 a numeral of more than [max_str_digits] digits is
    refused ([sys.get_int_max_str_digits()]; 0 means no limit, and no
    limit applies up to 640 digits). *)
Definition py_int (max_str_digits : Z) (base : Z) (s : str) : option Z :=
  let s := skip_int_space s in
  let '(sign, s) :=
    match s with
    | c :: s' =>
        if Ascii.eqb c "+" then (1, s')
        else if Ascii.eqb c "-" then (-1, s')
        else (1, s)
    | [] => (1, s)
    end in
  let s :=
    match s with
    | c0 :: x :: s' =>
        if (base =? 16) && Ascii.eqb c0 "0"
           && (Ascii.eqb x "x" || Ascii.eqb x "X")
        then match s' with
             | u :: s'' => if Ascii.eqb u "_" then s'' else s'
             | [] => s'
             end
        else s
    | _ => s
    end in
  match s with
  | [] => None
  | c :: _ =>
      if Ascii.eqb c "_" then None
      else
        match scan_digits base s 0 0 false with
        | None => None
        | Some (v, digits, rest) =>
            if digits =? 0 then None
            else if (base =? 10) && (640 <? digits) && (0 <? max_str_digits)
                    && (max_str_digits <? digits)
            then None
            else match skip_int_space rest with
                 | [] => Some (sign * v)
                 | _ :: _ => None
                 end
        end
  end.

(** [d[key]] and [key in d] for a dict with string keys, written in the
    order of its literal. *)
Fixpoint dict_get {V : Type} (key : str) (d : list (str * V)) : option V :=
  match d with
  | [] => None
  | (k, v) :: d' => if str_eqb key k then Some v else dict_get key d'
  end.

(** ** Colours and font sizes ([utils.py] over [config.ImageConfig]) *)

(** A colour scheme: the dict with the keys ['background'] and ['text']. *)
Record ColorScheme := {
  scheme_background : Color;
  scheme_text : Color
}.

(** The attributes of [ImageConfig] that hold defaults and named values. *)
Record ImageDefaults := {
  DEFAULT_BACKGROUND_COLOR : Color;
  DEFAULT_TEXT_COLOR : Color;
  DEFAULT_FONT_SIZE : Z;
  FONT_SIZES : list (str * Z);
  COLORS : list (str * Color);
  COLOR_SCHEMES : list (str * ColorScheme)
}.

(** The values shipped in [config_example.py]. *)
Definition example_defaults : ImageDefaults := {|
  DEFAULT_BACKGROUND_COLOR := (0, 0, 0);
  DEFAULT_TEXT_COLOR := (255, 255, 255);
  DEFAULT_FONT_SIZE := 24;
  FONT_SIZES :=
    [(lit "small", 18); (lit "medium", 24); (lit "large", 32);
     (lit "xlarge", 48)];
  COLORS :=
    [(lit "white", (255, 255, 255)); (lit "black", (0, 0, 0));
     (lit "red", (255, 0, 0)); (lit "green", (0, 255, 0));
     (lit "blue", (0, 0, 255)); (lit "yellow", (255, 255, 0));
     (lit "cyan", (0, 255, 255)); (lit "magenta", (255, 0, 255));
     (lit "orange", (255, 165, 0)); (lit "purple", (128, 0, 128));
     (lit "pink", (255, 192, 203)); (lit "lime", (50, 205, 50));
     (lit "navy", (0, 0, 128)); (lit "gray", (128, 128, 128));
     (lit "silver", (192, 192, 192)); (lit "brown", (165, 42, 42));
     (lit "gold", (255, 215, 0)); (lit "turquoise", (64, 224, 208))];
  COLOR_SCHEMES :=
    [(lit "default",
      {| scheme_background := (0, 0, 0);
         scheme_text := (255, 255, 255) |});
     (lit "blue",
      {| scheme_background := (0, 50, 100);
         scheme_text := (255, 255, 255) |});
     (lit "green",
      {| scheme_background := (0, 80, 40);
         scheme_text := (255, 255, 255) |});
     (lit "red",
      {| scheme_background := (100, 20, 20);
         scheme_text := (255, 255, 255) |});
     (lit "light",
      {| scheme_background := (240, 240, 240);
         scheme_text := (20, 20, 20) |});
     (lit "purple",
      {| scheme_background := (60, 20, 80);
         scheme_text := (255, 200, 255) |})]
|}.

(** [0 <= val <= 255]. *)
Definition is_channel (val : Z) : bool := (0 <=? val) && (val <=? 255).

Section Parse.
Variable cfg : ImageDefaults.
Variable max_str_digits : Z.

(** The [r,g,b] part of [parse_color]; a [ValueError] of [int] is caught
    and leads, like every other failure, to the default colour. *)
Definition parse_rgb (color_str : str) : Color :=
  if char_in "," color_str then
    match split_on "," color_str with
    | [p0; p1; p2] =>
        match py_int max_str_digits 10 (strip p0) with
        | None => DEFAULT_TEXT_COLOR cfg
        | Some r =>
            match py_int max_str_digits 10 (strip p1) with
            | None => DEFAULT_TEXT_COLOR cfg
            | Some g =>
                match py_int max_str_digits 10 (strip p2) with
                | None => DEFAULT_TEXT_COLOR cfg
                | Some b =>
                    if forallb is_channel [r; g; b] then (r, g, b)
                    else DEFAULT_TEXT_COLOR cfg
                end
            end
        end
    | _ => DEFAULT_TEXT_COLOR cfg
    end
  else DEFAULT_TEXT_COLOR cfg.

Definition parse_color (color_str : str) : Result Color :=
  let color_str := lower (strip color_str) in
  match dict_get color_str (COLORS cfg) with
  | Some c => Ok c
  | None =>
      match dict_get color_str (COLOR_SCHEMES cfg) with
      | Some scheme => Ok (scheme_text scheme)
      | None =>
          if startswith color_str (lit "#") then
            let color_str := skipn 1 color_str in
            if Z.of_nat (length color_str) =? 6 then
              match py_int max_str_digits 16 (slice 0 2 color_str) with
              | None => Raise ValueError
              | Some r =>
                  match py_int max_str_digits 16 (slice 2 4 color_str) with
                  | None => Raise ValueError
                  | Some g =>
                      match
                        py_int max_str_digits 16 (slice 4 6 color_str)
                      with
                      | None => Raise ValueError
                      | Some b => Ok (r, g, b)
                      end
                  end
              end
            else Ok (parse_rgb color_str)
          else Ok (parse_rgb color_str)
      end
  end.

(** [get_color_scheme]; [KeyError] when neither the name nor ['default']
    is a scheme. *)
Definition get_color_scheme (scheme_name : str) : Result ColorScheme :=
  match dict_get scheme_name (COLOR_SCHEMES cfg) with
  | Some scheme => Ok scheme
  | None =>
      match dict_get (lit "default") (COLOR_SCHEMES cfg) with
      | Some scheme => Ok scheme
      | None => Raise KeyError
      end
  end.

Definition parse_font_size (size_str : str) : Z :=
  let size_str := lower (strip size_str) in
  match dict_get size_str (FONT_SIZES cfg) with
  | Some size => size
  | None =>
      match py_int max_str_digits 10 size_str with
      | Some size =>
          if (8 <=? size) && (size <=? 100) then size
          else DEFAULT_FONT_SIZE cfg
      | None => DEFAULT_FONT_SIZE cfg
      end
  end.

End Parse.

(** ** Predicates used to state the properties of the parsers *)

(** Every character. *)
Definition all_ascii : list ascii := map ascii_of_nat (seq 0 256).

(** A decimal digit. *)
Definition is_digit (c : ascii) : bool :=
  let n := N_of_ascii c in ((48 <=? n) && (n <=? 57))%N.

(** [c] is a hexadecimal digit of either case, of value [v]. *)
Definition hex_digit (c : ascii) (v : Z) : Prop :=
  digit_value c = Some v /\ v < 16.

(** No key of the dict has a character that satisfies [p]. *)
Definition keys_without {V : Type} (p : ascii -> bool) (d : list (str * V))
    : bool :=
  forallb (fun kv => negb (existsb p (fst kv))) d.

(** The three channels are within [[lo, hi]]. *)
Definition channels_within (lo hi : Z) (c : Color) : Prop :=
  let '(r, g, b) := c in
  lo <= r <= hi /\ lo <= g <= hi /\ lo <= b <= hi.

Definition is_color (c : Color) : bool :=
  let '(r, g, b) := c in is_channel r && is_channel g && is_channel b.

(** The named colours, the schemes and the defaults are colours with
    channels from 0 to 255. *)
Definition valid_palette (cfg : ImageDefaults) : bool :=
  is_color (DEFAULT_BACKGROUND_COLOR cfg)
  && is_color (DEFAULT_TEXT_COLOR cfg)
  && forallb (fun kv => is_color (snd kv)) (COLORS cfg)
  && forallb (fun kv => is_color (scheme_background (snd kv))
                        && is_color (scheme_text (snd kv)))
       (COLOR_SCHEMES cfg).

(** The named font sizes and the default are sizes from 8 to 100. *)
Definition valid_font_sizes (cfg : ImageDefaults) : bool :=
  (8 <=? DEFAULT_FONT_SIZE cfg) && (DEFAULT_FONT_SIZE cfg <=? 100)
  && forallb (fun kv => (8 <=? snd kv) && (snd kv <=? 100)) (FONT_SIZES cfg).

(** ** [utils.strip_html_tags] *)

(** The index of the first [>] of [s]. *)
Fixpoint find_gt (s : str) : option nat :=
  match s with
  | [] => None
  | c :: s' =>
      if Ascii.eqb c ">" then Some O else option_map S (find_gt s')
  end.

(** An anchored match of [[^>]+>] at the head of [s], the text right
    after a [<]: its length.  The class takes every character up to the
    first [>], and at least one is needed. *)
Definition match_any_tag (s : str) : option nat :=
  match find_gt s with
  | Some (S k) => Some (S (S k))
  | _ => None
  end.

(** [re.sub(r'<[^>]+>', '', s)], scanning from the left; [skip] is the
    number of characters still inside the match being removed. *)
Fixpoint sub_tags (skip : nat) (s : str) : str :=
  match s with
  | [] => []
  | c :: s' =>
      match skip with
      | S k => sub_tags k s'
      | O =>
          if Ascii.eqb c "<" then
            match match_any_tag s' with
            | Some n => sub_tags n s'
            | None => c :: sub_tags 0 s'
            end
          else c :: sub_tags 0 s'
      end
  end.

Definition strip_html_tags (text : str) : str := sub_tags 0 text.

(** [re.search(r'<[^>]+>', s)] finds a match. *)
Fixpoint search_any_tag (s : str) : bool :=
  match s with
  | [] => false
  | c :: s' =>
      (Ascii.eqb c "<"
       && match match_any_tag s' with Some _ => true | None => false end)
      || search_any_tag s'
  end.

(** ** Sequencing calls that may raise *)

Definition bind {A B : Type} (r : Result A) (k : A -> Result B) : Result B :=
  match r with
  | Ok a => k a
  | Raise e => Raise e
  end.

Notation "x <- e ;; k" := (bind e (fun x => k))
  (at level 61, e at next level, right associativity).

(** ** Pictures *)

(** What has been asked of PIL for one image: [Image.new('RGB', size,
    color)] with the colour it was given, if any, then the
    [draw.rectangle([p1, p2], fill)] calls and the text and line calls,
    in order. *)
Record Picture (Font : Type) := mkPicture {
  pic_size : Z * Z;
  pic_fill : option Color;
  pic_rects : list ((Z * Z) * (Z * Z) * Color);
  pic_ops : list (DrawOp Font)
}.

Arguments mkPicture {Font} _ _ _ _.
Arguments pic_size {Font} _.
Arguments pic_fill {Font} _.
Arguments pic_rects {Font} _.
Arguments pic_ops {Font} _.

(** The stroke width of a call. *)
Definition op_stroke_width {Font : Type} (op : DrawOp Font) : Z :=
  match op with
  | DrawText _ _ _ _ stroke_width => stroke_width
  | DrawLine _ _ _ _ => 0
  end.


(** [range(n)]. *)
Definition py_range (n : Z) : list Z := map Z.of_nat (seq 0 (Z.to_nat n)).

(** ** Gradients *)

(** [int(c1 * (1 - ratio) + c2 * ratio)]. *)
Definition gradient_channel (c1 c2 : Z) (ratio : float) : Z :=
  int_of_float (float_of_int c1 * (1 - ratio) + float_of_int c2 * ratio)%float.

(** The fill of row (or column) [i] of [n]; [ratio = i / n] is the
    division of two ints, which for ints below [2^53] is the division of
    their floats. *)
Definition gradient_color (color1 color2 : Color) (i n : Z) : Color :=
  let ratio := (float_of_int i / float_of_int n)%float in
  let '(r1, g1, b1) := color1 in
  let '(r2, g2, b2) := color2 in
  (gradient_channel r1 r2 ratio, gradient_channel g1 g2 ratio,
   gradient_channel b1 b2 ratio).

(** The rectangles of [create_gradient_background]. *)
Definition create_gradient_background (self : ImageGenerator)
    (color1 color2 : Color) (direction : str)
    : list ((Z * Z) * (Z * Z) * Color) :=
  if str_eqb direction (lit "vertical") then
    map (fun y =>
           ((0, y), (width self, y + 1),
            gradient_color color1 color2 y (height self)))
      (py_range (height self))
  else
    map (fun x =>
           ((x, 0), (x + 1, height self),
            gradient_color color1 color2 x (width self)))
      (py_range (width self)).

(** ** Composing an image ([create_text_image], [create_with_gradient]) *)

Section Compose.
Context {Font : Type} {F : Type} {fops : PyFloatOps F}.
Variable textbbox : Z * Z -> str -> Font -> bbox.
Variable _get_font : option str -> Z -> Font.
Variable _get_formatted_font : option str -> Z -> bool -> bool -> Font.

(** [font.size], for a font that has the attribute. *)
Variable font_size_attr : Font -> option Z.

Variable defaults : ImageDefaults.

Definition create_text_image (self : ImageGenerator) (text : str)
    (font_size : option Z) (text_color background_color : option Color)
    (font_path : option str) (alignment : str) (auto_size : bool)
    (stroke_width : Z) (stroke_color : option Color) (auto_stroke : bool)
    (enable_html : bool) : Picture Font :=
  let text_color :=
    match text_color with
    | None => DEFAULT_TEXT_COLOR defaults
    | Some c => c
    end in
  let background_color :=
    match background_color with
    | None => DEFAULT_BACKGROUND_COLOR defaults
    | Some c => c
    end in
  let font_size :=
    if auto_size
       || match font_size with Some s => s =? -1 | None => false end
    then calculate_auto_font_size textbbox _get_font self text font_path
    else match font_size with
         | None => DEFAULT_FONT_SIZE defaults
         | Some s => s
         end in
  let font := _get_font font_path font_size in
  let '(final_stroke_width, final_stroke_color) :=
    _calculate_stroke_settings text_color background_color stroke_width
      stroke_color auto_stroke in
  mkPicture (width self, height self) (Some background_color) []
    (if enable_html then
       let segments := parse_html_formatting text in
       _draw_formatted_text textbbox _get_formatted_font self segments font
         (font_size_attr font) text_color alignment final_stroke_width
         final_stroke_color font_path
     else
       let wrapped_text := _wrap_text textbbox self text font in
       _draw_multiline_text textbbox self wrapped_text font text_color
         alignment final_stroke_width final_stroke_color).

Definition create_with_gradient (self : ImageGenerator) (text : str)
    (color1 color2 : Color) (text_color : option Color)
    (font_size : option Z) (font_path : option str) (direction : str)
    (auto_size : bool) (stroke_width : Z) (stroke_color : option Color)
    (auto_stroke : bool) (enable_html : bool) : Picture Font :=
  let text_color :=
    match text_color with
    | None => DEFAULT_TEXT_COLOR defaults
    | Some c => c
    end in
  let font_size :=
    if auto_size
       || match font_size with Some s => s =? -1 | None => false end
    then calculate_auto_font_size textbbox _get_font self text font_path
    else match font_size with
         | None => DEFAULT_FONT_SIZE defaults
         | Some s => s
         end in
  let rects := create_gradient_background self color1 color2 direction in
  let font := _get_font font_path font_size in
  let avg_bg :=
    let '(r1, g1, b1) := color1 in
    let '(r2, g2, b2) := color2 in
    ((r1 + r2) / 2, (g1 + g2) / 2, (b1 + b2) / 2) in
  let '(final_stroke_width, final_stroke_color) :=
    _calculate_stroke_settings text_color avg_bg stroke_width stroke_color
      auto_stroke in
  mkPicture (width self, height self) None rects
    (if enable_html then
       let segments := parse_html_formatting text in
       _draw_formatted_text textbbox _get_formatted_font self segments font
         (font_size_attr font) text_color (lit "center") final_stroke_width
         final_stroke_color font_path
     else
       let wrapped_text := _wrap_text textbbox self text font in
       _draw_multiline_text textbbox self wrapped_text font text_color
         (lit "center") final_stroke_width final_stroke_color).

End Compose.

(** ** The command line ([main.py]) *)

(** The keyword arguments of [create_and_upload_text].  A key read with
    [kwargs.get(key)] is [None] when it is absent or holds [None]; a key
    read with a default is [None] when absent and holds a value of its
    type otherwise; ['gradient_end'] is also tested for presence, so it is
    absent, or present with [None] or with a string. *)
Record TextKwargs := {
  kw_padding_top : option Z;
  kw_padding_bottom : option Z;
  kw_padding_left : option Z;
  kw_padding_right : option Z;
  kw_font_size : option Z;
  kw_auto_size : option bool;
  kw_color_scheme : option str;
  kw_font_color : option str;
  kw_text_align : option str;
  kw_save_local : option bool;
  kw_gradient : option bool;
  kw_gradient_end : option (option str);
  kw_text_stroke : option bool;
  kw_stroke_width : option Z;
  kw_stroke_color : option str;
  kw_no_auto_stroke : option bool;
  kw_enable_html : option bool
}.

(** [kwargs.get(key, default)]. *)
Definition get_default {A : Type} (v : option A) (default : A) : A :=
  match v with
  | Some a => a
  | None => default
  end.

(** The namespace [parser.parse_args()] returns. *)
Record Args := {
  arg_slot : Z;
  arg_text : option str;
  arg_file : option str;
  arg_font_size : str;
  arg_font_color : option str;
  arg_color_scheme : str;
  arg_text_align : str;
  arg_text_stroke : bool;
  arg_stroke_width : Z;
  arg_stroke_color : option str;
  arg_no_auto_stroke : bool;
  arg_html : bool;
  arg_text_align_legacy : option str;
  arg_padding_top : option Z;
  arg_padding_bottom : option Z;
  arg_padding_left : option Z;
  arg_padding_right : option Z;
  arg_padding : option Z;
  arg_gradient : bool;
  arg_gradient_end : option str;
  arg_save_local : bool;
  arg_base_url : str
}.

(** [x or y] for an [Optional[int]] [x] and an int [y]. *)
Definition or_int (x : option Z) (y : Z) : Z :=
  match x with
  | Some v => if v =? 0 then y else v
  | None => y
  end.

(** How a run ends. *)
Inductive Exit : Type :=
| Returned
| Raised (e : PyExc)
| ParserError.

Section Main.
Context {Font : Type} {F : Type} {fops : PyFloatOps F}.
Context {Img Bytes : Type}.
Variable textbbox : Z * Z -> str -> Font -> bbox.
Variable _get_font : option str -> Z -> Font.
Variable _get_formatted_font : option str -> Z -> bool -> bool -> Font.
Variable font_size_attr : Font -> option Z.
Variable cfg : ImageConfig.
Variable defaults : ImageDefaults.
Variable max_str_digits : Z.

(** [DisplayConfig] as it was when the modules were loaded: the default
    arguments [width], [height] and [base_url] of the two constructors
    hold the values of that moment. *)
Variable import_dc : DisplayConfig.

(** The PIL image of a picture. *)
Variable of_picture : Picture Font -> Img.

Variable path_exists : str -> bool.
Variable image_open : str -> Result Img.
Variable exif_transpose : Img -> Img.
Variable img_mode : Img -> str.
Variable convert_rgb : Img -> Img.
Variable img_size : Img -> Z * Z.
Variable img_crop : Img -> Z * Z * Z * Z -> Img.
Variable img_resize : Img -> Z * Z -> Img.
Variable save_jpeg : Img -> Z -> Bytes.
Variable post : list (Request Bytes) -> Request Bytes -> PostOutcome.

(** [utils.save_image_locally(image, slot=slot)]: the path written, or
    the exception of the file system. *)
Variable save_image_locally : Picture Font -> Z -> Result str.

(** [DisplayUploader()] while [DisplayConfig] is [dc]. *)
Definition new_uploader (dc : DisplayConfig) : DisplayUploader := {|
  base_url := BASE_URL import_dc;
  timeout := TIMEOUT dc;
  image_width := IMAGE_WIDTH dc;
  image_height := IMAGE_HEIGHT dc;
  jpeg_quality := JPEG_QUALITY dc
|}.

(** [create_and_upload_text] up to the image. *)
Definition text_image (text : str) (kw : TextKwargs)
    : Result (Picture Font) :=
  let generator :=
    new_ImageGenerator cfg (IMAGE_WIDTH import_dc) (IMAGE_HEIGHT import_dc)
      (kw_padding_top kw) (kw_padding_bottom kw) (kw_padding_left kw)
      (kw_padding_right kw) in
  let font_size := kw_font_size kw in
  let auto_size := get_default (kw_auto_size kw) false in
  let color_scheme := get_default (kw_color_scheme kw) (lit "default") in
  let font_color_str := kw_font_color kw in
  let text_align := get_default (kw_text_align kw) (lit "center") in
  let gradient := get_default (kw_gradient kw) false in
  let text_stroke := get_default (kw_text_stroke kw) false in
  let stroke_width := get_default (kw_stroke_width kw) 0 in
  let stroke_color_str := kw_stroke_color kw in
  let no_auto_stroke := get_default (kw_no_auto_stroke kw) false in
  let enable_html := get_default (kw_enable_html kw) false in
  let enable_html :=
    if negb enable_html then has_html_tags text else enable_html in
  let font_size :=
    if auto_size then Some (-1)
    else match font_size with
         | None => Some (DEFAULT_FONT_SIZE defaults)
         | Some s => Some s
         end in
  scheme <- get_color_scheme defaults color_scheme ;;
  text_color <-
    (if truthy font_color_str
     then parse_color defaults max_str_digits (get_default font_color_str [])
     else Ok (scheme_text scheme)) ;;
  let stroke_explicitly_requested :=
    text_stroke || (0 <? stroke_width) || truthy stroke_color_str in
  let stroke_width :=
    if text_stroke && (stroke_width =? 0) then 1 else stroke_width in
  stroke_color <-
    (if truthy stroke_color_str
     then c <- parse_color defaults max_str_digits
                 (get_default stroke_color_str []) ;;
          Ok (Some c)
     else Ok None) ;;
  let auto_stroke := stroke_explicitly_requested && negb no_auto_stroke in
  match (if gradient then kw_gradient_end kw else None) with
  | Some gradient_end_str =>
      gradient_end <-
        match gradient_end_str with
        | None => Raise AttributeError
        | Some s => parse_color defaults max_str_digits s
        end ;;
      Ok (create_with_gradient textbbox _get_font _get_formatted_font
            font_size_attr defaults generator text
            (scheme_background scheme) gradient_end (Some text_color)
            font_size None (lit "vertical") auto_size stroke_width
            stroke_color auto_stroke enable_html)
  | None =>
      Ok (create_text_image textbbox _get_font _get_formatted_font
            font_size_attr defaults generator text font_size
            (Some text_color) (Some (scheme_background scheme)) None
            text_align auto_size stroke_width stroke_color auto_stroke
            enable_html)
  end.

(** The effects of a run: the images saved locally, with their slot, and
    the requests made. *)
Definition Effects : Type :=
  (list (Picture Font * Z) * list (Request Bytes))%type.

(** [create_and_upload_text] while [DisplayConfig] is [dc]. *)
Definition create_and_upload_text (dc : DisplayConfig) (eff : Effects)
    (slot : Z) (text : str) (kw : TextKwargs)
    : Effects * Result UploadResult :=
  let '(saved, log) := eff in
  let uploader := new_uploader dc in
  match text_image text kw with
  | Raise e => (eff, Raise e)
  | Ok image =>
      let save_local := get_default (kw_save_local kw) false in
      match
        (if save_local
         then filepath <- save_image_locally image slot ;;
              Ok (saved ++ [(image, slot)])
         else Ok saved)
      with
      | Raise e => (eff, Raise e)
      | Ok saved =>
          let '(log, result) :=
            upload_image dc path_exists image_open exif_transpose img_mode
              convert_rgb img_size img_crop img_resize save_jpeg post
              uploader log slot (ImagePIL (of_picture image)) None in
          ((saved, log), result)
      end
  end.

(** [upload_file] while [DisplayConfig] is [dc]. *)
Definition upload_file (dc : DisplayConfig) (eff : Effects) (slot : Z)
    (file_path : str) : Effects * Result UploadResult :=
  let '(saved, log) := eff in
  let uploader := new_uploader dc in
  let '(log, result) :=
    upload_image dc path_exists image_open exif_transpose img_mode
      convert_rgb img_size img_crop img_resize save_jpeg post uploader log
      slot (ImagePath file_path) None in
  ((saved, log), result).

(** The keyword arguments [main] passes. *)
Definition main_kwargs (args : Args) : TextKwargs :=
  let padding_top := arg_padding_top args in
  let padding_bottom := arg_padding_bottom args in
  let padding_left := arg_padding_left args in
  let padding_right := arg_padding_right args in
  let '(padding_top, padding_bottom, padding_left, padding_right) :=
    match arg_padding args with
    | Some padding =>
        (Some (or_int padding_top padding),
         Some (or_int padding_bottom padding),
         Some (or_int padding_left padding),
         Some (or_int padding_right padding))
    | None => (padding_top, padding_bottom, padding_left, padding_right)
    end in
  let '(auto_size, font_size) :=
    if str_eqb (lower (arg_font_size args)) (lit "auto") then (true, None)
    else match py_int max_str_digits 10 (arg_font_size args) with
         | Some size => (false, Some size)
         | None => (true, None)
         end in
  let text_align :=
    if truthy (arg_text_align_legacy args)
    then get_default (arg_text_align_legacy args) []
    else arg_text_align args in
  {| kw_padding_top := padding_top;
     kw_padding_bottom := padding_bottom;
     kw_padding_left := padding_left;
     kw_padding_right := padding_right;
     kw_font_size := font_size;
     kw_auto_size := Some auto_size;
     kw_color_scheme := Some (arg_color_scheme args);
     kw_font_color := arg_font_color args;
     kw_text_align := Some text_align;
     kw_save_local := Some (arg_save_local args);
     kw_gradient := Some (arg_gradient args);
     kw_gradient_end := Some (arg_gradient_end args);
     kw_text_stroke := Some (arg_text_stroke args);
     kw_stroke_width := Some (arg_stroke_width args);
     kw_stroke_color := arg_stroke_color args;
     kw_no_auto_stroke := Some (arg_no_auto_stroke args);
     kw_enable_html := Some (arg_html args) |}.

(** [main] from [args = parser.parse_args()] on, for a command line made
    of options (the legacy forms are positional): [DisplayConfig]
    afterwards, the effects and how the run ends. *)
Definition main (args : Args) (eff : Effects)
    : DisplayConfig * Effects * Exit :=
  let dc :=
    match arg_base_url args with
    | _ :: _ =>
        {| BASE_URL := arg_base_url args;
           TIMEOUT := TIMEOUT import_dc;
           IMAGE_WIDTH := IMAGE_WIDTH import_dc;
           IMAGE_HEIGHT := IMAGE_HEIGHT import_dc;
           JPEG_QUALITY := JPEG_QUALITY import_dc;
           SLOTS := SLOTS import_dc |}
    | [] => import_dc
    end in
  if negb (truthy (arg_text args)) && negb (truthy (arg_file args))
  then (dc, eff, ParserError)
  else if truthy (arg_text args) && truthy (arg_file args)
  then (dc, eff, ParserError)
  else if truthy (arg_text args) then
    let '(eff, result) :=
      create_and_upload_text dc eff (arg_slot args)
        (get_default (arg_text args) []) (main_kwargs args) in
    (dc, eff,
     match result with
     | Ok _ => Returned
     | Raise e => Raised e
     end)
  else
    let '(eff, result) :=
      upload_file dc eff (arg_slot args) (get_default (arg_file args) []) in
    (dc, eff,
     match result with
     | Ok _ => Returned
     | Raise e => Raised e
     end).

End Main.


(** No call draws a stroke. *)
Definition stroke_free {Font : Type} (ops : list (DrawOp Font)) : Prop :=
  Forall (fun op => op_stroke_width op = 0) ops.

(** The keyword arguments with another ['stroke_color']. *)
Definition with_stroke_color (kw : TextKwargs) (stroke_color : option str)
    : TextKwargs :=
  {| kw_padding_top := kw_padding_top kw;
     kw_padding_bottom := kw_padding_bottom kw;
     kw_padding_left := kw_padding_left kw;
     kw_padding_right := kw_padding_right kw;
     kw_font_size := kw_font_size kw;
     kw_auto_size := kw_auto_size kw;
     kw_color_scheme := kw_color_scheme kw;
     kw_font_color := kw_font_color kw;
     kw_text_align := kw_text_align kw;
     kw_save_local := kw_save_local kw;
     kw_gradient := kw_gradient kw;
     kw_gradient_end := kw_gradient_end kw;
     kw_text_stroke := kw_text_stroke kw;
     kw_stroke_width := kw_stroke_width kw;
     kw_stroke_color := stroke_color;
     kw_no_auto_stroke := kw_no_auto_stroke kw;
     kw_enable_html := kw_enable_html kw |}.

(** ** Inputs for running the code *)

(** [create_and_upload_text(slot, text)] without keyword arguments. *)
Definition no_kwargs : TextKwargs :=
  {| kw_padding_top := None;
     kw_padding_bottom := None;
     kw_padding_left := None;
     kw_padding_right := None;
     kw_font_size := None;
     kw_auto_size := None;
     kw_color_scheme := None;
     kw_font_color := None;
     kw_text_align := None;
     kw_save_local := None;
     kw_gradient := None;
     kw_gradient_end := None;
     kw_text_stroke := None;
     kw_stroke_width := None;
     kw_stroke_color := None;
     kw_no_auto_stroke := None;
     kw_enable_html := None |}.

(** The keyword arguments with another ['font_color']. *)
Definition with_font_color (kw : TextKwargs) (font_color : option str)
    : TextKwargs :=
  {| kw_padding_top := kw_padding_top kw;
     kw_padding_bottom := kw_padding_bottom kw;
     kw_padding_left := kw_padding_left kw;
     kw_padding_right := kw_padding_right kw;
     kw_font_size := kw_font_size kw;
     kw_auto_size := kw_auto_size kw;
     kw_color_scheme := kw_color_scheme kw;
     kw_font_color := font_color;
     kw_text_align := kw_text_align kw;
     kw_save_local := kw_save_local kw;
     kw_gradient := kw_gradient kw;
     kw_gradient_end := kw_gradient_end kw;
     kw_text_stroke := kw_text_stroke kw;
     kw_stroke_width := kw_stroke_width kw;
     kw_stroke_color := kw_stroke_color kw;
     kw_no_auto_stroke := kw_no_auto_stroke kw;
     kw_enable_html := kw_enable_html kw |}.

(** The namespace of [--text <text>], every other option at the default
    the parser gives it under [config_example.py]. *)
Definition text_args (text : str) : Args :=
  {| arg_slot := 1;
     arg_text := Some text;
     arg_file := None;
     arg_font_size := lit "auto";
     arg_font_color := None;
     arg_color_scheme := lit "default";
     arg_text_align := lit "center";
     arg_text_stroke := false;
     arg_stroke_width := 0;
     arg_stroke_color := None;
     arg_no_auto_stroke := false;
     arg_html := false;
     arg_text_align_legacy := None;
     arg_padding_top := None;
     arg_padding_bottom := None;
     arg_padding_left := None;
     arg_padding_right := None;
     arg_padding := None;
     arg_gradient := false;
     arg_gradient_end := None;
     arg_save_local := false;
     arg_base_url := BASE_URL example_display_config |}.

(** The namespace with [--gradient] and the given [--gradient-end]. *)
Definition with_gradient (args : Args) (gradient_end : option str) : Args :=
  {| arg_slot := arg_slot args;
     arg_text := arg_text args;
     arg_file := arg_file args;
     arg_font_size := arg_font_size args;
     arg_font_color := arg_font_color args;
     arg_color_scheme := arg_color_scheme args;
     arg_text_align := arg_text_align args;
     arg_text_stroke := arg_text_stroke args;
     arg_stroke_width := arg_stroke_width args;
     arg_stroke_color := arg_stroke_color args;
     arg_no_auto_stroke := arg_no_auto_stroke args;
     arg_html := arg_html args;
     arg_text_align_legacy := arg_text_align_legacy args;
     arg_padding_top := arg_padding_top args;
     arg_padding_bottom := arg_padding_bottom args;
     arg_padding_left := arg_padding_left args;
     arg_padding_right := arg_padding_right args;
     arg_padding := arg_padding args;
     arg_gradient := true;
     arg_gradient_end := gradient_end;
     arg_save_local := arg_save_local args;
     arg_base_url := arg_base_url args |}.

(** The namespace with [--base-url <url>]. *)
Definition with_base_url (args : Args) (url : str) : Args :=
  {| arg_slot := arg_slot args;
     arg_text := arg_text args;
     arg_file := arg_file args;
     arg_font_size := arg_font_size args;
     arg_font_color := arg_font_color args;
     arg_color_scheme := arg_color_scheme args;
     arg_text_align := arg_text_align args;
     arg_text_stroke := arg_text_stroke args;
     arg_stroke_width := arg_stroke_width args;
     arg_stroke_color := arg_stroke_color args;
     arg_no_auto_stroke := arg_no_auto_stroke args;
     arg_html := arg_html args;
     arg_text_align_legacy := arg_text_align_legacy args;
     arg_padding_top := arg_padding_top args;
     arg_padding_bottom := arg_padding_bottom args;
     arg_padding_left := arg_padding_left args;
     arg_padding_right := arg_padding_right args;
     arg_padding := arg_padding args;
     arg_gradient := arg_gradient args;
     arg_gradient_end := arg_gradient_end args;
     arg_save_local := arg_save_local args;
     arg_base_url := url |}.

(** A device that accepts every upload. *)
Definition accepting_post (log : list (Request str)) (request : Request str)
    : PostOutcome :=
  Responded 200 (lit "OK").


(** The text outside the matches [ms], from position [last] on: what
    lies between one match and the next, and after the last one. *)
Fixpoint gaps (txt : str) (last : nat) (ms : list Match) : str :=
  match ms with
  | [] => slice last (length txt) txt
  | m :: ms' => slice last (m_start m) txt ++ gaps txt (m_end m) ms'
  end.
(* ================================================================= *)
(** * Properties *)

(** ** Splitting and joining *)

Lemma split_space_cons (c : ascii) (s : str) :
  isspace c = true -> split (c :: s) = split s.
Proof. intros H. simpl. now rewrite H. Qed.

Lemma split_last_char (c : ascii) :
  isspace c = false -> split [c] = [[c]].
Proof. intros H. simpl. now rewrite H. Qed.

Lemma split_char_then_space (c c' : ascii) (s : str) :
  isspace c = false -> isspace c' = true ->
  split (c :: c' :: s) = [c] :: split s.
Proof. intros H H'. simpl. now rewrite H, H'. Qed.

Lemma split_char_then_char (c c' : ascii) (s : str) :
  isspace c = false -> isspace c' = false ->
  split (c :: c' :: s) =
  match split (c' :: s) with
  | w :: ws => (c :: w) :: ws
  | [] => [[c]]
  end.
Proof.
  intros H H'. cbn [split]. rewrite H, H'. reflexivity.
Qed.

Lemma split_word_app (w s : str) :
  is_word w -> word_end s -> split (w ++ s) = w :: split s.
Proof.
  induction w as [|c w IH]; intros [Hne Hall] Hs; [congruence|].
  simpl in Hall. apply andb_true_iff in Hall as [Hc Hw].
  apply negb_true_iff in Hc.
  destruct w as [|c' w'].
  - destruct s as [|d s']; simpl app.
    + now apply split_last_char.
    + simpl in Hs. rewrite split_char_then_space by assumption.
      now rewrite split_space_cons.
  - assert (Hc' : isspace c' = false).
    { simpl in Hw. apply andb_true_iff in Hw as [Hw _].
      now apply negb_true_iff in Hw. }
    change ((c :: c' :: w') ++ s) with (c :: c' :: (w' ++ s)).
    rewrite split_char_then_char by assumption.
    change (c' :: (w' ++ s)) with ((c' :: w') ++ s).
    rewrite IH; [reflexivity| |assumption].
    split; [discriminate|assumption].
Qed.

Lemma split_words (s : str) : Forall is_word (split s).
Proof.
  induction s as [|c s IH]; [constructor|].
  destruct (isspace c) eqn:Hc.
  - now rewrite split_space_cons.
  - destruct s as [|c' s'].
    + rewrite split_last_char by assumption.
      repeat constructor; [discriminate|]. simpl. now rewrite Hc.
    + destruct (isspace c') eqn:Hc'.
      * rewrite split_char_then_space by assumption.
        rewrite split_space_cons in IH by assumption.
        constructor; [|assumption].
        split; [discriminate|]. simpl. now rewrite Hc.
      * rewrite split_char_then_char by assumption.
        destruct (split (c' :: s')) as [|w ws].
        -- repeat constructor; [discriminate|]. simpl. now rewrite Hc.
        -- inversion IH as [|? ? [Hne Hw] Hws]; subst.
           constructor; [|assumption].
           split; [discriminate|]. simpl. now rewrite Hc, Hw.
Qed.

(** [split] drops the whitespace and nothing else. *)
Lemma split_concat (s : str) :
  concat (split s) = filter (fun c => negb (isspace c)) s.
Proof.
  induction s as [|c s IH]; [reflexivity|].
  destruct (isspace c) eqn:Hc.
  - rewrite split_space_cons by assumption. simpl. now rewrite Hc.
  - cbn [filter]. rewrite Hc. cbn [negb].
    destruct s as [|c' s'].
    + now rewrite split_last_char.
    + destruct (isspace c') eqn:Hc'.
      * rewrite split_char_then_space by assumption.
        rewrite split_space_cons in IH by assumption.
        cbn [concat app]. rewrite IH. cbn [filter]. now rewrite Hc'.
      * rewrite split_char_then_char by assumption.
        destruct (split (c' :: s')) as [|w ws].
        -- simpl in IH. rewrite Hc' in IH. discriminate.
        -- cbn [concat app] in *. now rewrite IH.
Qed.

Lemma word_end_SP (s : str) : word_end (SP ++ s).
Proof. reflexivity. Qed.

Lemma split_join (ws : list str) :
  Forall is_word ws -> split (join SP ws) = ws.
Proof.
  induction ws as [|w ws IH]; intros H; [reflexivity|].
  inversion H as [|? ? Hw Hws]; subst.
  destruct ws as [|w' ws'].
  - simpl. rewrite <- (app_nil_r w) at 1.
    now rewrite split_word_app.
  - change (join SP (w :: w' :: ws')) with (w ++ SP ++ join SP (w' :: ws')).
    rewrite split_word_app by (assumption || apply word_end_SP).
    change (SP ++ join SP (w' :: ws')) with (" "%char :: join SP (w' :: ws')).
    rewrite split_space_cons by reflexivity.
    now rewrite IH.
Qed.

Lemma join_app (sep : str) (l1 l2 : list str) :
  l1 <> [] -> l2 <> [] ->
  join sep (l1 ++ l2) = join sep l1 ++ sep ++ join sep l2.
Proof.
  induction l1 as [|x l1 IH]; intros H1 H2; [congruence|].
  destruct l1 as [|y l1'].
  - destruct l2; [congruence|reflexivity].
  - change (join sep ((x :: y :: l1') ++ l2))
      with (x ++ sep ++ join sep ((y :: l1') ++ l2)).
    rewrite IH by (assumption || discriminate).
    change (join sep (x :: y :: l1')) with (x ++ sep ++ join sep (y :: l1')).
    now rewrite <- !app_assoc.
Qed.

(** Joining the joined groups is joining all their words. *)
Lemma join_groups (gs : list (list str)) :
  Forall (fun g => g <> []) gs ->
  join SP (map (join SP) gs) = join SP (concat gs).
Proof.
  induction gs as [|g gs IH]; intros H; [reflexivity|].
  inversion H as [|? ? Hg Hgs]; subst.
  destruct gs as [|g' gs'].
  - simpl. now rewrite app_nil_r.
  - change (join SP (map (join SP) (g :: g' :: gs')))
      with (join SP g ++ SP ++ join SP (map (join SP) (g' :: gs'))).
    rewrite IH by assumption.
    change (concat (g :: g' :: gs')) with (g ++ concat (g' :: gs')).
    rewrite join_app; [reflexivity|assumption|].
    inversion Hgs; subst. simpl. destruct g'; [congruence|discriminate].
Qed.

(** ** The wrapping loop *)

Section WrapFacts.
Context {Font : Type}.
Variable textbbox : Z * Z -> str -> Font -> bbox.
Variable font : Font.
Variable max_width : Z.


Lemma ok_mono (done : list str) (w l : str) :
  line_ok textbbox font max_width done l -> line_ok textbbox font max_width (done ++ [w]) l.
Proof.
  unfold line_ok. intros [H|[H1 H2]]; [now left|right].
  split; [apply in_or_app; now left|assumption].
Qed.

Lemma wrap_inv_start : wrap_inv textbbox font max_width [] [] ([], []).
Proof.
  split; simpl; auto.
Qed.

Lemma wrap_inv_step (done : list str) (st : list str * list str) (w : str) :
  (exists gs, wrap_inv textbbox font max_width gs done st) -> exists gs, wrap_inv textbbox font max_width gs (done ++ [w]) ((wrap_step textbbox font max_width) st w).
Proof.
  intros [gs [Hne Hcat Hlines Hwid Hopen]].
  destruct st as [lines cur]; simpl in *.
  unfold wrap_step.
  destruct (_ <=? max_width) eqn:Hfit.
  - apply Z.leb_le in Hfit.
    exists gs; split; simpl; auto.
    + now rewrite app_assoc, Hcat.
    + eapply Forall_impl; [|exact Hwid]. intros l. apply ok_mono.
  - apply Z.leb_gt in Hfit.
    destruct cur as [|c cs].
    + exists (gs ++ [[w]]); split; simpl; auto.
      * apply Forall_app; split; [assumption|]. constructor; [discriminate|constructor].
      * rewrite concat_app; simpl. rewrite !app_nil_r in *. now subst.
      * rewrite map_app, Hlines. reflexivity.
      * apply Forall_app; split.
        -- eapply Forall_impl; [|exact Hwid]. intros l. apply ok_mono.
        -- constructor; [|constructor]. right. split; [|exact Hfit].
           apply in_or_app; right; now left.
    + exists (gs ++ [c :: cs]); split; simpl.
      * apply Forall_app; split; [assumption|]. constructor; [discriminate|constructor].
      * rewrite concat_app; simpl. rewrite app_nil_r. now rewrite Hcat.
      * rewrite map_app, Hlines. reflexivity.
      * apply Forall_app; split.
        -- eapply Forall_impl; [|exact Hwid]. intros l. apply ok_mono.
        -- constructor; [|constructor].
           destruct Hopen as [H|[H|[w0 H]]]; [discriminate| |].
           ++ left. exact H.
           ++ injection H as -> ->. simpl.
              destruct (Z_le_gt_dec (measure textbbox font w0) max_width);
                [left; assumption|right].
              split; [|lia].
              apply in_or_app; left. rewrite <- Hcat.
              apply in_or_app; right; now left.
      * right; right. now exists w.
Qed.

Lemma wrap_inv_fold (ws done : list str) (st : list str * list str) :
  (exists gs, wrap_inv textbbox font max_width gs done st) ->
  exists gs, wrap_inv textbbox font max_width gs (done ++ ws) (fold_left (wrap_step textbbox font max_width) ws st).
Proof.
  revert done st. induction ws as [|w ws IH]; intros done st H; simpl.
  - now rewrite app_nil_r.
  - replace (done ++ w :: ws) with ((done ++ [w]) ++ ws)
      by now rewrite <- app_assoc.
    apply IH. now apply wrap_inv_step.
Qed.

(** The lines handed back before the [[text]] fallback is considered. *)
Lemma wrap_lines_spec (words : list str) :
  let '(lines, cur) := fold_left (wrap_step textbbox font max_width) words ([], []) in
  let lines' := match cur with _ :: _ => lines ++ [join SP cur] | [] => lines end in
  grouped words lines' /\ Forall (line_ok textbbox font max_width words) lines'.
Proof.
  pose proof (wrap_inv_fold words [] ([], [])
                (ex_intro _ [] wrap_inv_start)) as H.
  simpl in H. destruct (fold_left (wrap_step textbbox font max_width) words ([], [])) as [lines cur].
  destruct H as [gs [Hne Hcat Hlines Hwid Hopen]]; simpl in *.
  destruct cur as [|c cs].
  - rewrite app_nil_r in Hcat. split; [|assumption].
    exists gs. auto.
  - split.
    + exists (gs ++ [c :: cs]). repeat split.
      * apply Forall_app; split; [assumption|]. constructor; [discriminate|constructor].
      * rewrite concat_app; simpl. now rewrite app_nil_r.
      * rewrite map_app, Hlines. reflexivity.
    + apply Forall_app; split; [assumption|]. constructor; [|constructor].
      destruct Hopen as [H|[H|[w0 H]]]; [discriminate| |].
      * left. exact H.
      * injection H as -> ->. simpl.
        destruct (Z_le_gt_dec (measure textbbox font w0) max_width);
          [left; assumption|right].
        split; [|lia]. rewrite <- Hcat. apply in_or_app; right; now left.
Qed.

Lemma grouped_nil_inv (lines : list str) : grouped [] lines -> lines = [].
Proof.
  intros (gs & Hne & Hcat & ->).
  destruct gs as [|g gs]; [reflexivity|].
  inversion Hne; subst. simpl in Hcat.
  apply app_eq_nil in Hcat as [-> _]. congruence.
Qed.

Lemma grouped_nonempty (words lines : list str) :
  words <> [] -> grouped words lines -> lines <> [].
Proof.
  intros Hw (gs & Hne & Hcat & ->).
  destruct gs; simpl in *; [congruence|discriminate].
Qed.

(** With at least one word, [_wrap_text_for_size] returns the grouped
    lines; with none, the text itself. *)
Lemma wrap_for_size_words (text : str) :
  split text <> [] ->
  grouped (split text) (_wrap_text_for_size textbbox text font max_width)
  /\ Forall (line_ok textbbox font max_width (split text)) (_wrap_text_for_size textbbox text font max_width).
Proof.
  intros Hw. unfold _wrap_text_for_size.
  pose proof (wrap_lines_spec (split text)) as H.
  destruct (fold_left (wrap_step textbbox font max_width) (split text) ([], [])) as [lines cur].
  cbv zeta in H. destruct H as [Hg Hok].
  pose proof (grouped_nonempty _ _ Hw Hg) as Hne.
  destruct (match cur with [] => lines | _ :: _ => lines ++ [join SP cur] end)
    as [|l ls]; [congruence|]. now split.
Qed.

Lemma wrap_for_size_no_words (text : str) :
  split text = [] ->
  _wrap_text_for_size textbbox text font max_width = [text].
Proof.
  intros Hw. unfold _wrap_text_for_size. now rewrite Hw.
Qed.

(** When a line is never measured narrower than one of its words, a
    word wider than the budget shares its line with no other word. *)
Lemma overlong_word_alone (text : str) :
  (forall (ws : list str) (w : str),
      In w ws ->
      measure textbbox font w <= measure textbbox font (join SP ws)) ->
  split text <> [] ->
  forall l w : str,
    In l (_wrap_text_for_size textbbox text font max_width) ->
    In w (split l) -> max_width < measure textbbox font w -> l = w.
Proof.
  intros Hmono Hne l w Hl Hw Hwide.
  destruct (wrap_for_size_words text Hne) as [(gs & Hgne & Hcat & Hlines) Hok].
  pose proof (split_words text) as Hwords. rewrite <- Hcat in Hwords.
  rewrite Forall_forall in Hok. specialize (Hok l Hl).
  rewrite Hlines in Hl. apply in_map_iff in Hl as (g & <- & Hg).
  assert (Hgw : Forall is_word g).
  { rewrite Forall_forall in Hwords |- *. intros v Hv.
    apply Hwords. apply in_concat. now exists g. }
  rewrite split_join in Hw by assumption.
  destruct Hok as [Hfit|[Hin Hover]].
  - specialize (Hmono g w Hw). lia.
  - assert (His : is_word (join SP g)).
    { pose proof (split_words text) as Hall.
      rewrite Forall_forall in Hall. now apply Hall. }
    assert (Hs : split (join SP g) = [join SP g]).
    { rewrite <- (app_nil_r (join SP g)) at 1.
      now rewrite split_word_app by (auto; exact I). }
    rewrite split_join in Hs by assumption.
    rewrite Hs in Hw. destruct Hw as [Hw|[]]. exact Hw.
Qed.

Lemma wrap_text_for_size_eq (self : ImageGenerator) (text : str) :
  _wrap_text textbbox self text font
  = _wrap_text_for_size textbbox text font
      (width self - (padding_left self + padding_right self)).
Proof. reflexivity. Qed.

Lemma grouped_split_join (words lines : list str) :
  Forall is_word words -> grouped words lines ->
  split (join SP lines) = words.
Proof.
  intros Hw (gs & Hne & Hcat & ->).
  rewrite join_groups by assumption.
  rewrite Hcat. now apply split_join.
Qed.

(** The lines depend on the text through its words only, once there is
    a word. *)
Lemma wrap_for_size_ext (t1 t2 : str) :
  split t1 = split t2 -> split t2 <> [] ->
  _wrap_text_for_size textbbox t1 font max_width
  = _wrap_text_for_size textbbox t2 font max_width.
Proof.
  intros E Hw. unfold _wrap_text_for_size. rewrite E.
  pose proof (wrap_lines_spec (split t2)) as H.
  destruct (fold_left _ (split t2) ([], [])) as [lines cur].
  cbv zeta in H. destruct H as [Hg _].
  pose proof (grouped_nonempty _ _ Hw Hg) as Hne.
  destruct (match cur with [] => lines | _ :: _ => lines ++ [join SP cur] end);
    [congruence|reflexivity].
Qed.

Lemma wrap_for_size_split_join (text : str) :
  split (join SP (_wrap_text_for_size textbbox text font max_width))
  = split text.
Proof.
  destruct (split text) as [|w ws] eqn:E.
  - rewrite wrap_for_size_no_words by assumption. simpl. exact E.
  - rewrite <- E. apply grouped_split_join; [apply split_words|].
    apply wrap_for_size_words. rewrite E. discriminate.
Qed.

Lemma wrap_for_size_idem (text : str) :
  _wrap_text_for_size textbbox
    (join SP (_wrap_text_for_size textbbox text font max_width)) font max_width
  = _wrap_text_for_size textbbox text font max_width.
Proof.
  destruct (split text) as [|w ws] eqn:E.
  - rewrite (wrap_for_size_no_words text E). simpl join.
    now apply wrap_for_size_no_words.
  - apply wrap_for_size_ext; [apply wrap_for_size_split_join|].
    rewrite E. discriminate.
Qed.

End WrapFacts.

(** ** Claims on plain-text wrapping *)

(** C10. Plain-text wrapping keeps the word sequence: for both wrappers,
    splitting the space-joined lines gives back exactly the words of the
    input; with at least one word the lines are the words cut into
    consecutive non-empty groups (nothing lost, duplicated, split or
    reordered), and with no word the result is the single line [text]. *)
Theorem wrap_preserves_words :
  forall (Font : Type) (textbbox : Z * Z -> str -> Font -> bbox)
         (self : ImageGenerator) (text : str) (font : Font) (max_width : Z),
    let lines := _wrap_text textbbox self text font in
    let sized := _wrap_text_for_size textbbox text font max_width in
    split (join SP lines) = split text
    /\ split (join SP sized) = split text
    /\ match split text with
       | [] => lines = [text] /\ sized = [text]
       | _ :: _ => grouped (split text) lines /\ grouped (split text) sized
       end.
Proof.
  intros Font textbbox self text font max_width lines sized.
  subst lines sized. rewrite wrap_text_for_size_eq.
  split; [apply wrap_for_size_split_join|].
  split; [apply wrap_for_size_split_join|].
  destruct (split text) as [|w ws] eqn:E.
  - now rewrite !wrap_for_size_no_words.
  - rewrite <- E.
    split; apply wrap_for_size_words; rewrite E; discriminate.
Qed.

(** C7. Plain-text wrapping is idempotent: joining the lines of
    [_wrap_text] with single spaces and wrapping again, with the same
    measurer, font and generator, gives the same lines. *)
Theorem wrap_idempotent :
  forall (Font : Type) (textbbox : Z * Z -> str -> Font -> bbox)
         (self : ImageGenerator) (text : str) (font : Font),
    _wrap_text textbbox self
      (join SP (_wrap_text textbbox self text font)) font
    = _wrap_text textbbox self text font.
Proof.
  intros. rewrite !wrap_text_for_size_eq. apply wrap_for_size_idem.
Qed.

(** C2, as stated, fails on a text without words: eleven spaces at size 24
    on the 240 pixel canvas come back as one line of 264 pixels that is not
    a word. *)
Lemma wrap_blank_line_overflows :
  ~ wrapped_within_budget fixed_bbox example_generator
      (lit "           ") 24.
Proof.
  intros H.
  destruct (H (lit "           ")) as [Hle|[Hw _]].
  - now left.
  - vm_compute in Hle. apply Hle. reflexivity.
  - discriminate Hw.
Qed.

(** C2, amended. For a text with at least one word, every line of
    [_wrap_text] measures at most the maximum width, or is exactly one
    word of the input, unbroken, whose own width exceeds the maximum; and
    when the measurer never finds a line narrower than one of its words,
    a word wider than the maximum stands on its line alone.  A text
    without a word comes back as the single line [text].  The function is
    total, so wrapping always returns. *)
Theorem wrap_lines_fit :
  forall (Font : Type) (textbbox : Z * Z -> str -> Font -> bbox)
         (self : ImageGenerator) (text : str) (font : Font),
    let max_width := width self - (padding_left self + padding_right self) in
    let lines := _wrap_text textbbox self text font in
    match split text with
    | [] => lines = [text]
    | _ :: _ =>
        Forall (fun l =>
                  measure textbbox font l <= max_width
                  \/ (In l (split text) /\ split l = [l]
                      /\ max_width < measure textbbox font l))
               lines
        /\ ((forall (ws : list str) (w : str),
                In w ws ->
                measure textbbox font w
                <= measure textbbox font (join SP ws)) ->
            forall l w : str,
              In l lines -> In w (split l) ->
              max_width < measure textbbox font w -> l = w)
    end.
Proof.
  intros Font textbbox self text font max_width lines. subst lines.
  rewrite wrap_text_for_size_eq. fold max_width.
  destruct (split text) as [|w0 ws0] eqn:E.
  - now apply wrap_for_size_no_words.
  - assert (Hw : split text <> []) by (rewrite E; discriminate).
    rewrite <- E. split.
    + destruct (wrap_for_size_words textbbox font max_width text Hw)
        as [_ Hok].
      eapply Forall_impl; [|exact Hok].
      intros l [Hl|[Hin Hl]]; [now left|right].
      repeat split; try assumption.
      pose proof (split_words text) as Hwords.
      rewrite Forall_forall in Hwords.
      rewrite <- (app_nil_r l) at 1.
      now rewrite split_word_app by (auto; exact I).
    + intros Hmono. now apply overlong_word_alone.
Qed.

Example split_demo :
  split (map ascii_of_nat
           [32; 97; 9; 10; 98; 99; 160; 13; 100; 32; 32]%nat)
  = [lit "a"; lit "bc"; lit "d"]
  /\ split (lit "   ") = []
  /\ join SP [lit "a"; lit "bc"; lit "d"] = lit "a bc d".
Proof. repeat split. Qed.

(** A run with an overlong word: at fixed pitch 30 on the 240 pixel
    canvas ["ccccccccc"] measures 270 and keeps a line to itself. *)
Example wrap_demo :
  _wrap_text fixed_bbox example_generator (lit "aa bb  ccccccccc d e") 30
  = [lit "aa bb"; lit "ccccccccc"; lit "d e"].
Proof. vm_compute. reflexivity. Qed.

(** ** Automatic font size *)

Section AutoSizeFacts.
Context {Font : Type}.
Variable textbbox : Z * Z -> str -> Font -> bbox.
Variable _get_font : option str -> Z -> Font.
Variable self : ImageGenerator.
Variable text : str.
Variable font_path : option str.

Lemma wrap_for_size_nonempty (font : Font) (max_width : Z) :
  _wrap_text_for_size textbbox text font max_width <> [].
Proof.
  unfold _wrap_text_for_size.
  destruct (fold_left _ (split text) ([], [])) as [lines cur].
  destruct (match cur with [] => lines | _ :: _ => lines ++ [join SP cur] end);
    discriminate.
Qed.

Lemma measure_lines_from (font : Font) (ls : list str) (h0 w0 : Z) :
  0 <= w0 ->
  fold_left
    (fun (acc : Z * Z) (line : str) =>
       let '(total_height, actual_max_width) := acc in
       let b := textbbox (0, 0) line font in
       let line_height := bbox3 b - bbox1 b in
       let line_width := bbox2 b - bbox0 b in
       (total_height + line_height, Z.max actual_max_width line_width))
    ls (h0, w0)
  = (h0 + fold_right Z.add 0
            (map (fun l => bbox3 (textbbox (0, 0) l font)
                           - bbox1 (textbbox (0, 0) l font)) ls),
     Z.max w0 (fold_right Z.max 0 (map (measure textbbox font) ls))).
Proof.
  revert h0 w0. induction ls as [|l ls IH]; intros h0 w0 Hw; simpl.
  - f_equal; lia.
  - rewrite IH by lia. unfold measure. f_equal; lia.
Qed.

Lemma fold_max_nonneg (ws : list Z) : 0 <= fold_right Z.max 0 ws.
Proof. induction ws; simpl; lia. Qed.

(** The test of the loop decides the fit as the specification words it. *)
Lemma size_fits_iff (size : Z) :
  size_fits textbbox _get_font self text font_path size = true
  <-> fits_budget textbbox _get_font self text font_path size.
Proof.
  unfold size_fits, fits_budget, measure_lines.
  rewrite measure_lines_from by lia.
  set (lines := _wrap_text_for_size _ _ _ _).
  assert (Hlen : 1 <= Z.of_nat (length lines)).
  { pose proof (wrap_for_size_nonempty (_get_font font_path size)
                  (width self - 2 * AUTO_SIZE_PADDING (config self))) as H.
    fold lines in H. destruct lines; [congruence|simpl length; lia]. }
  cbv zeta.
  pose proof (fold_max_nonneg
                (map (measure textbbox (_get_font font_path size)) lines)) as Hmax.
  rewrite andb_true_iff, !Z.leb_le, Z.max_r by exact Hmax.
  destruct (1 <? Z.of_nat (length lines)) eqn:E.
  - tauto.
  - apply Z.ltb_ge in E. replace (Z.of_nat (length lines) - 1) with 0 by lia.
    rewrite Z.mul_0_l, Z.add_0_r. tauto.
Qed.

(** The search, for any starting range and best size so far. *)
Lemma auto_size_loop_spec (n : nat) :
  forall lo hi best : Z,
    let fits := size_fits textbbox _get_font self text font_path in
    let probes := auto_size_probes textbbox _get_font self text font_path n lo hi in
    let r := auto_size_loop textbbox _get_font self text font_path n lo hi best in
    Forall (fun s => lo <= s <= hi) probes
    /\ match filter fits probes with
       | [] => r = best
       | _ :: _ =>
           In r (filter fits probes)
           /\ Forall (fun s => s <= r) (filter fits probes)
       end.
Proof.
  induction n as [|n IH]; intros lo hi best; cbn zeta.
  - simpl. split; [constructor|reflexivity].
  - simpl. destruct (hi <? lo) eqn:Hr.
    + simpl. split; [constructor|reflexivity].
    + apply Z.ltb_ge in Hr.
      set (mid := (lo + hi) / 2).
      assert (Hmid : lo <= mid <= hi).
      { unfold mid. split.
        - apply Z.div_le_lower_bound; lia.
        - apply Z.div_le_upper_bound; lia. }
      destruct (size_fits textbbox _get_font self text font_path mid) eqn:Hf.
      * specialize (IH (mid + 1) hi mid). cbn zeta in IH.
        destruct IH as [Hrange IH]. split.
        -- constructor; [exact Hmid|].
           eapply Forall_impl; [|exact Hrange]. simpl. intros; lia.
        -- simpl. rewrite Hf.
           set (r := auto_size_loop _ _ _ _ _ _ _ _ _) in *.
           set (ps := auto_size_probes _ _ _ _ _ _ _ _) in *.
           destruct (filter _ ps) as [|s ss] eqn:Efil.
           ++ rewrite IH. split; [now left|]. constructor; [lia|constructor].
           ++ destruct IH as [Hin Hmax]. split; [now right|].
              constructor; [|exact Hmax].
              assert (Hps : In r ps).
              { apply (filter_In (size_fits textbbox _get_font self text font_path)).
                rewrite Efil. exact Hin. }
              rewrite Forall_forall in Hrange.
              specialize (Hrange r Hps). simpl in Hrange. lia.
      * specialize (IH lo (mid - 1) best). cbn zeta in IH.
        destruct IH as [Hrange IH]. split.
        -- constructor; [exact Hmid|].
           eapply Forall_impl; [|exact Hrange]. simpl. intros; lia.
        -- simpl. rewrite Hf. exact IH.
Qed.

End AutoSizeFacts.

(** C1. [calculate_auto_font_size] returns the largest of the sizes its
    binary search tested, all within
    [[MIN_AUTO_FONT_SIZE, MAX_AUTO_FONT_SIZE]], at which the wrapped text
    fits the width budget [width - 2*AUTO_SIZE_PADDING] and the height
    budget [height - AUTO_SIZE_PADDING - AUTO_SIZE_PADDING_BOTTOM] (summed
    line heights plus [(line_count-1)*LINE_SPACING]); when no tested size
    fits, it returns [MIN_AUTO_FONT_SIZE]. *)
Theorem auto_size_largest_tested_fit :
  forall (Font : Type) (textbbox : Z * Z -> str -> Font -> bbox)
         (_get_font : option str -> Z -> Font)
         (self : ImageGenerator) (text : str) (font_path : option str),
    let fits := size_fits textbbox _get_font self text font_path in
    let tested := tested_sizes textbbox _get_font self text font_path in
    let r := calculate_auto_font_size textbbox _get_font self text font_path in
    (forall s : Z,
        fits s = true <-> fits_budget textbbox _get_font self text font_path s)
    /\ Forall (fun s => MIN_AUTO_FONT_SIZE (config self) <= s
                        <= MAX_AUTO_FONT_SIZE (config self)) tested
    /\ match filter fits tested with
       | [] => r = MIN_AUTO_FONT_SIZE (config self)
       | _ :: _ =>
           In r (filter fits tested)
           /\ Forall (fun s => s <= r) (filter fits tested)
       end.
Proof.
  intros Font textbbox _get_font self text font_path fits tested r.
  split; [intros s; apply size_fits_iff|].
  apply (auto_size_loop_spec textbbox _get_font self text font_path 10).
Qed.

(** A run of the search: "hello world" at fixed pitch on the 240x240
    display with the shipped configuration. *)
Example auto_size_demo :
  tested_sizes fixed_bbox (fun _ size => size) example_generator
    (lit "hello world") None = [105; 57; 33; 45; 39; 42; 43; 44]
  /\ calculate_auto_font_size fixed_bbox (fun _ size => size)
       example_generator (lit "hello world") None = 44.
Proof. vm_compute. split; reflexivity. Qed.

(** ** Markup *)

(** C3. Parsing ["<b>x</b> y"] gives exactly two segments, in order: the
    bold ["x"], flushed at the closing tag with the formatting active
    before the tag is popped, and the unformatted [" y"]. *)
Theorem parse_bold_then_plain :
  parse_html_formatting (lit "<b>x</b> y")
  = [ mkTextSegment (lit "x") true false false;
      mkTextSegment (lit " y") false false false ].
Proof. vm_compute. reflexivity. Qed.

Example parse_demo :
  parse_html_formatting (lit "a <B>b <i >c</b> d</I> e </u><u/>f")
  = [ mkTextSegment (lit "a ") false false false;
      mkTextSegment (lit "b ") true false false;
      mkTextSegment (lit "c") true true false;
      mkTextSegment (lit " d") false true false;
      mkTextSegment (lit " e ") false false false;
      mkTextSegment (lit "f") false false true ].
Proof. vm_compute. reflexivity. Qed.

(** C4, at the failing input: [has_html_tags] accepts ["<br>"], which
    holds no opening tag of the three kinds (the parser finds none and
    returns the text as one unformatted segment); and it rejects an
    opening tag whose whitespace is a newline, which the parser reads. *)
Theorem has_html_tags_accepts_br :
  has_html_tags (lit "<br>") = true
  /\ has_opening_tag (lit "<br>") = false
  /\ parse_html_formatting (lit "<br>") = [plain_segment (lit "<br>")]
  /\ has_html_tags ["<"; "b"; "010"; ">"; "x"]%char = false
  /\ parse_html_formatting ["<"; "b"; "010"; ">"; "x"]%char
     = [mkTextSegment (lit "x") true false false].
Proof. vm_compute. repeat split; reflexivity. Qed.

(** ** Formatted text *)

Section FormattedFacts.
Context {Font : Type}.
Variable textbbox : Z * Z -> str -> Font -> bbox.
Variable _get_formatted_font : option str -> Z -> bool -> bool -> Font.

Lemma spaced_line_snoc (g : list TextSegment) (v : TextSegment) :
  g <> [] -> spaced_line (g ++ [v]) = spaced_line g ++ [space_before v; v].
Proof.
  destruct g as [|u rest]; intros H; [congruence|].
  simpl. now rewrite flat_map_app.
Qed.

Lemma spaced_line_nil_iff (g : list TextSegment) :
  spaced_line g = [] <-> g = [].
Proof. destruct g; simpl; split; (reflexivity || discriminate). Qed.

Lemma fwrap_word_inv (max_width : Z) (segment : TextSegment) (font : Font)
    (done : list TextSegment) (st : FWrapState) (word : str) :
  (exists gs g, fwrap_inv gs g done st) ->
  exists gs g,
    fwrap_inv gs g
      (done ++ [mkTextSegment word (bold segment) (italic segment)
                  (underline segment)])
      (fwrap_word textbbox max_width segment font st word).
Proof.
  intros (gs & g & [Hne Hlines Hopen Hcat]).
  destruct st as [[lines cur] w]; simpl in *. subst lines cur done.
  set (unit := mkTextSegment word _ _ _).
  unfold fwrap_word. fold unit.
  destruct g as [|u rest].
  - exists gs, [unit]. split; simpl; auto.
    now rewrite app_nil_r.
  - change (spaced_line (u :: rest))
      with (u :: flat_map (fun v => [space_before v; v]) rest).
    cbv iota beta.
    destruct (true && _).
    + exists (gs ++ [u :: rest]), [unit]. split; simpl.
      * apply Forall_app; split; [assumption|].
        constructor; [discriminate|constructor].
      * now rewrite map_app.
      * reflexivity.
      * rewrite concat_app; simpl. now rewrite app_nil_r.
    + exists gs, ((u :: rest) ++ [unit]). split; simpl.
      * assumption.
      * reflexivity.
      * rewrite flat_map_app. simpl. rewrite <- app_assoc. reflexivity.
      * rewrite <- app_assoc. reflexivity.
Qed.

Lemma fwrap_words_inv (max_width : Z) (segment : TextSegment) (font : Font)
    (words : list str) :
  forall (done : list TextSegment) (st : FWrapState),
    (exists gs g, fwrap_inv gs g done st) ->
    exists gs g,
      fwrap_inv gs g
        (done ++ map (fun w => mkTextSegment w (bold segment) (italic segment)
                                 (underline segment)) words)
        (fold_left (fwrap_word textbbox max_width segment font) words st).
Proof.
  induction words as [|w ws IH]; intros done st H; simpl.
  - now rewrite app_nil_r.
  - replace (done ++ mkTextSegment w (bold segment) (italic segment)
                       (underline segment) :: map _ ws)
      with ((done ++ [mkTextSegment w (bold segment) (italic segment)
                        (underline segment)]) ++ map
              (fun w => mkTextSegment w (bold segment) (italic segment)
                          (underline segment)) ws)
      by now rewrite <- app_assoc.
    apply IH. now apply fwrap_word_inv.
Qed.

Lemma fwrap_segments_inv (max_width : Z) (font_path : option str)
    (font_size : Z) (segs : list TextSegment) :
  forall (done : list TextSegment) (st : FWrapState),
    (exists gs g, fwrap_inv gs g done st) ->
    exists gs g,
      fwrap_inv gs g (done ++ word_units segs)
        (fold_left
           (fwrap_segment textbbox _get_formatted_font max_width font_path
              font_size) segs st).
Proof.
  induction segs as [|s segs IH]; intros done st H; simpl.
  - now rewrite app_nil_r.
  - unfold word_units in *. simpl. rewrite app_assoc.
    apply IH. unfold fwrap_segment. now apply fwrap_words_inv.
Qed.

Lemma wrap_formatted_spec (self : ImageGenerator)
    (segs : list TextSegment) (base_font : Font) (font_path : option str)
    (font_size : Z) :
  match word_units segs with
  | [] =>
      _wrap_formatted_text textbbox _get_formatted_font self segs base_font
        font_path font_size = [[plain_segment []]]
  | _ :: _ =>
      exists gs : list (list TextSegment),
        Forall (fun g => g <> []) gs
        /\ concat gs = word_units segs
        /\ _wrap_formatted_text textbbox _get_formatted_font self segs
             base_font font_path font_size = map spaced_line gs
  end.
Proof.
  unfold _wrap_formatted_text.
  destruct (fwrap_segments_inv
              (width self - (padding_left self + padding_right self))
              font_path font_size segs [] ([], [], 0))
    as (gs & g & [Hne Hlines Hopen Hcat]).
  { exists [], []. split; simpl; auto. }
  destruct (fold_left (fwrap_segment _ _ _ _ _) segs ([], [], 0))
    as [[lines cur] w].
  simpl in *. subst lines cur.
  destruct g as [|u rest].
  - simpl. rewrite app_nil_r in Hcat. rewrite <- Hcat.
    destruct gs as [|g0 gs']; [reflexivity|].
    inversion Hne; subst.
    destruct g0 as [|u0 r0]; [congruence|].
    simpl. exists ((u0 :: r0) :: gs'). auto.
  - change (spaced_line (u :: rest))
      with (u :: flat_map (fun v => [space_before v; v]) rest).
    cbv iota beta.
    assert (Hgs : exists gs',
               Forall (fun g => g <> []) gs'
               /\ concat gs' = word_units segs
               /\ map spaced_line gs
                  ++ [u :: flat_map (fun v => [space_before v; v]) rest]
                  = map spaced_line gs').
    { exists (gs ++ [u :: rest]). repeat split.
      - apply Forall_app; split; [assumption|].
        constructor; [discriminate|constructor].
      - rewrite concat_app; simpl. now rewrite app_nil_r.
      - now rewrite map_app. }
    destruct Hgs as (gs' & Hne' & Hcat' & E). rewrite E.
    destruct (word_units segs) as [|v vs] eqn:Ev.
    + destruct gs as [|g0 gs0]; simpl in Hcat; [discriminate|].
      inversion Hne; subst. destruct g0; [congruence|discriminate].
    + destruct gs' as [|g0 gs0]; [discriminate|].
      simpl. exists (g0 :: gs0). auto.
Qed.

Lemma formatted_start_x_justify (self : ImageGenerator) (total_width : Z) :
  formatted_start_x self (lit "justify") total_width
  = (width self - total_width) / 2.
Proof. reflexivity. Qed.

Lemma formatted_start_x_center (self : ImageGenerator) (total_width : Z) :
  formatted_start_x self (lit "center") total_width
  = (width self - total_width) / 2.
Proof. reflexivity. Qed.

Lemma draw_line_segments_justify (self : ImageGenerator)
    (line_segments : list TextSegment) (y : Z) (text_color : Color)
    (stroke_width : Z) (stroke_color : option Color)
    (font_path : option str) (font_size : Z) :
  _draw_formatted_line_segments textbbox _get_formatted_font self
    line_segments y text_color (lit "justify") stroke_width stroke_color
    font_path font_size
  = _draw_formatted_line_segments textbbox _get_formatted_font self
      line_segments y text_color (lit "center") stroke_width stroke_color
      font_path font_size.
Proof.
  unfold _draw_formatted_line_segments.
  now rewrite formatted_start_x_justify, formatted_start_x_center.
Qed.

Lemma draw_formatted_lines_justify (self : ImageGenerator)
    (formatted_lines : list (list TextSegment)) (text_color : Color)
    (stroke_width : Z) (stroke_color : option Color)
    (font_path : option str) (font_size spacing : Z) :
  forall y : Z,
    draw_formatted_lines textbbox _get_formatted_font self formatted_lines y
      text_color (lit "justify") stroke_width stroke_color font_path font_size
      spacing
    = draw_formatted_lines textbbox _get_formatted_font self formatted_lines y
        text_color (lit "center") stroke_width stroke_color font_path
        font_size spacing.
Proof.
  induction formatted_lines as [|l ls IH]; intros y; simpl; [reflexivity|].
  now rewrite draw_line_segments_justify, IH.
Qed.

End FormattedFacts.

(** C5, as stated, fails where two neighbouring words differ in
    formatting: in ["<b>a</b> b"] the space between the bold [a] and the
    plain [b] is plain. *)
Lemma space_after_bold_word_is_plain :
  ~ spaces_follow_previous
      (_wrap_formatted_text fixed_bbox (fun _ size _ _ => size)
         example_generator (parse_html_formatting (lit "<b>a</b> b"))
         24 None 24).
Proof.
  intros H.
  specialize (H [mkTextSegment (lit "a") true false false;
                 mkTextSegment SP false false false;
                 mkTextSegment (lit "b") false false false]
                [] []
                (mkTextSegment (lit "a") true false false)
                (mkTextSegment SP false false false)
                (mkTextSegment (lit "b") false false false)).
  destruct H as [Hb _]; [now left|reflexivity|reflexivity|].
  discriminate Hb.
Qed.

(** C5, amended. In formatted wrapping every line is a run of consecutive
    word units (each word with the formatting of its segment), and the
    single-space segment inserted between two words of a line carries the
    bold, italic and underline flags of the word that follows it, also
    when the two words come from segments of different formatting; with
    no word at all the result is one line holding one empty, unformatted
    segment. *)
Theorem formatted_space_takes_next_word_format :
  forall (Font : Type) (textbbox : Z * Z -> str -> Font -> bbox)
         (_get_formatted_font : option str -> Z -> bool -> bool -> Font)
         (self : ImageGenerator) (segs : list TextSegment) (base_font : Font)
         (font_path : option str) (font_size : Z),
    match word_units segs with
    | [] =>
        _wrap_formatted_text textbbox _get_formatted_font self segs base_font
          font_path font_size = [[plain_segment []]]
    | _ :: _ =>
        exists gs : list (list TextSegment),
          Forall (fun g => g <> []) gs
          /\ concat gs = word_units segs
          /\ _wrap_formatted_text textbbox _get_formatted_font self segs
               base_font font_path font_size = map spaced_line gs
    end.
Proof. intros. apply wrap_formatted_spec. Qed.

Example wrap_formatted_demo :
  _wrap_formatted_text fixed_bbox (fun _ size _ _ => size) example_generator
    (parse_html_formatting (lit "<b>a</b> b <u>cc dddddddd</u>")) 24 None 24
  = [ [ mkTextSegment (lit "a") true false false;
        mkTextSegment SP false false false;
        mkTextSegment (lit "b") false false false;
        mkTextSegment SP false false true;
        mkTextSegment (lit "cc") false false true ];
      [ mkTextSegment (lit "dddddddd") false false true ] ].
Proof. vm_compute. reflexivity. Qed.

(** C9. In the formatted path the alignment ['justify'] draws exactly what
    ['center'] draws: both start a line at
    [(width - total_width) // 2], the draw calls of a line and of the
    whole text are identical, and each segment is drawn where the box of
    the one before it ends, so no gap is ever distributed between
    words. *)
Theorem formatted_justify_draws_as_center :
  forall (Font : Type) (textbbox : Z * Z -> str -> Font -> bbox)
         (_get_formatted_font : option str -> Z -> bool -> bool -> Font)
         (self : ImageGenerator) (segs line_segments : list TextSegment)
         (base_font : Font) (base_font_size : option Z) (y : Z)
         (text_color : Color) (stroke_width : Z)
         (stroke_color : option Color) (font_path : option str)
         (font_size total_width : Z),
    formatted_start_x self (lit "justify") total_width
    = (width self - total_width) / 2
    /\ formatted_start_x self (lit "center") total_width
       = (width self - total_width) / 2
    /\ _draw_formatted_line_segments textbbox _get_formatted_font self
         line_segments y text_color (lit "justify") stroke_width stroke_color
         font_path font_size
       = _draw_formatted_line_segments textbbox _get_formatted_font self
           line_segments y text_color (lit "center") stroke_width
           stroke_color font_path font_size
    /\ _draw_formatted_text textbbox _get_formatted_font self segs base_font
         base_font_size text_color (lit "justify") stroke_width stroke_color
         font_path
       = _draw_formatted_text textbbox _get_formatted_font self segs
           base_font base_font_size text_color (lit "center") stroke_width
           stroke_color font_path.
Proof.
  intros. split; [reflexivity|]. split; [reflexivity|]. split.
  - apply draw_line_segments_justify.
  - unfold _draw_formatted_text. apply draw_formatted_lines_justify.
Qed.

Example draw_formatted_demo :
  _draw_formatted_line_segments fixed_bbox (fun _ size _ _ => size)
    example_generator
    [ mkTextSegment (lit "a") true false false;
      mkTextSegment SP false false false;
      mkTextSegment (lit "b") false false true ]
    100 (255, 255, 255) (lit "justify") 0 None None 24
  = [ DrawText (84, 100) (lit "a") (255, 255, 255) 24 0;
      DrawText (108, 100) SP (255, 255, 255) 24 0;
      DrawLine (132, 125) (156, 125) (255, 255, 255) 1;
      DrawText (132, 100) (lit "b") (255, 255, 255) 24 0 ].
Proof. vm_compute. reflexivity. Qed.

(** ** Stroke and contrast *)

Lemma color_eqb_eq (a b : Color) : color_eqb a b = true <-> a = b.
Proof.
  destruct a as [[r1 g1] b1], b as [[r2 g2] b2]. unfold color_eqb.
  rewrite !andb_true_iff, !Z.eqb_eq. split.
  - intros [[-> ->] ->]. reflexivity.
  - intros H. injection H as -> -> ->. auto.
Qed.

(** Checking a range of integers by running through it. *)
Lemma all_from_spec (p : Z -> bool) (n : nat) :
  forall lo : Z,
    all_from p lo n = true ->
    forall s : Z, lo <= s < lo + Z.of_nat n -> p s = true.
Proof.
  induction n as [|n IH]; intros lo H s Hs; [lia|].
  simpl in H. apply andb_true_iff in H as [H0 H1].
  destruct (Z.eq_dec s lo) as [->|Hne]; [assumption|].
  apply (IH (lo + 1)); [assumption|lia].
Qed.

Lemma all_from_2 (p : Z -> Z -> bool) (n m : nat) (a b : Z) :
  all_from (fun x => all_from (p x) 0 m) 0 n = true ->
  0 <= a < Z.of_nat n -> 0 <= b < Z.of_nat m -> p a b = true.
Proof.
  intros H Ha Hb.
  pose proof (all_from_spec _ _ _ H a ltac:(lia)) as H1. cbn beta in H1.
  exact (all_from_spec _ _ _ H1 b ltac:(lia)).
Qed.

Lemma is_channel_spec (v : Z) : is_channel v = true <-> 0 <= v <= 255.
Proof. unfold is_channel. rewrite andb_true_iff, !Z.leb_le. tauto. Qed.

Lemma is_color_spec (c : Color) :
  is_color c = true -> channels_within 0 255 c.
Proof.
  destruct c as [[r g] b]. unfold is_color, channels_within.
  rewrite !andb_true_iff, !is_channel_spec. tauto.
Qed.

(** The float comparison of [_get_contrasting_color] is exact on the
    weighted sums colours give. *)
Lemma brightness_threshold (s : Z) :
  0 <= s <= 255000 ->
  PrimFloat.ltb (float_of_int 128)
    (PrimFloat.div (float_of_int s) (float_of_int 1000))
  = (128000 <? s).
Proof.
  intros Hs.
  assert (A : all_from
                (fun a =>
                   all_from
                     (fun b =>
                        Bool.eqb
                          (PrimFloat.ltb (float_of_int 128)
                             (PrimFloat.div (float_of_int (1000 * a + b))
                                (float_of_int 1000)))
                          (128000 <? 1000 * a + b))
                     0 1000)
                0 256 = true) by (vm_compute; reflexivity).
  pose proof (Z.div_mod s 1000 ltac:(lia)) as D.
  pose proof (Z.mod_pos_bound s 1000 ltac:(lia)) as M.
  assert (Q : 0 <= s / 1000 < 256).
  { split; [apply Z.div_pos; lia|].
    apply Z.div_lt_upper_bound; lia. }
  pose proof (all_from_2
                (fun a b =>
                   Bool.eqb
                     (PrimFloat.ltb (float_of_int 128)
                        (PrimFloat.div (float_of_int (1000 * a + b))
                           (float_of_int 1000)))
                     (128000 <? 1000 * a + b))
                256 1000 (s / 1000) (s mod 1000) A ltac:(lia) ltac:(lia))
    as B.
  cbn beta in B. rewrite <- D in B. now apply Bool.eqb_prop in B.
Qed.

(** The stroke colour by the integer test, on 8-bit colours. *)
Lemma contrasting_color_int (r g b : Z) :
  is_color (r, g, b) = true ->
  _get_contrasting_color (r, g, b)
  = if 128000 <? 299 * r + 587 * g + 114 * b
    then (0, 0, 0)
    else (255, 255, 255).
Proof.
  intros H. apply is_color_spec in H. cbn in H.
  unfold _get_contrasting_color, brightness.
  rewrite brightness_threshold by lia.
  replace (r * 299 + g * 587 + b * 114) with (299 * r + 587 * g + 114 * b)
    by lia.
  reflexivity.
Qed.

(** C8. For a text colour [(r, g, b)] on a background [(r', g', b')],
    both with channels from 0 to 255, stroke width 0 and auto-stroke
    requested: [_calculate_stroke_settings] returns a stroke of 1 pixel
    exactly when the contrast ratio is below 7.0 and the text colour is
    not (255, 255, 255), and no stroke otherwise.  The ratio is the one
    written out here in binary64: the relative luminance
    [0.2126 r + 0.7152 g + 0.0722 b] on the channels divided by 255, the
    larger luminance plus 0.05 over the smaller plus 0.05.  The stroke is
    black when [(299 r + 587 g + 114 b) / 1000] exceeds 128, which the
    float computation decides exactly as the integers do, and white
    otherwise.  Red on black gets a (white) stroke; white text gets no
    automatic stroke, on black or on any other background. *)
Theorem auto_stroke_rule :
  forall (r g b r' g' b' : Z) (stroke_color : option Color),
    is_color (r, g, b) = true ->
    is_color (r', g', b') = true ->
    let lum := fun r g b : Z =>
      (0.2126 * (float_of_int r / 255.0)
       + 0.7152 * (float_of_int g / 255.0)
       + 0.0722 * (float_of_int b / 255.0))%float in
    let lum1 := lum r g b in
    let lum2 := lum r' g' b' in
    let ratio :=
      (if lum2 <? lum1 then (lum1 + 0.05) / (lum2 + 0.05)
       else (lum2 + 0.05) / (lum1 + 0.05))%float in
    let black_stroke := 128000 <? 299 * r + 587 * g + 114 * b in
    let s :=
      _calculate_stroke_settings (r, g, b) (r', g', b') 0 stroke_color
        true in
    (fst s = 1
     <-> (ratio <? 7.0)%float = true /\ (r, g, b) <> (255, 255, 255))
    /\ (fst s = 1 ->
        s = (1, Some (if black_stroke then (0, 0, 0) else (255, 255, 255))))
    /\ (fst s <> 1 -> s = (0, None))
    /\ _calculate_stroke_settings (255, 0, 0) (0, 0, 0) 0 stroke_color true
       = (1, Some (255, 255, 255))
    /\ _calculate_stroke_settings (255, 255, 255) (r', g', b') 0
         stroke_color true = (0, None).
Proof.
  intros r g b r' g' b' stroke_color Ht Hb lum lum1 lum2 ratio black_stroke
    s.
  assert (Hs : s = if (ratio <? 7.0)%float
                      && negb (color_eqb (r, g, b) (255, 255, 255))
                   then (1, Some (_get_contrasting_color (r, g, b)))
                   else (0, None)) by reflexivity.
  rewrite (contrasting_color_int r g b Ht) in Hs.
  fold black_stroke in Hs.
  assert (Hw : color_eqb (r, g, b) (255, 255, 255) = false
               <-> (r, g, b) <> (255, 255, 255)).
  { rewrite <- Bool.not_true_iff_false, color_eqb_eq. tauto. }
  split; [|split; [|split; [|split]]].
  - rewrite Hs.
    destruct (ratio <? 7.0)%float; cbn [andb].
    + destruct (color_eqb (r, g, b) (255, 255, 255)) eqn:E; cbn [negb fst].
      * apply color_eqb_eq in E. split; [discriminate|].
        intros [_ H]. tauto.
      * split; [|reflexivity]. intros _. split; [reflexivity|].
        now apply Hw.
    + cbn [fst]. split; [discriminate|]. intros [H _]. discriminate.
  - rewrite Hs.
    destruct ((ratio <? 7.0)%float
              && negb (color_eqb (r, g, b) (255, 255, 255)));
      cbn [fst]; [reflexivity | discriminate].
  - rewrite Hs.
    destruct ((ratio <? 7.0)%float
              && negb (color_eqb (r, g, b) (255, 255, 255)));
      cbn [fst]; [congruence | reflexivity].
  - vm_compute. reflexivity.
  - unfold _calculate_stroke_settings. cbn [Z.eqb negb andb Z.ltb Z.compare].
    change (color_eqb (255, 255, 255) (255, 255, 255)) with true.
    cbn [negb]. rewrite andb_false_r. reflexivity.
Qed.

(** Orange on light grey has ratio 1.74 and gets a black stroke. *)
Lemma auto_stroke_rule_witness :
  _calculate_stroke_settings (255, 165, 0) (240, 240, 240) 0 None true
  = (1, Some (0, 0, 0)).
Proof.
  destruct (auto_stroke_rule 255 165 0 240 240 240 None eq_refl eq_refl)
    as (H1 & H2 & _).
  apply H2. apply H1. split; [vm_compute; reflexivity | discriminate].
Defined.

Example contrast_demo :
  _calculate_contrast_ratio (255, 0, 0) (0, 0, 0) = 5.252%float
  /\ _calculate_contrast_ratio (255, 255, 255) (0, 0, 0) = 21%float
  /\ brightness (255, 0, 0) = 76.245%float
  /\ _calculate_stroke_settings (255, 255, 0) (0, 0, 0) 0 None true
     = (0, None)
  /\ _calculate_stroke_settings (255, 165, 0) (240, 240, 240) 0 None true
     = (1, Some (0, 0, 0))
  /\ _calculate_stroke_settings (255, 0, 0) (0, 0, 0) 3 None false
     = (3, Some (255, 255, 255)).
Proof. vm_compute. repeat split; reflexivity. Qed.

(** ** The justified line *)

Lemma prefix_width_S (ws : list Z) (j : nat) :
  prefix_width ws (S j) = prefix_width ws j + nth j ws 0.
Proof.
  unfold prefix_width. revert j.
  induction ws as [|w ws IH]; intros [|j]; try (simpl; lia).
  specialize (IH j).
  change (firstn (S (S j)) (w :: ws)) with (w :: firstn (S j) ws).
  change (firstn (S j) (w :: ws)) with (w :: firstn j ws).
  change (nth (S j) (w :: ws) 0) with (nth j ws 0).
  cbn [fold_right]. lia.
Qed.

Lemma prefix_width_abs (ws : list Z) (j : nat) :
  Z.abs (prefix_width ws j) <= abs_width ws.
Proof.
  unfold prefix_width, abs_width. revert j.
  induction ws as [|w ws IH]; intros [|j]; simpl; try lia.
  - pose proof (IH 0%nat). simpl in *. lia.
  - specialize (IH j). lia.
Qed.

Lemma abs_width_nonneg (ws : list Z) : 0 <= abs_width ws.
Proof. unfold abs_width. induction ws; simpl; lia. Qed.

Lemma prefix_width_all (ws : list Z) :
  prefix_width ws (length ws) = fold_right Z.add 0 ws.
Proof. unfold prefix_width. now rewrite firstn_all. Qed.

Lemma nth_abs_width (ws : list Z) (j : nat) :
  Z.abs (nth j ws 0) <= abs_width ws.
Proof.
  unfold abs_width. revert j.
  induction ws as [|w ws IH]; intros [|j]; simpl; try lia.
  - pose proof (IH 0%nat). assert (0 <= fold_right Z.add 0 (map Z.abs ws)).
    { clear. induction ws; simpl; lia. }
    lia.
  - specialize (IH j). lia.
Qed.

(** An even share of [S] taken [i] times out of [d] stays within [S]. *)
Lemma share_bounds (i s d : R) :
  (0 < d -> 0 <= i <= d -> 0 <= s -> 0 <= i * s / d <= s)%R.
Proof.
  intros Hd Hi Hs.
  assert (Hinv : (0 < / d)%R) by now apply Rinv_0_lt_compat.
  assert (Hq : (0 <= i * / d <= 1)%R).
  { split.
    - apply Rmult_le_pos; lra.
    - apply (Rmult_le_reg_r d); [assumption|].
      rewrite Rmult_assoc, Rinv_l by lra. lra. }
  replace (i * s / d)%R with (s * (i * / d))%R by (unfold Rdiv; ring).
  split; nra.
Qed.

(** A pixel position that is less than one pixel and a sliver away from a
    point of the grid of [1/d]-ths is at most one pixel away from it. *)
Lemma grid_snap (p a i s d : Z) (t : R) :
  0 < d ->
  (0 <= t -> t * IZR d < 1 ->
   - (1 + t) < IZR p - (IZR a + IZR i * IZR s / IZR d) < 1 + t ->
   -1 <= IZR p - (IZR a + IZR i * IZR s / IZR d) <= 1)%R.
Proof.
  intros Hd Ht Htd He.
  assert (HdR : (0 < IZR d)%R) by now apply IZR_lt.
  set (e := (IZR p - (IZR a + IZR i * IZR s / IZR d))%R) in *.
  assert (HK : IZR ((p - a) * d - i * s) = (e * IZR d)%R).
  { unfold e. rewrite minus_IZR, !mult_IZR, minus_IZR. field. lra. }
  assert (Hup : (p - a) * d - i * s < d + 1).
  { apply lt_IZR. rewrite HK, plus_IZR. nra. }
  assert (Hlo : - (d + 1) < (p - a) * d - i * s).
  { apply lt_IZR. rewrite HK, opp_IZR, plus_IZR. nra. }
  assert (Hup' : (e * IZR d <= IZR d)%R).
  { rewrite <- HK. apply IZR_le. lia. }
  assert (Hlo' : (- IZR d <= e * IZR d)%R).
  { rewrite <- HK, <- opp_IZR. apply IZR_le. lia. }
  split; nra.
Qed.

(** *** binary64 from the specification of the primitive floats *)


Lemma pow2_pos (e : Z) : (0 < pow2 e)%R.
Proof. apply powerRZ_lt. lra. Qed.

Lemma pow2_add (a b : Z) : pow2 (a + b) = (pow2 a * pow2 b)%R.
Proof. apply powerRZ_add. lra. Qed.

Lemma pow2_Z (e : Z) : 0 <= e -> pow2 e = IZR (2 ^ e).
Proof.
  intros H. unfold pow2. rewrite <- (Z2Nat.id e H) at 1.
  rewrite <- pow_powerRZ. rewrite pow_IZR. now rewrite Z2Nat.id.
Qed.

Lemma pow2_le (a b : Z) : a <= b -> (pow2 a <= pow2 b)%R.
Proof.
  intros H. replace b with (a + (b - a)) by lia. rewrite pow2_add.
  rewrite (pow2_Z (b - a)) by lia.
  assert (H0 : 0 < 2 ^ (b - a)) by (apply Z.pow_pos_nonneg; lia).
  assert (H1 : 1 <= 2 ^ (b - a)) by lia.
  apply IZR_le in H1. pose proof (pow2_pos a). nra.
Qed.

Lemma pow2_lt_inv (a b : Z) : (pow2 a < pow2 b)%R -> a < b.
Proof.
  intros H. destruct (Z_lt_le_dec a b) as [L|L]; [exact L|].
  apply pow2_le in L. lra.
Qed.

Lemma pow2_split (e e' : Z) :
  e <= e' -> pow2 e' = (pow2 e * IZR (2 ^ (e' - e)))%R.
Proof.
  intros H. rewrite <- pow2_Z by lia. rewrite <- pow2_add. f_equal. lia.
Qed.

Lemma digits2_pos_bounds (m : positive) :
  2 ^ (Zpos (digits2_pos m) - 1) <= Zpos m < 2 ^ Zpos (digits2_pos m).
Proof.
  induction m as [p IH|p IH|]; cbn [digits2_pos].
  - rewrite Pos2Z.inj_succ. change (Zpos p~1) with (2 * Zpos p + 1).
    replace (Z.succ (Zpos (digits2_pos p)) - 1)
      with (Z.succ (Zpos (digits2_pos p) - 1)) by lia.
    rewrite !Z.pow_succ_r by lia. lia.
  - rewrite Pos2Z.inj_succ. change (Zpos p~0) with (2 * Zpos p).
    replace (Z.succ (Zpos (digits2_pos p)) - 1)
      with (Z.succ (Zpos (digits2_pos p) - 1)) by lia.
    rewrite !Z.pow_succ_r by lia. lia.
  - cbn. lia.
Qed.

Lemma Zdigits2_nonneg (m : Z) : 0 <= Zdigits2 m.
Proof. destruct m; cbn; lia. Qed.

(** The exponent a number below [2^K] is rounded at. *)
Lemma digits_below (p : positive) (e K : Z) :
  (IZR (Zpos p) * pow2 e < pow2 K)%R ->
  Zpos (digits2_pos p) + e <= K.
Proof.
  intros Hv.
  pose proof (digits2_pos_bounds p) as [Hd _].
  assert (H : (pow2 (Zpos (digits2_pos p) - 1 + e) < pow2 K)%R).
  { rewrite pow2_add. rewrite (pow2_Z (Zpos (digits2_pos p) - 1)) by lia.
    apply IZR_le in Hd. pose proof (pow2_pos e).
    apply Rle_lt_trans with (2 := Hv).
    apply Rmult_le_compat_r; lra. }
  apply pow2_lt_inv in H. lia.
Qed.

Lemma digits_above (p : positive) (e K : Z) :
  (pow2 K <= IZR (Zpos p) * pow2 e)%R ->
  K < Zpos (digits2_pos p) + e.
Proof.
  intros Hv.
  pose proof (digits2_pos_bounds p) as [_ Hd].
  assert (H : (pow2 K < pow2 (Zpos (digits2_pos p) + e))%R).
  { rewrite pow2_add. rewrite (pow2_Z (Zpos (digits2_pos p))) by lia.
    apply IZR_lt in Hd. pose proof (pow2_pos e).
    apply Rle_lt_trans with (1 := Hv).
    apply Rmult_lt_compat_r; lra. }
  now apply pow2_lt_inv in H.
Qed.

Lemma fexp_below (m e K : Z) :
  0 <= m -> e <= K - 53 -> -1074 <= K - 53 ->
  (IZR m * pow2 e < pow2 K)%R ->
  fexp prec emax (Zdigits2 m + e) <= K - 53.
Proof.
  intros Hm He HK Hv. unfold fexp, emin, prec, emax.
  destruct m as [|p|p]; [cbn; lia| |lia].
  cbn [Zdigits2]. pose proof (digits_below p e K Hv). lia.
Qed.

Lemma shr_1_m (mrs : shr_record) :
  0 <= shr_m mrs ->
  shr_m (shr_1 mrs) = shr_m mrs / 2 /\ 0 <= shr_m (shr_1 mrs).
Proof.
  destruct mrs as [m r s]. cbn [shr_m]. intros H.
  destruct m as [|[p|p|]|p]; cbn [shr_1 shr_m]; try lia.
  - split; [reflexivity | lia].
  - split; [|lia]. change (Zpos p~1) with (2 * Zpos p + 1).
    apply Z.div_unique with (r := 1); lia.
  - split; [|lia]. change (Zpos p~0) with (2 * Zpos p).
    apply Z.div_unique with (r := 0); lia.
  - split; [reflexivity | lia].
Qed.

Lemma iter_shr_m (p : positive) :
  forall mrs : shr_record,
    0 <= shr_m mrs ->
    shr_m (SpecFloat.iter_pos shr_1 p mrs) = shr_m mrs / 2 ^ Zpos p
    /\ 0 <= shr_m (SpecFloat.iter_pos shr_1 p mrs).
Proof.
  induction p as [p IH|p IH|]; intros mrs H; cbn [SpecFloat.iter_pos].
  - destruct (shr_1_m mrs H) as [E1 N1].
    destruct (IH _ N1) as [E2 N2].
    destruct (IH _ N2) as [E3 N3].
    split; [|exact N3].
    rewrite E3, E2, E1.
    rewrite !Z.div_div by (try apply Z.pow_pos_nonneg; lia).
    f_equal. change (Zpos p~1) with (2 * Zpos p + 1).
    replace (2 * Zpos p + 1) with (1 + Zpos p + Zpos p) by lia.
    rewrite !Z.pow_add_r by lia. lia.
  - destruct (IH _ H) as [E2 N2].
    destruct (IH _ N2) as [E3 N3].
    split; [|exact N3].
    rewrite E3, E2.
    rewrite !Z.div_div by (try apply Z.pow_pos_nonneg; lia).
    f_equal. change (Zpos p~0) with (2 * Zpos p).
    replace (2 * Zpos p) with (Zpos p + Zpos p) by lia.
    rewrite !Z.pow_add_r by lia. lia.
  - destruct (shr_1_m mrs H) as [E1 N1]. split; [|exact N1].
    rewrite E1. reflexivity.
Qed.

Lemma shr_record_of_loc_m (m : Z) (l : location) :
  shr_m (shr_record_of_loc m l) = m.
Proof. destruct l as [|[]]; reflexivity. Qed.

(** What [shr_fexp] does to a mantissa: nothing, or a floor division
    that brings the exponent to the one of the format. *)
Lemma shr_fexp_spec (m e : Z) (l : location) :
  0 <= m ->
  exists (r : shr_record) (e' : Z),
    shr_fexp prec emax m e l = (r, e')
    /\ ((e' = e /\ r = shr_record_of_loc m l
         /\ fexp prec emax (Zdigits2 m + e) <= e)
        \/ (e < e' /\ e' = fexp prec emax (Zdigits2 m + e)
            /\ shr_m r = m / 2 ^ (e' - e))).
Proof.
  intros Hm. unfold shr_fexp, shr.
  destruct (fexp prec emax (Zdigits2 m + e) - e) as [|p|p] eqn:En.
  - eexists _, _. split; [reflexivity|]. left. repeat split; lia.
  - eexists _, _. split; [reflexivity|]. right.
    split; [lia|]. split; [lia|].
    destruct (iter_shr_m p (shr_record_of_loc m l)) as [E _].
    { rewrite shr_record_of_loc_m. exact Hm. }
    rewrite E, shr_record_of_loc_m. f_equal. f_equal. lia.
  - eexists _, _. split; [reflexivity|]. left. repeat split; lia.
Qed.

Lemma round_nearest_even_bounds (m : Z) (l : location) :
  m <= round_nearest_even m l <= m + 1.
Proof.
  destruct l as [|[]]; cbn [round_nearest_even]; try lia.
  destruct (Z.even m); lia.
Qed.

Lemma loc_of_shr_record_of_loc (m : Z) (l : location) :
  loc_of_shr_record (shr_record_of_loc m l) = l.
Proof. destruct l as [|[]]; reflexivity. Qed.

(** A floor division of the mantissa keeps the number in its cell. *)
Lemma floor_scale (m e e' : Z) :
  0 <= m -> e <= e' ->
  (IZR (m / 2 ^ (e' - e)) * pow2 e' <= IZR m * pow2 e
   /\ (IZR m + 1) * pow2 e <= (IZR (m / 2 ^ (e' - e)) + 1) * pow2 e')%R.
Proof.
  intros Hm He.
  assert (HP : 0 < 2 ^ (e' - e)) by (apply Z.pow_pos_nonneg; lia).
  pose proof (Z.div_mod m (2 ^ (e' - e)) ltac:(lia)) as D.
  pose proof (Z.mod_pos_bound m (2 ^ (e' - e)) HP) as M.
  set (q := m / 2 ^ (e' - e)) in *. set (P := 2 ^ (e' - e)) in *.
  assert (H1 : q * P <= m) by lia.
  assert (H2 : m + 1 <= (q + 1) * P) by lia.
  apply IZR_le in H1, H2.
  rewrite mult_IZR in H1. rewrite mult_IZR, !plus_IZR in H2.
  rewrite (pow2_split e e' He). fold P.
  pose proof (pow2_pos e) as Hp.
  split.
  - replace (IZR q * (pow2 e * IZR P))%R with (IZR q * IZR P * pow2 e)%R
      by ring.
    apply Rmult_le_compat_r; lra.
  - replace ((IZR q + 1) * (pow2 e * IZR P))%R
      with ((IZR q + 1) * IZR P * pow2 e)%R by ring.
    apply Rmult_le_compat_r; lra.
Qed.

(** One pass of [shr_fexp] on a number in the cell of [m]. *)
Lemma shr_fexp_cell (m e : Z) (l : location) (v : R) (K : Z) :
  0 <= m -> e <= K - 53 -> -1074 <= K - 53 ->
  (IZR m * pow2 e <= v <= (IZR m + 1) * pow2 e)%R ->
  (IZR m * pow2 e < pow2 K)%R ->
  exists (r : shr_record) (e' : Z),
    shr_fexp prec emax m e l = (r, e')
    /\ 0 <= shr_m r /\ e <= e' <= K - 53
    /\ (IZR (shr_m r) * pow2 e' <= v <= (IZR (shr_m r) + 1) * pow2 e')%R
    /\ (IZR (shr_m r) * pow2 e' <= IZR m * pow2 e)%R.
Proof.
  intros Hm He HK Hv Hlt.
  destruct (shr_fexp_spec m e l Hm) as (r & e' & E & [(-> & -> & _)|(L & Ee & Er)]).
  - exists (shr_record_of_loc m l), e. rewrite shr_record_of_loc_m.
    repeat split; try lia; try lra. exact E.
  - exists r, e'. split; [exact E|].
    pose proof (fexp_below m e K Hm He HK Hlt) as Hf.
    destruct (floor_scale m e e' Hm ltac:(lia)) as [F1 F2].
    rewrite <- Er in F1, F2.
    assert (0 <= shr_m r).
    { rewrite Er. apply Z.div_pos; [lia|]. apply Z.pow_pos_nonneg; lia. }
    repeat split; try lia; lra.
Qed.

(** [binary_round_aux] on a number below [2^32] given at an exponent of
    at most -21: the result is finite and within [3 * 2^-21]. *)
Lemma round_aux_close (sx : bool) (mx ex : Z) (lx : location) (v : R) :
  0 <= mx -> ex <= -21 ->
  (IZR mx * pow2 ex <= v <= (IZR mx + 1) * pow2 ex)%R ->
  (v < pow2 32)%R ->
  SF_finite (binary_round_aux prec emax sx mx ex lx) = true
  /\ ((if sx then - v else v) - eps64
      <= SF2R (binary_round_aux prec emax sx mx ex lx)
      <= (if sx then - v else v) + eps64)%R.
Proof.
  intros Hm He Hv Hlt.
  assert (Hlt0 : (IZR mx * pow2 ex < pow2 32)%R) by lra.
  destruct (shr_fexp_cell mx ex lx v 32 Hm ltac:(lia) ltac:(lia) Hv Hlt0)
    as (r1 & e1 & E1 & N1 & B1 & C1 & _).
  unfold binary_round_aux. rewrite E1.
  set (mr := round_nearest_even (shr_m r1) (loc_of_shr_record r1)).
  pose proof (round_nearest_even_bounds (shr_m r1) (loc_of_shr_record r1))
    as Hr. fold mr in Hr.
  pose proof (pow2_pos e1) as Hp1.
  pose proof (pow2_le e1 (-21) ltac:(lia)) as Hp1'.
  assert (Hmr : (IZR (shr_m r1) <= IZR mr <= IZR (shr_m r1) + 1)%R).
  { destruct Hr as [Ha Hb]. apply IZR_le in Ha, Hb.
    rewrite plus_IZR in Hb. lra. }
  assert (Hv1 : (- pow2 e1 <= IZR mr * pow2 e1 - v <= pow2 e1)%R)
    by (split; nra).
  assert (Hlt1 : (IZR mr * pow2 e1 < pow2 33)%R).
  { replace 33 with (32 + 1) by lia. rewrite pow2_add.
    change (pow2 1) with (2 * 1)%R.
    assert (pow2 (-21) <= pow2 32)%R by (apply pow2_le; lia).
    lra. }
  assert (Hmr0 : 0 <= mr) by lia.
  assert (Hcell : (IZR mr * pow2 e1 <= IZR mr * pow2 e1
                   <= (IZR mr + 1) * pow2 e1)%R) by nra.
  destruct (shr_fexp_cell mr e1 loc_Exact (IZR mr * pow2 e1) 33
              Hmr0 ltac:(lia) ltac:(lia) Hcell Hlt1)
    as (r2 & e2 & E2 & N2 & B2 & C2 & D2).
  rewrite E2.
  pose proof (pow2_pos e2) as Hp2.
  pose proof (pow2_le e2 (-20) ltac:(lia)) as Hp2'.
  assert (H20 : pow2 (-20) = (2 * pow2 (-21))%R).
  { replace (-20) with (1 + -21) by lia. rewrite pow2_add.
    change (pow2 1) with (2 * 1)%R. ring. }
  assert (Hfin : (- eps64 <= IZR (shr_m r2) * pow2 e2 - v <= eps64)%R).
  { unfold eps64. split; lra. }
  destruct (shr_m r2) as [|p|p] eqn:Em; [| |lia].
  - split; [reflexivity|]. cbn [SF2R].
    rewrite Rmult_0_l in Hfin. destruct sx; lra.
  - replace (e2 <=? emax - prec) with true
      by (symmetry; apply Z.leb_le; unfold emax, prec; lia).
    split; [reflexivity|]. cbn [SF2R]. destruct sx; lra.
Qed.

(** An exact number that fits the format is kept as it is. *)
Lemma round_aux_exact (sx : bool) (m : positive) (e : Z) :
  fexp prec emax (Zpos (digits2_pos m) + e) <= e -> e <= 971 ->
  binary_round_aux prec emax sx (Zpos m) e loc_Exact = S754_finite sx m e.
Proof.
  intros Hf He. unfold binary_round_aux.
  assert (E : shr_fexp prec emax (Zpos m) e loc_Exact
              = (shr_record_of_loc (Zpos m) loc_Exact, e)).
  { unfold shr_fexp, shr. cbn [Zdigits2].
    destruct (fexp prec emax (Zpos (digits2_pos m) + e) - e) eqn:En;
      try reflexivity.
    lia. }
  rewrite E.
  cbn [shr_record_of_loc shr_m loc_of_shr_record round_nearest_even].
  rewrite E. cbn [shr_record_of_loc shr_m].
  replace (e <=? emax - prec) with true
    by (symmetry; apply Z.leb_le; unfold emax, prec; lia).
  reflexivity.
Qed.

Lemma iter_xO (m d : positive) :
  Zpos (Pos.iter xO m d) = Zpos m * 2 ^ Zpos d
  /\ digits2_pos (Pos.iter xO m d) = (digits2_pos m + d)%positive.
Proof.
  induction d as [|d [IH1 IH2]] using Pos.peano_ind.
  - cbn [Pos.iter digits2_pos]. split; [lia|].
    now rewrite Pos.add_1_r.
  - rewrite Pos.iter_succ. cbn [digits2_pos]. split.
    + change (Zpos (Pos.iter xO m d)~0) with (2 * Zpos (Pos.iter xO m d)).
      rewrite IH1, Pos2Z.inj_succ, Z.pow_succ_r by lia. lia.
    + rewrite IH2. now rewrite Pos.add_succ_r.
Qed.

(** [shl_align] brings a mantissa to the smaller of two exponents
    without changing the number. *)
Lemma shl_align_spec (m : positive) (e e' : Z) :
  exists (mz : positive) (ez : Z),
    shl_align m e e' = (mz, ez)
    /\ ez = Z.min e e'
    /\ (IZR (Zpos mz) * pow2 ez = IZR (Zpos m) * pow2 e)%R
    /\ Zpos (digits2_pos mz) + ez = Zpos (digits2_pos m) + e.
Proof.
  unfold shl_align. destruct (e' - e) as [|d|d] eqn:Ed.
  - exists m, e. repeat split; lia.
  - exists m, e. repeat split; lia.
  - destruct (iter_xO m d) as [V D].
    exists (Pos.iter xO m d), e'. split; [reflexivity|].
    split; [lia|]. split.
    + rewrite V, mult_IZR. rewrite (pow2_split e' e) by lia.
      replace (e - e') with (Zpos d) by lia. ring.
    + rewrite D, Pos2Z.inj_add. lia.
Qed.

(** Rounding an exact number of at most 53 digits changes nothing. *)
Lemma binary_round_exact (sx : bool) (m : positive) (e : Z) :
  fexp prec emax (Zpos (digits2_pos m) + e) <= e -> e <= 971 ->
  SF_finite (binary_round prec emax sx m e) = true
  /\ SF2R (binary_round prec emax sx m e)
     = (if sx then - (IZR (Zpos m) * pow2 e) else IZR (Zpos m) * pow2 e)%R.
Proof.
  intros Hf He. unfold binary_round.
  destruct (shl_align_spec m e (fexp prec emax (Zpos (digits2_pos m) + e)))
    as (mz & ez & -> & Ez & V & D).
  rewrite round_aux_exact; [| rewrite D; lia | lia].
  split; [reflexivity|]. cbn [SF2R]. now rewrite V.
Qed.

(** Rounding an exact number below [2^32]. *)
Lemma binary_round_close (sx : bool) (m : positive) (e : Z) :
  (IZR (Zpos m) * pow2 e < pow2 32)%R ->
  SF_finite (binary_round prec emax sx m e) = true
  /\ ((if sx then - (IZR (Zpos m) * pow2 e) else IZR (Zpos m) * pow2 e)
      - eps64
      <= SF2R (binary_round prec emax sx m e)
      <= (if sx then - (IZR (Zpos m) * pow2 e) else IZR (Zpos m) * pow2 e)
         + eps64)%R.
Proof.
  intros Hv. unfold binary_round.
  destruct (shl_align_spec m e (fexp prec emax (Zpos (digits2_pos m) + e)))
    as (mz & ez & -> & Ez & V & D).
  pose proof (digits_below m e 32 Hv) as Hd.
  assert (Hez : ez <= -21).
  { unfold fexp, emin, prec, emax in Ez. lia. }
  pose proof (pow2_pos ez) as Hp.
  apply round_aux_close; [lia | exact Hez | rewrite <- V; nra | exact Hv].
Qed.

Lemma binary_normalize_close (m e : Z) :
  (- pow2 32 < IZR m * pow2 e < pow2 32)%R ->
  SF_finite (binary_normalize prec emax m e false) = true
  /\ (IZR m * pow2 e - eps64
      <= SF2R (binary_normalize prec emax m e false)
      <= IZR m * pow2 e + eps64)%R.
Proof.
  intros Hv. pose proof (pow2_pos (-21)) as Hp.
  destruct m as [|p|p]; cbn [binary_normalize].
  - split; [reflexivity|]. cbn [SF2R]. unfold eps64. lra.
  - apply (binary_round_close false p e). lra.
  - assert (E : IZR (Zneg p) = (- IZR (Zpos p))%R).
    { change (Zneg p) with (- Zpos p). now rewrite opp_IZR. }
    rewrite E in *.
    destruct (binary_round_close true p e) as [F C]; [lra|].
    split; [exact F|]. lra.
Qed.

Lemma binary_normalize_exact (m : Z) :
  0 <= m < 2 ^ 53 ->
  SF_finite (binary_normalize prec emax m 0 false) = true
  /\ SF2R (binary_normalize prec emax m 0 false) = IZR m.
Proof.
  intros Hm. destruct m as [|p|p]; cbn [binary_normalize]; [| |lia].
  - split; reflexivity.
  - pose proof (digits2_pos_bounds p) as [Hd _].
    assert (Zpos (digits2_pos p) - 1 < 53).
    { apply (Z.pow_lt_mono_r_iff 2); lia. }
    destruct (binary_round_exact false p 0) as [F V].
    + unfold fexp, emin, prec, emax. lia.
    + lia.
    + split; [exact F|]. rewrite V. change (pow2 0) with 1%R. ring.
Qed.

(** The operations on primitive floats. *)

Lemma of_uint63_exact (z : Z) :
  0 <= z < 2 ^ 53 ->
  float_finite (of_uint63 (Uint63.of_Z z))
  /\ float_val (of_uint63 (Uint63.of_Z z)) = IZR z.
Proof.
  intros Hz. unfold float_finite, float_val.
  rewrite of_uint63_spec, Uint63.of_Z_spec.
  rewrite Z.mod_small.
  - now apply binary_normalize_exact.
  - split; [lia|]. apply Z.lt_trans with (2 ^ 53); [lia|]. reflexivity.
Qed.

Lemma float_of_int_exact (z : Z) :
  - 2 ^ 53 < z < 2 ^ 53 ->
  float_finite (float_of_int z) /\ float_val (float_of_int z) = IZR z.
Proof.
  intros Hz. unfold float_of_int.
  destruct (z <? 0) eqn:E.
  - apply Z.ltb_lt in E.
    destruct (of_uint63_exact (- z)) as [F V]; [lia|].
    unfold float_finite, float_val in *. rewrite opp_spec.
    destruct (Prim2SF (of_uint63 (Uint63.of_Z (- z)))) as [s|s| |s m e];
      try discriminate F; cbn [SFopp SF_finite SF2R negb] in *.
    + split; [reflexivity|]. rewrite opp_IZR in V. lra.
    + split; [reflexivity|]. rewrite opp_IZR in V. destruct s; cbn; lra.
  - apply Z.ltb_ge in E. apply of_uint63_exact. lia.
Qed.

(** [x + y] *)
Lemma SFadd_close (x y : spec_float) :
  SF_finite x = true -> SF_finite y = true ->
  (- pow2 32 < SF2R x + SF2R y < pow2 32)%R ->
  SF_finite (SFadd prec emax x y) = true
  /\ (SF2R x + SF2R y - eps64
      <= SF2R (SFadd prec emax x y)
      <= SF2R x + SF2R y + eps64)%R.
Proof.
  intros Fx Fy Hv.
  assert (He : (0 < eps64)%R).
  { unfold eps64. pose proof (pow2_pos (-21)). lra. }
  destruct x as [sx|sx| |sx mx ex]; try discriminate Fx;
    destruct y as [sy|sy| |sy my ey]; try discriminate Fy.
  - cbn [SFadd]. destruct sx, sy; cbn [SF_finite SF2R]; split;
      first [reflexivity | lra].
  - cbn [SFadd SF_finite]. split; [reflexivity|].
    cbn [SF2R] in *. destruct sy; lra.
  - cbn [SFadd SF_finite]. split; [reflexivity|].
    cbn [SF2R] in *. destruct sx; lra.
  - cbn [SFadd].
    destruct (shl_align_spec mx ex (Z.min ex ey)) as (m1 & e1 & E1 & Ez1 & V1 & _).
    destruct (shl_align_spec my ey (Z.min ex ey)) as (m2 & e2 & E2 & Ez2 & V2 & _).
    rewrite E1, E2. cbn [fst].
    replace e1 with (Z.min ex ey) in V1 by lia.
    replace e2 with (Z.min ex ey) in V2 by lia.
    set (ez := Z.min ex ey) in *.
    assert (S : (IZR (cond_Zopp sx (Zpos m1) + cond_Zopp sy (Zpos m2))
                 * pow2 ez
                 = SF2R (S754_finite sx mx ex) + SF2R (S754_finite sy my ey))%R).
    { rewrite plus_IZR. cbn [SF2R].
      destruct sx, sy; cbn [cond_Zopp]; rewrite ?opp_IZR; lra. }
    rewrite <- S in *. now apply binary_normalize_close.
Qed.

Lemma fadd_close64 (x y : float) :
  float_finite x -> float_finite y ->
  (- pow2 32 < float_val x + float_val y < pow2 32)%R ->
  float_finite (x + y)
  /\ (float_val x + float_val y - eps64
      <= float_val (x + y)
      <= float_val x + float_val y + eps64)%R.
Proof.
  unfold float_finite, float_val. rewrite add_spec. apply SFadd_close.
Qed.

Lemma div_ge (a n y : R) : (0 < y -> a * y <= n -> a <= n / y)%R.
Proof.
  intros Hy H. apply Rmult_le_reg_r with (r := y); [exact Hy|].
  replace (n / y * y)%R with n by (field; lra). exact H.
Qed.

Lemma div_le (a n y : R) : (0 < y -> n <= a * y -> n / y <= a)%R.
Proof.
  intros Hy H. apply Rmult_le_reg_r with (r := y); [exact Hy|].
  replace (n / y * y)%R with n by (field; lra). exact H.
Qed.

(** [x / y] for a positive [y] *)
Lemma SFdiv_core_cell (m1 m2 : positive) (e1 e2 : Z) :
  let '(q, e', l) := SFdiv_core_binary prec emax (Zpos m1) e1 (Zpos m2) e2 in
  0 <= q
  /\ e' <= fexp prec emax
             (Zpos (digits2_pos m1) + e1 - (Zpos (digits2_pos m2) + e2))
  /\ (IZR q * pow2 e'
      <= IZR (Zpos m1) * pow2 e1 / (IZR (Zpos m2) * pow2 e2)
      <= (IZR q + 1) * pow2 e')%R.
Proof.
  unfold SFdiv_core_binary. cbn [Zdigits2].
  set (e' := Z.min (fexp prec emax
                      (Zpos (digits2_pos m1) + e1
                       - (Zpos (digits2_pos m2) + e2))) (e1 - e2)).
  set (s := e1 - e2 - e').
  assert (Hs : 0 <= s) by (unfold s, e'; lia).
  set (m' := match s with
             | 0 => Zpos m1
             | Zpos _ => Z.shiftl (Zpos m1) s
             | Zneg _ => 0
             end).
  assert (Hm' : m' = Zpos m1 * 2 ^ s).
  { unfold m'. destruct s as [|p|p] eqn:Es; [cbn; lia| |lia].
    apply Z.shiftl_mul_pow2. lia. }
  pose proof (Z_div_mod m' (Zpos m2) ltac:(lia)) as D.
  destruct (Z.div_eucl m' (Zpos m2)) as [q r].
  destruct D as [D1 D2].
  assert (HP : 0 < 2 ^ s) by (apply Z.pow_pos_nonneg; lia).
  assert (Hq : 0 <= q) by nia.
  split; [exact Hq|]. split; [unfold e'; lia|].
  assert (Hlo : Zpos m2 * q <= m') by lia.
  assert (Hhi : m' <= Zpos m2 * (q + 1)) by lia.
  apply IZR_le in Hlo, Hhi.
  rewrite Hm', !mult_IZR in Hlo, Hhi. rewrite plus_IZR in Hhi.
  assert (HY : (0 < IZR (Zpos m2))%R) by (apply IZR_lt; lia).
  pose proof (pow2_pos e2) as Hp2. pose proof (pow2_pos e') as Hp'.
  assert (E1 : pow2 e1 = (pow2 e2 * pow2 e' * IZR (2 ^ s))%R).
  { rewrite <- pow2_add. rewrite (pow2_split (e2 + e') e1) by (unfold s in Hs; lia).
    do 2 f_equal. unfold s. f_equal. lia. }
  assert (Ev : (IZR (Zpos m1) * pow2 e1 / (IZR (Zpos m2) * pow2 e2)
                = IZR (Zpos m1) * IZR (2 ^ s) * pow2 e' / IZR (Zpos m2))%R).
  { rewrite E1. field. lra. }
  rewrite Ev.
  split.
  - apply div_ge; [exact HY|]. nra.
  - apply div_le; [exact HY|]. nra.
Qed.

Lemma SFdiv_close (x y : spec_float) :
  SF_finite x = true -> SF_finite y = true ->
  (- pow2 31 <= SF2R x <= pow2 31)%R -> (1 <= SF2R y)%R ->
  SF_finite (SFdiv prec emax x y) = true
  /\ (SF2R x / SF2R y - eps64
      <= SF2R (SFdiv prec emax x y)
      <= SF2R x / SF2R y + eps64)%R.
Proof.
  intros Fx Fy Hx Hy.
  assert (He : (0 < eps64)%R).
  { unfold eps64. pose proof (pow2_pos (-21)). lra. }
  destruct y as [sy|sy| |sy my ey]; try discriminate Fy;
    [cbn [SF2R] in Hy; lra|].
  assert (sy = false) as ->.
  { destruct sy; [|reflexivity]. cbn [SF2R] in Hy.
    pose proof (pow2_pos ey).
    assert (0 < IZR (Zpos my))%R by (apply IZR_lt; lia). nra. }
  cbn [SF2R] in Hy.
  destruct x as [sx|sx| |sx mx ex]; try discriminate Fx.
  - cbn [SFdiv SF_finite SF2R]. split; [reflexivity|].
    unfold Rdiv. rewrite Rmult_0_l. lra.
  - cbn [SFdiv].
    pose proof (SFdiv_core_cell mx my ex ey) as C.
    destruct (SFdiv_core_binary prec emax (Zpos mx) ex (Zpos my) ey)
      as [[q e'] l].
    destruct C as (Hq & He' & Hc).
    set (X := (IZR (Zpos mx) * pow2 ex)%R) in *.
    set (Y := (IZR (Zpos my) * pow2 ey)%R) in *.
    assert (HX : (0 < X <= pow2 31)%R).
    { split.
      - unfold X. pose proof (pow2_pos ex).
        assert (0 < IZR (Zpos mx))%R by (apply IZR_lt; lia). nra.
      - cbn [SF2R] in Hx. fold X in Hx. destruct sx; lra. }
    assert (H3132 : (pow2 32 = 2 * pow2 31)%R).
    { replace 32 with (1 + 31) by lia. rewrite pow2_add.
      change (pow2 1) with (2 * 1)%R. ring. }
    pose proof (pow2_pos 31) as Hp31.
    assert (Hd1 : Zpos (digits2_pos mx) + ex <= 32).
    { apply digits_below. fold X. lra. }
    assert (Hd2 : 0 < Zpos (digits2_pos my) + ey).
    { apply digits_above. fold Y. change (pow2 0) with 1%R. lra. }
    assert (He21 : e' <= -21).
    { unfold fexp, emin, prec, emax in He'. lia. }
    assert (Hquot : (0 < X / Y <= X)%R).
    { split.
      - apply Rdiv_lt_0_compat; lra.
      - apply div_le; [lra|]. nra. }
    destruct (round_aux_close (xorb sx false) q e' l (X / Y)%R Hq He21 Hc)
      as [F C]; [lra|].
    split; [exact F|].
    cbn [SF2R]. fold X Y.
    destruct sx; cbn [xorb] in C.
    + replace (- X / Y)%R with (- (X / Y))%R by (field; lra). exact C.
    + exact C.
Qed.

Lemma truediv_close64 (a b : Z) :
  - 2 ^ 31 <= a <= 2 ^ 31 -> 0 < b <= 2 ^ 31 ->
  float_finite (float_of_int a / float_of_int b)
  /\ (IZR a / IZR b - eps64
      <= float_val (float_of_int a / float_of_int b)
      <= IZR a / IZR b + eps64)%R.
Proof.
  intros Ha Hb.
  destruct (float_of_int_exact a) as [Fa Va]; [lia|].
  destruct (float_of_int_exact b) as [Fb Vb]; [lia|].
  unfold float_finite, float_val in *. rewrite div_spec.
  rewrite <- Va, <- Vb.
  apply SFdiv_close; try assumption.
  - rewrite Va. rewrite (pow2_Z 31) by lia.
    split; [rewrite <- opp_IZR|]; apply IZR_le; lia.
  - rewrite Vb. apply IZR_le. lia.
Qed.

(** [int(x)] *)
Lemma int_of_float_trunc (x : float) :
  ((0 <= float_val x)%R ->
   (IZR (int_of_float x) <= float_val x < IZR (int_of_float x) + 1)%R)
  /\ ((float_val x <= 0)%R ->
      (IZR (int_of_float x) - 1 < float_val x <= IZR (int_of_float x))%R).
Proof.
  unfold float_val, int_of_float.
  destruct (Prim2SF x) as [s|s| |s m e]; cbn [SF2R]; try (split; intros; lra).
  assert (Hm : (0 < IZR (Zpos m))%R) by (apply IZR_lt; lia).
  pose proof (pow2_pos e) as Hp.
  assert (Hpos : (0 < IZR (Zpos m) * pow2 e)%R) by nra.
  assert (Hmag : (IZR (if 0 <=? e then Zpos m * 2 ^ e
                       else Zpos m / 2 ^ (- e))
                  <= IZR (Zpos m) * pow2 e
                  < IZR (if 0 <=? e then Zpos m * 2 ^ e
                         else Zpos m / 2 ^ (- e)) + 1)%R).
  { destruct (0 <=? e) eqn:E.
    - apply Z.leb_le in E. rewrite mult_IZR, <- pow2_Z by exact E. lra.
    - apply Z.leb_gt in E.
      destruct (floor_scale (Zpos m) e 0 ltac:(lia) ltac:(lia)) as [F1 F2].
      replace (0 - e) with (- e) in F1, F2 by lia.
      change (pow2 0) with 1%R in F1, F2. nra. }
  destruct s.
  - rewrite opp_IZR. split; intros; lra.
  - split; intros; lra.
Qed.

Lemma eps64_pos : (0 < eps64)%R.
Proof. unfold eps64. pose proof (pow2_pos (-21)). lra. Qed.

Lemma eps64_value : eps64 = (3 / 2097152)%R.
Proof.
  unfold eps64.
  assert (H : (pow2 (-21) * pow2 21 = 1)%R)
    by (rewrite <- pow2_add; reflexivity).
  rewrite (pow2_Z 21) in H by lia. change (2 ^ 21) with 2097152 in H.
  lra.
Qed.

(** *** The pen of the justified line *)

Section JustifyFacts.
Context {F : Type} {ops : PyFloatOps F}.
Variable fs : PyFloatSpec ops.
Variables (pl : Z) (ws : list Z) (space d : Z) (count : nat).
Hypothesis Hcount : Z.of_nat count - 1 = d.
Hypothesis Hd : 0 < d.
Hypothesis Hspace : 0 <= space.
(* The coordinates, with the rounding that can gather along the line, are
   within the range of the arithmetic. *)
Hypothesis Hrange :
  (IZR (Z.abs pl + abs_width ws + space) + 3 * IZR d * eps fs
   <= IZR (range fs))%R.
Hypothesis Hdr : d <= range fs.

Lemma d_ge_1 : (1 <= IZR d)%R.
Proof. apply IZR_le. lia. Qed.

(** The rounding gathered before word [j] is within the budget of the
    line. *)
Lemma budget (j : nat) :
  Z.of_nat j <= d ->
  (0 <= 3 * IZR (Z.of_nat j) * eps fs <= 3 * IZR d * eps fs)%R.
Proof.
  intros Hj.
  pose proof (eps_nonneg _ fs) as He.
  assert (H0 : (0 <= IZR (Z.of_nat j))%R) by (apply IZR_le; lia).
  assert (H1 : (IZR (Z.of_nat j) <= IZR d)%R) by now apply IZR_le.
  split; nra.
Qed.

Lemma coordinates_in_range : Z.abs pl + abs_width ws + space <= range fs.
Proof.
  apply le_IZR.
  pose proof (eps_nonneg _ fs) as He. pose proof d_ge_1 as Hd1.
  assert (0 <= 3 * IZR d * eps fs)%R by nra.
  lra.
Qed.

(** With few enough words the gathered rounding stays a sliver. *)
Lemma sliver (j : nat) :
  (3 * IZR d * IZR d * eps fs < 1)%R ->
  Z.of_nat j <= d ->
  (0 <= 3 * IZR (Z.of_nat j) * eps fs
   /\ 3 * IZR (Z.of_nat j) * eps fs * IZR d < 1)%R.
Proof.
  intros Heps Hj.
  pose proof (eps_nonneg _ fs) as He. pose proof d_ge_1 as Hd1.
  assert (H0 : (0 <= IZR (Z.of_nat j))%R) by (apply IZR_le; lia).
  assert (H1 : (IZR (Z.of_nat j) <= IZR d)%R) by now apply IZR_le.
  assert (H2 : (IZR (Z.of_nat j) * eps fs <= IZR d * eps fs)%R)
    by (apply Rmult_le_compat_r; assumption).
  assert (H4 : (0 <= IZR (Z.of_nat j) * eps fs)%R)
    by (apply Rmult_le_pos; assumption).
  assert (H5 : (IZR (Z.of_nat j) * eps fs * IZR d
                <= IZR d * eps fs * IZR d)%R).
  { apply Rmult_le_compat_r; lra. }
  split; lra.
Qed.

(** Every ideal position, with or without the width of its word, is
    within the coordinates of the line. *)
Lemma ideal_bound (j k : nat) :
  Z.of_nat j <= d ->
  (- IZR (Z.abs pl + abs_width ws + space)
   <= IZR pl + IZR (prefix_width ws k)
      + IZR (Z.of_nat j) * IZR space / IZR d
   <= IZR (Z.abs pl + abs_width ws + space))%R.
Proof.
  intros Hj.
  pose proof (prefix_width_abs ws k) as Hp.
  pose proof (abs_width_nonneg ws) as Ha.
  assert (Hsh : (0 <= IZR (Z.of_nat j) * IZR space / IZR d <= IZR space)%R).
  { apply share_bounds.
    - now apply IZR_lt.
    - split; apply IZR_le; lia.
    - now apply IZR_le. }
  assert (Hlo : (- IZR (Z.abs pl + abs_width ws + space)
                 <= IZR pl + IZR (prefix_width ws k))%R).
  { rewrite <- opp_IZR, <- !plus_IZR. apply IZR_le. lia. }
  assert (Hhi : (IZR pl + IZR (prefix_width ws k) + IZR space
                 <= IZR (Z.abs pl + abs_width ws + space))%R).
  { rewrite <- !plus_IZR. apply IZR_le. lia. }
  lra.
Qed.

Lemma ideal_x_S (j : nat) :
  ideal_x pl ws space d (S j)
  = (ideal_x pl ws space d j + IZR (nth j ws 0%Z) + IZR space / IZR d)%R.
Proof.
  unfold ideal_x. rewrite prefix_width_S, plus_IZR, Nat2Z.inj_succ.
  unfold Z.succ. rewrite plus_IZR. field.
  apply not_eq_sym, Rlt_not_eq. now apply IZR_lt.
Qed.

Lemma gap_close :
  finite fs (truediv space d)
  /\ (IZR space / IZR d - eps fs
      <= val fs (truediv space d)
      <= IZR space / IZR d + eps fs)%R.
Proof.
  pose proof (abs_width_nonneg ws). pose proof coordinates_in_range.
  apply truediv_close; lia.
Qed.

(** One round of the loop keeps the pen within its error budget. *)
Lemma pen_step (i : nat) (x : PyNum F) :
  Z.of_nat i < d ->
  pen_ok fs pl ws space d i x ->
  pen_ok fs pl ws space d (S i)
    (num_add_float (num_add_int x (nth i ws 0)) (truediv space d)).
Proof.
  intros Hi Hx.
  pose proof (eps_nonneg _ fs) as He.
  pose proof gap_close as [Fg Hg].
  pose proof (abs_width_nonneg ws) as Ha.
  pose proof (nth_abs_width ws i) as Hw.
  pose proof coordinates_in_range as Hc.
  pose proof (ideal_x_S i) as HS.
  assert (HiS : Z.of_nat (S i) <= d) by lia.
  pose proof (ideal_bound (S i) (S i) HiS) as Hr1.
  fold (ideal_x pl ws space d (S i)) in Hr1.
  destruct (budget (S i) HiS) as [Hb0 Hb1].
  rewrite Nat2Z.inj_succ in Hb0, Hb1. unfold Z.succ in Hb0, Hb1.
  rewrite plus_IZR in Hb0, Hb1.
  destruct x as [z|f]; unfold pen_ok in Hx |- *;
    cbn [num_add_int num_add_float].
  - destruct Hx as [-> ->]. split; [lia|].
    destruct (of_int_exact _ fs (pl + nth 0 ws 0)) as [Fz Hz]; [lia|].
    assert (E0 : ideal_x pl ws space d 0 = IZR pl).
    { unfold ideal_x, prefix_width. simpl. unfold Rdiv. ring. }
    rewrite E0 in HS. rewrite plus_IZR in Hz.
    pose proof (fadd_close _ fs (of_int (pl + nth 0 ws 0)) (truediv space d)
                  Fz Fg) as Hadd.
    rewrite Hz in Hadd.
    change (Z.of_nat 1) with 1. simpl (Z.of_nat 0) in *.
    lapply Hadd; [intros [Fadd Hadd']|lra]. split; [exact Fadd|]. lra.
  - destruct Hx as [Hi1 [Ff Hf]]. split; [lia|].
    assert (Hi' : Z.of_nat i <= d) by lia.
    pose proof (ideal_bound i (S i) Hi') as Hr0.
    rewrite prefix_width_S, (plus_IZR (prefix_width ws i)) in Hr0.
    fold (ideal_x pl ws space d i) in Hr0.
    assert (Hr0' : (- IZR (Z.abs pl + abs_width ws + space)
                    <= ideal_x pl ws space d i + IZR (nth i ws 0%Z)
                    <= IZR (Z.abs pl + abs_width ws + space))%R).
    { unfold ideal_x in *. lra. }
    destruct (of_int_exact _ fs (nth i ws 0)) as [Fz Hz]; [lia|].
    pose proof (fadd_close _ fs f (of_int (nth i ws 0)) Ff Fz) as Hadd1.
    rewrite Hz in Hadd1.
    lapply Hadd1; [clear Hadd1; intros [Fadd1 Hadd1]|lra].
    pose proof (fadd_close _ fs (fadd f (of_int (nth i ws 0)))
                  (truediv space d) Fadd1 Fg) as Hadd2.
    lapply Hadd2; [clear Hadd2; intros [Fadd2 Hadd2]|lra].
    split; [exact Fadd2|].
    rewrite Nat2Z.inj_succ. unfold Z.succ. rewrite plus_IZR. lra.
Qed.

(** The pixel a word is drawn at is less than one pixel and the gathered
    rounding away from its ideal position. *)
Lemma pen_near (i : nat) (x : PyNum F) :
  Z.of_nat i <= d ->
  pen_ok fs pl ws space d i x ->
  (- (1 + 3 * IZR (Z.of_nat i) * eps fs)
   < IZR (num_int x) - ideal_x pl ws space d i
   < 1 + 3 * IZR (Z.of_nat i) * eps fs)%R.
Proof.
  intros Hi Hx.
  destruct (budget i Hi) as [Hb0 _].
  destruct x as [z|f]; simpl in Hx |- *.
  - destruct Hx as [-> ->].
    unfold ideal_x, prefix_width. simpl. unfold Rdiv.
    rewrite !Rmult_0_l. lra.
  - destruct Hx as [_ [Ff Hf]].
    destruct (to_int_trunc _ fs f Ff) as [Hpos Hneg].
    destruct (Rle_lt_dec 0 (val fs f)) as [H0|H0].
    + specialize (Hpos H0). lra.
    + assert (H0' : (val fs f <= 0)%R) by lra.
      specialize (Hneg H0'). lra.
Qed.

(** With few enough words it is within one pixel of it. *)
Lemma pen_pos (i : nat) (x : PyNum F) :
  (3 * IZR d * IZR d * eps fs < 1)%R ->
  Z.of_nat i <= d ->
  pen_ok fs pl ws space d i x ->
  (-1 <= IZR (num_int x) - ideal_x pl ws space d i <= 1)%R.
Proof.
  intros Heps Hi Hx.
  pose proof (pen_near i x Hi Hx) as Hn.
  destruct (sliver i Heps Hi) as (Hs0 & Hs1).
  unfold ideal_x in *. rewrite <- plus_IZR in *.
  apply (grid_snap (num_int x) (pl + prefix_width ws i) (Z.of_nat i) space d
           (3 * IZR (Z.of_nat i) * eps fs)%R Hd Hs0 Hs1).
  exact Hn.
Qed.

Lemma justified_xs_length (words : list str) :
  forall (i : nat) (x : PyNum F),
    length (justified_xs ws (truediv space d) count words i x)
    = length words.
Proof.
  induction words as [|w rest IH]; intros i x; simpl; [reflexivity|].
  now rewrite IH.
Qed.

(** What holds of the pen before each word holds of the pixel each word
    of the justified loop is drawn at. *)
Lemma justified_xs_pen (P : nat -> Z -> Prop) :
  (forall (i : nat) (x : PyNum F),
      Z.of_nat i <= d -> pen_ok fs pl ws space d i x -> P i (num_int x)) ->
  forall (words : list str) (i : nat) (x : PyNum F),
    (i + length words = count)%nat ->
    pen_ok fs pl ws space d i x ->
    forall k : nat,
      (k < length words)%nat ->
      P (i + k)%nat
        (nth k (justified_xs ws (truediv space d) count words i x) 0).
Proof.
  intros HP.
  induction words as [|w rest IH]; intros i x Hlen Hx k Hk; simpl in Hk;
    [lia|].
  simpl in Hlen.
  destruct k as [|k].
  - rewrite Nat.add_0_r. simpl. apply HP; [lia|assumption].
  - cbn [justified_xs nth].
    assert (Hrest : (0 < length rest)%nat) by lia.
    assert (Hi : Z.of_nat i < d) by lia.
    replace (Z.of_nat i <? Z.of_nat count - 1) with true
      by (symmetry; apply Z.ltb_lt; lia).
    replace (i + S k)%nat with (S i + k)%nat by lia.
    apply IH; [lia| |lia].
    now apply pen_step.
Qed.

End JustifyFacts.

(** *** The draw calls of a justified line *)

Section JustifiedLine.
Context {Font : Type} {F : Type} {ops : PyFloatOps F}.
Variable textbbox : Z * Z -> str -> Font -> bbox.

Lemma measure_words_from (font : Font) (words : list str) :
  forall (t0 : Z) (l0 : list Z),
    fold_left
      (fun (acc : Z * list Z) (word : str) =>
         let '(total_word_width, word_widths) := acc in
         let b := textbbox (0, 0) word font in
         let word_width := bbox2 b - bbox0 b in
         (total_word_width + word_width, word_widths ++ [word_width]))
      words (t0, l0)
    = (t0 + fold_right Z.add 0 (map (measure textbbox font) words),
       l0 ++ map (measure textbbox font) words).
Proof.
  induction words as [|w rest IH]; intros t0 l0; simpl.
  - now rewrite Z.add_0_r, app_nil_r.
  - rewrite IH. unfold measure. rewrite <- app_assoc. simpl.
    f_equal. lia.
Qed.

Lemma measure_words_spec (font : Font) (words : list str) :
  measure_words textbbox font words
  = (fold_right Z.add 0 (map (measure textbbox font) words),
     map (measure textbbox font) words).
Proof. unfold measure_words. now rewrite measure_words_from. Qed.

(** The pair of calls of the code is the expected one. *)
Lemma draw_text_stroked_calls (xy : Z * Z) (txt : str) (font : Font)
    (color : Color) (stroke_width : Z) (stroke_color : option Color) :
  draw_text_stroked xy txt font color stroke_width stroke_color
  = stroke_then_fill xy txt font color stroke_width stroke_color.
Proof.
  unfold draw_text_stroked, stroke_then_fill.
  destruct stroke_color, (0 <? stroke_width); reflexivity.
Qed.

(** The loop draws each word at the x the position list records. *)
Lemma justified_loop_xs (y : Z) (font : Font) (color : Color)
    (stroke_width : Z) (stroke_color : option Color) (word_widths : list Z)
    (space_per_gap : F) (count : nat) (words : list str) :
  forall (i : nat) (x : PyNum F),
    justified_loop y font color stroke_width stroke_color word_widths
      space_per_gap count words i x
    = flat_map
        (fun xw : Z * str =>
           stroke_then_fill (fst xw, y) (snd xw) font color stroke_width
             stroke_color)
        (combine (justified_xs word_widths space_per_gap count words i x)
           words).
Proof.
  induction words as [|w rest IH]; intros i x; [reflexivity|].
  cbn [justified_loop justified_xs combine flat_map fst snd].
  now rewrite IH, draw_text_stroked_calls.
Qed.

(** Under ['justify'] the lines but the last are justified and the last
    is centred. *)
Lemma multiline_justify (self : ImageGenerator) (font : Font)
    (color : Color) (stroke_width : Z) (stroke_color : option Color)
    (spacing : Z) (lines : list str) :
  forall (pre : list str) (y : Z),
    multiline_loop textbbox self font color (lit "justify") stroke_width
      stroke_color
      (map (fun line =>
              bbox3 (textbbox (0, 0) line font)
              - bbox1 (textbbox (0, 0) line font)) (pre ++ lines))
      spacing (length (pre ++ lines)) lines (length pre) y
    = justify_block textbbox self font color stroke_width stroke_color
        spacing lines y.
Proof.
  induction lines as [|line rest IH]; intros pre y; [reflexivity|].
  cbn [multiline_loop justify_block].
  assert (Hnth : nth (length pre)
                   (map (fun line =>
                           bbox3 (textbbox (0, 0) line font)
                           - bbox1 (textbbox (0, 0) line font))
                      (pre ++ line :: rest)) 0
                 = bbox3 (textbbox (0, 0) line font)
                   - bbox1 (textbbox (0, 0) line font)).
  { rewrite map_app. rewrite app_nth2; rewrite length_map; [|lia].
    now rewrite Nat.sub_diag. }
  rewrite Hnth.
  replace (pre ++ line :: rest) with ((pre ++ [line]) ++ rest)
    by now rewrite <- app_assoc.
  replace (S (length pre)) with (length (pre ++ [line]))
    by (rewrite length_app; simpl; lia).
  rewrite IH. f_equal.
  set (count := length ((pre ++ [line]) ++ rest)).
  assert (Hcount : Z.of_nat count
                   = Z.of_nat (length pre) + 1 + Z.of_nat (length rest)).
  { unfold count. rewrite !length_app. simpl. lia. }
  change (str_eqb (lit "justify") (lit "justify")) with true.
  destruct rest as [|l2 rest']; simpl length in Hcount.
  - assert (E1 : (Z.of_nat (length pre) <? Z.of_nat count - 1) = false)
      by (apply Z.ltb_ge; lia).
    assert (E2 : (Z.of_nat (length pre) =? Z.of_nat count - 1) = true)
      by (apply Z.eqb_eq; lia).
    rewrite E1, andb_false_r. unfold aligned_x. rewrite E2.
    rewrite draw_text_stroked_calls. reflexivity.
  - assert (E1 : (Z.of_nat (length pre) <? Z.of_nat count - 1) = true)
      by (apply Z.ltb_lt; lia).
    assert (E2 : (1 <? Z.of_nat count) = true) by (apply Z.ltb_lt; lia).
    rewrite E1, E2. reflexivity.
Qed.

End JustifiedLine.

(** *** binary64 is as accurate as the justified line needs *)

Lemma binary64_of_int (z : Z) :
  - 2 ^ 31 <= z <= 2 ^ 31 ->
  float_finite (float_of_int z) /\ float_val (float_of_int z) = IZR z.
Proof. intros H. apply float_of_int_exact. lia. Qed.

Lemma binary64_fadd (x y : float) :
  float_finite x -> float_finite y ->
  (- IZR (2 ^ 31) <= float_val x + float_val y <= IZR (2 ^ 31))%R ->
  float_finite (x + y)
  /\ (float_val x + float_val y - eps64
      <= float_val (x + y)
      <= float_val x + float_val y + eps64)%R.
Proof.
  intros Fx Fy H. apply fadd_close64; try assumption.
  rewrite (pow2_Z 32) by lia.
  assert (IZR (2 ^ 31) < IZR (2 ^ 32))%R by (apply IZR_lt; lia).
  lra.
Qed.

Lemma binary64_to_int (x : float) :
  float_finite x ->
  ((0 <= float_val x)%R ->
   (IZR (int_of_float x) <= float_val x < IZR (int_of_float x) + 1)%R)
  /\ ((float_val x <= 0)%R ->
      (IZR (int_of_float x) - 1 < float_val x <= IZR (int_of_float x))%R).
Proof. intros _. apply int_of_float_trunc. Qed.

(** The words of a justified line in binary64, on 32-bit coordinates:
    each is drawn less than one pixel and the gathered rounding away from
    its evenly spaced position, and within one pixel of it when the line
    has at most 256 words. *)
Lemma justified_xs_close64 (pl : Z) (ws : list Z) (space : Z)
    (words : list str) :
  (2 <= length words)%nat ->
  0 <= space ->
  Z.abs pl + abs_width ws + space + Z.of_nat (length words) < 2 ^ 31 ->
  let d := Z.of_nat (length words) - 1 in
  let xs :=
    justified_xs (fops := binary64) ws
      (PrimFloat.div (float_of_int space) (float_of_int d)) (length words)
      words 0 (PyInt pl) in
  (IZR space / IZR d - eps64
   <= float_val (PrimFloat.div (float_of_int space) (float_of_int d))
   <= IZR space / IZR d + eps64)%R
  /\ (forall k : nat,
        (k < length words)%nat ->
        (- (1 + 3 * IZR (Z.of_nat k) * eps64)
         < IZR (nth k xs 0%Z) - ideal_x pl ws space d k
         < 1 + 3 * IZR (Z.of_nat k) * eps64)%R)
  /\ ((length words <= 256)%nat ->
      forall k : nat,
        (k < length words)%nat ->
        (-1 <= IZR (nth k xs 0%Z) - ideal_x pl ws space d k <= 1)%R).
Proof.
  intros Hn Hspace Hrange d xs.
  set (fs := binary64_spec_of (Rlt_le _ _ eps64_pos) binary64_of_int
               truediv_close64 binary64_fadd binary64_to_int).
  assert (Hd : 0 < d) by (unfold d; lia).
  assert (Hd1 : (1 <= IZR d)%R) by (apply IZR_le; lia).
  assert (Hr : (IZR (Z.abs pl + abs_width ws + space) + 3 * IZR d * eps fs
                <= IZR (range fs))%R).
  { change (eps fs) with eps64. change (range fs) with (2 ^ 31).
    rewrite eps64_value.
    set (B := Z.abs pl + abs_width ws + space) in *.
    assert (Hz : B + d <= 2 ^ 31) by (unfold d; lia).
    apply IZR_le in Hz. rewrite plus_IZR in Hz. lra. }
  assert (Hdr : d <= range fs).
  { change (range fs) with (2 ^ 31). pose proof (abs_width_nonneg ws).
    unfold d. lia. }
  split; [|split].
  - exact (proj2 (gap_close fs pl ws space d (length words) Hd Hspace Hr
                    Hdr)).
  - intros k Hk.
    assert (HP : forall (i : nat) (x : PyNum float),
               Z.of_nat i <= d ->
               pen_ok fs pl ws space d i x ->
               (- (1 + 3 * IZR (Z.of_nat i) * eps64)
                < IZR (num_int x) - ideal_x pl ws space d i
                < 1 + 3 * IZR (Z.of_nat i) * eps64)%R).
    { intros i x Hi Hx. now apply (pen_near fs). }
    exact (justified_xs_pen fs pl ws space d (length words) eq_refl Hd
             Hspace Hr Hdr
             (fun i z =>
                (- (1 + 3 * IZR (Z.of_nat i) * eps64)
                 < IZR z - ideal_x pl ws space d i
                 < 1 + 3 * IZR (Z.of_nat i) * eps64)%R)
             HP words 0%nat (PyInt pl) eq_refl (conj eq_refl eq_refl) k Hk).
  - intros H256 k Hk.
    assert (Heps : (3 * IZR d * IZR d * eps fs < 1)%R).
    { change (eps fs) with eps64. rewrite eps64_value.
      assert (H2 : (IZR d <= 255)%R) by (apply IZR_le; unfold d; lia).
      nra. }
    assert (HP : forall (i : nat) (x : PyNum float),
               Z.of_nat i <= d ->
               pen_ok fs pl ws space d i x ->
               (-1 <= IZR (num_int x) - ideal_x pl ws space d i <= 1)%R).
    { intros i x Hi Hx. apply (pen_pos fs); assumption. }
    exact (justified_xs_pen fs pl ws space d (length words) eq_refl Hd
             Hspace Hr Hdr
             (fun i z =>
                (-1 <= IZR z - ideal_x pl ws space d i <= 1)%R)
             HP words 0%nat (PyInt pl) eq_refl (conj eq_refl eq_refl) k Hk).
Qed.

(** C6, as stated, fails once the canvas is so wide that binary64 rounds
    the gap: on a canvas of [2^60 + 200] pixels the two words of ["a b"],
    one pixel each, leave a gap of [2^60 + 198] pixels, which the
    division by the one gap turns into the float [2^60 + 256]; the second
    word is drawn at [2^60 + 256] and ends 57 pixels right of the
    available width, where one gap allows one pixel. *)
Lemma justified_line_overshoots_wide_canvas :
  let self :=
    new_ImageGenerator example_config (2 ^ 60 + 200) 240 None None None
      None in
  (2 <= length (split (lit "a b")))%nat
  /\ 1 + 1 <= width self - padding_left self - padding_right self
  /\ _draw_justified_line (fops := binary64) fixed_bbox self (lit "a b") 0
       1 (255, 255, 255) 0 None
     = [ DrawText (0, 0) (lit "a") (255, 255, 255) 1 0;
         DrawText (2 ^ 60 + 256, 0) (lit "b") (255, 255, 255) 1 0 ]
  /\ ~ justified_within_a_pixel_per_gap fixed_bbox self (lit "a b") 0 1
         (255, 255, 255) 0 None.
Proof.
  intros self.
  split; [apply Nat.leb_le; reflexivity|].
  split; [vm_compute; discriminate|].
  split; [vm_compute; reflexivity|].
  intros (xs & Hdrawn & Hlen & _ & Hbound).
  destruct xs as [|x0 [|x1 [|x2 xs]]]; try discriminate Hlen.
  vm_compute in Hdrawn.
  injection Hdrawn as E0 E1. subst x0 x1.
  vm_compute in Hbound. apply Hbound. reflexivity.
Qed.

(** C6, amended.  Plain-text drawing under ['justify'], in binary64 as
    Python runs it.  A line of [n >= 2] words whose widths sum to at most
    the available width [width - padding_left - padding_right] is drawn
    word by word from [padding_left] with the gap
    [(available_width - sum) / (n - 1)], each word by the stroke call (if
    any) and the fill call.  When the magnitudes of the left padding and
    of the word widths, the space to share and the number of words stay
    below [2^31] together (any canvas narrower than [2^30] pixels with
    paddings that are not negative and words at least a pixel wide), the
    float gap is within [3 * 2^-21] of the exact quotient and the drawn
    widths and gaps add up to the available width within one pixel per
    gap; with at most 256 words on the line, each word lands within one
    pixel of its evenly spaced position and the right edge of the last
    word within one pixel of the available width.  When the space to
    share is negative the line is drawn left-aligned at [padding_left]; a
    line of at most one word is centred; and in a block the last line is
    centred while the lines before it are justified. *)
Theorem justified_line_spacing :
  forall (Font : Type) (textbbox : Z * Z -> str -> Font -> bbox)
         (self : ImageGenerator) (font : Font) (color : Color)
         (stroke_width : Z) (stroke_color : option Color) (line : str)
         (lines : list str) (y : Z),
    let words := split line in
    let n := length words in
    let word_widths := map (measure textbbox font) words in
    let available_width :=
      width self - padding_left self - padding_right self in
    let space := available_width - fold_right Z.add 0 word_widths in
    let d := Z.of_nat n - 1 in
    let drawn :=
      _draw_justified_line (fops := binary64) textbbox self line y font
        color stroke_width stroke_color in
    ((2 <= n)%nat -> 0 <= space ->
     Z.abs (padding_left self) + abs_width word_widths + space + Z.of_nat n
     < 2 ^ 31 ->
     (IZR space / IZR d - eps64
      <= float_val (PrimFloat.div (float_of_int space) (float_of_int d))
      <= IZR space / IZR d + eps64)%R
     /\ justified_within_a_pixel_per_gap textbbox self line y font color
          stroke_width stroke_color
     /\ ((n <= 256)%nat ->
         exists xs : list Z,
           drawn
           = flat_map
               (fun xw : Z * str =>
                  stroke_then_fill (fst xw, y) (snd xw) font color
                    stroke_width stroke_color)
               (combine xs words)
           /\ length xs = n
           /\ (forall i : nat,
                 (i < n)%nat ->
                 (-1 <= IZR (nth i xs 0%Z)
                        - ideal_x (padding_left self) word_widths space d i
                  <= 1)%R)
           /\ nth 0 xs 0 = padding_left self
           /\ -1 <= nth (n - 1) xs 0 + nth (n - 1) word_widths 0
                    - (padding_left self + available_width) <= 1))
    /\ ((2 <= n)%nat -> space < 0 ->
        drawn
        = stroke_then_fill (padding_left self, y) (join SP words) font color
            stroke_width stroke_color)
    /\ ((n <= 1)%nat ->
        drawn
        = stroke_then_fill
            ((width self - measure textbbox font line) / 2, y) line font
            color stroke_width stroke_color)
    /\ (let spacing :=
          LINE_SPACING (config self)
          + (if 0 <? stroke_width then stroke_width * 2 else 0) in
        let heights :=
          map (fun l =>
                 bbox3 (textbbox (0, 0) l font)
                 - bbox1 (textbbox (0, 0) l font)) lines in
        let y0 :=
          padding_top self
          + (height self - padding_top self - padding_bottom self
             - (fold_right Z.add 0 heights
                + (Z.of_nat (length lines) - 1) * spacing)) / 2 in
        _draw_multiline_text (fops := binary64) textbbox self lines font
          color (lit "justify") stroke_width stroke_color
        = justify_block (ops := binary64) textbbox self font color
            stroke_width stroke_color spacing lines y0).
Proof.
  intros Font textbbox self font color stroke_width stroke_color line lines
    y words n word_widths available_width space d drawn.
  split; [|split; [|split]].
  - intros Hn Hspace Hrange.
    assert (Hd : 0 < d) by (unfold d; lia).
    assert (HdR : (1 <= IZR d)%R) by (apply IZR_le; lia).
    assert (Hlen : length word_widths = n)
      by (unfold word_widths; now rewrite length_map).
    set (xs := justified_xs (fops := binary64) word_widths
                 (PrimFloat.div (float_of_int space) (float_of_int d)) n
                 words 0 (PyInt (padding_left self))).
    assert (Hdrawn :
              drawn
              = flat_map
                  (fun xw : Z * str =>
                     stroke_then_fill (fst xw, y) (snd xw) font color
                       stroke_width stroke_color)
                  (combine xs words)).
    { unfold drawn, _draw_justified_line. fold words.
      replace (length words <=? 1)%nat with false
        by (symmetry; apply Nat.leb_gt; fold n; lia).
      rewrite measure_words_spec. fold word_widths. fold available_width.
      fold space. fold n. fold d.
      replace (0 <? d) with true by (symmetry; apply Z.ltb_lt; lia).
      replace (0 <=? space) with true by (symmetry; apply Z.leb_le; lia).
      cbn [andb]. apply justified_loop_xs. }
    destruct (justified_xs_close64 (padding_left self) word_widths space
                words Hn Hspace Hrange) as (Hgap & Hnear & Hclose).
    fold n d xs in Hgap, Hnear, Hclose.
    assert (Hxs : length xs = n).
    { unfold xs.
      change (PrimFloat.div (float_of_int space) (float_of_int d))
        with (@truediv float binary64 space d).
      apply justified_xs_length. }
    assert (Hfirst : nth 0 xs 0 = padding_left self).
    { unfold xs. clear - Hn. unfold n in Hn.
      destruct words as [|w rest]; [simpl in Hn; lia|reflexivity]. }
    assert (Hlast : (n - 1 < n)%nat) by lia.
    pose proof (prefix_width_S word_widths (n - 1)) as HS.
    replace (S (n - 1)) with (length word_widths) in HS by lia.
    rewrite prefix_width_all in HS.
    assert (Hideal : ideal_x (padding_left self) word_widths space d (n - 1)
                     = IZR (padding_left self
                            + prefix_width word_widths (n - 1) + space)).
    { unfold ideal_x.
      replace (Z.of_nat (n - 1)) with d by (unfold d; lia).
      rewrite !plus_IZR. field.
      apply not_eq_sym, Rlt_not_eq. now apply IZR_lt. }
    split; [exact Hgap|]. split.
    + exists xs. split; [exact Hdrawn|]. split; [exact Hxs|].
      split; [exact Hfirst|].
      fold words n. fold (measure textbbox font). fold word_widths.
      fold available_width. rewrite Hfirst.
      pose proof (Hnear (n - 1)%nat Hlast) as Hc.
      rewrite Hideal in Hc. rewrite <- minus_IZR in Hc.
      replace (Z.of_nat (n - 1)) with d in Hc by (unfold d; lia).
      rewrite eps64_value in Hc.
      assert (Hlo : - (1 + d)
                    < nth (n - 1) xs 0
                      - (padding_left self
                         + prefix_width word_widths (n - 1) + space)).
      { apply lt_IZR. rewrite opp_IZR, plus_IZR. lra. }
      assert (Hhi : nth (n - 1) xs 0
                    - (padding_left self
                       + prefix_width word_widths (n - 1) + space)
                    < 1 + d).
      { apply lt_IZR. rewrite plus_IZR. lra. }
      unfold space in Hlo, Hhi. unfold d in Hlo, Hhi. lia.
    + intros H256. exists xs.
      split; [exact Hdrawn|]. split; [exact Hxs|].
      split; [exact (Hclose H256)|]. split; [exact Hfirst|].
      pose proof (Hclose H256 (n - 1)%nat Hlast) as Hc.
      rewrite Hideal in Hc. rewrite <- minus_IZR in Hc.
      destruct Hc as [Hlo Hhi].
      apply (le_IZR (-1)) in Hlo. apply (le_IZR _ 1) in Hhi.
      unfold space in Hlo, Hhi |- *. lia.
  - intros Hn Hspace.
    unfold drawn, _draw_justified_line. fold words.
    replace (length words <=? 1)%nat with false
      by (symmetry; apply Nat.leb_gt; fold n; lia).
    rewrite measure_words_spec. fold word_widths. fold available_width.
    fold space.
    replace (0 <=? space) with false by (symmetry; apply Z.leb_gt; lia).
    rewrite andb_false_r. apply draw_text_stroked_calls.
  - intros Hn.
    unfold drawn, _draw_justified_line. fold words.
    replace (length words <=? 1)%nat with true
      by (symmetry; apply Nat.leb_le; fold n; lia).
    apply draw_text_stroked_calls.
  - cbv zeta. unfold _draw_multiline_text.
    apply (multiline_justify textbbox self font color stroke_width
             stroke_color _ lines []).
Qed.

(** The four words of ["a b c d"] at 20 pixels on the 240-pixel canvas. *)
Lemma justified_line_spacing_witness :
  (2 <= length (split (lit "a b c d")))%nat
  /\ justified_within_a_pixel_per_gap fixed_bbox example_generator
       (lit "a b c d") 100 20 (255, 255, 255) 0 None.
Proof.
  destruct (justified_line_spacing Z fixed_bbox example_generator 20
              (255, 255, 255) 0 None (lit "a b c d") [] 100) as [H _].
  cbv zeta in H.
  assert (H1 : (2 <= length (split (lit "a b c d")))%nat)
    by (apply Nat.leb_le; reflexivity).
  split; [exact H1|].
  apply H; [exact H1 | vm_compute; discriminate | vm_compute; reflexivity].
Defined.

(** That line as Python runs it: 160/3 is not exact and the words land
    on 0, 73, 146 and 220. *)
Example justified_line_demo :
  _draw_justified_line (F := float) fixed_bbox example_generator
    (lit "a b c d") 100 20 (255, 255, 255) 0 None
  = [ DrawText (0, 100) (lit "a") (255, 255, 255) 20 0;
      DrawText (73, 100) (lit "b") (255, 255, 255) 20 0;
      DrawText (146, 100) (lit "c") (255, 255, 255) 20 0;
      DrawText (220, 100) (lit "d") (255, 255, 255) 20 0 ].
Proof. vm_compute. reflexivity. Qed.

Example multiline_justify_demo :
  _draw_multiline_text (F := float) fixed_bbox example_generator
    [lit "aa bb c"; lit "dddddddddddd"; lit "e f"] 20 (255, 255, 255)
    (lit "justify") 1 (Some (0, 0, 0))
  = [ DrawText (0, 65) (lit "aa") (0, 0, 0) 20 1;
      DrawText (0, 65) (lit "aa") (255, 255, 255) 20 0;
      DrawText (110, 65) (lit "bb") (0, 0, 0) 20 1;
      DrawText (110, 65) (lit "bb") (255, 255, 255) 20 0;
      DrawText (220, 65) (lit "c") (0, 0, 0) 20 1;
      DrawText (220, 65) (lit "c") (255, 255, 255) 20 0;
      DrawText (0, 97) (lit "dddddddddddd") (0, 0, 0) 20 1;
      DrawText (0, 97) (lit "dddddddddddd") (255, 255, 255) 20 0;
      DrawText (90, 129) (lit "e f") (0, 0, 0) 20 1;
      DrawText (90, 129) (lit "e f") (255, 255, 255) 20 0 ].
Proof. vm_compute. reflexivity. Qed.

(* ================================================================= *)
(** * The rest of the code: further properties *)

(** ** The font-size search as a binary search *)

Lemma fit_monotone_b_sound (fits : Z -> bool) (lo hi : Z) :
  fit_monotone_b fits lo hi = true -> fit_monotone fits lo hi.
Proof.
  intros H s t Hlo Hst Hhi Ht.
  unfold fit_monotone_b in H.
  pose proof (all_from_spec _ _ _ H) as Hstep.
  assert (Hd : forall k : nat, forall u : Z,
             u = t - Z.of_nat k -> lo <= u -> fits u = true).
  { induction k as [|k IHk]; intros u Hu Hlu.
    - replace u with t by lia. exact Ht.
    - assert (Hnext : fits (u + 1) = true) by (apply IHk; lia).
      assert (Hu' : lo <= u < lo + Z.of_nat (Z.to_nat (hi - lo))) by lia.
      specialize (Hstep u Hu'). simpl in Hstep.
      rewrite Hnext in Hstep. simpl in Hstep.
      now rewrite orb_false_r in Hstep. }
  apply (Hd (Z.to_nat (t - s))); lia.
Qed.

(** Over a finite range either some size passes a test or none does. *)
Lemma existsb_range_dec (p : Z -> bool) (lo hi : Z) :
  {exists u : Z, lo <= u <= hi /\ p u = true}
  + {forall u : Z, lo <= u <= hi -> p u = false}.
Proof.
  destruct (Z_lt_le_dec hi lo) as [Hlt|Hle].
  - right. intros u Hu. lia.
  - assert (H : forall n : nat,
               {exists u : Z, lo <= u < lo + Z.of_nat n /\ p u = true}
               + {forall u : Z, lo <= u < lo + Z.of_nat n -> p u = false}).
    { induction n as [|n [IHn|IHn]].
      - right. intros u Hu. lia.
      - left. destruct IHn as [u [Hu Hp]]. exists u. split; [lia|assumption].
      - destruct (p (lo + Z.of_nat n)) eqn:E.
        + left. exists (lo + Z.of_nat n). split; [lia|assumption].
        + right. intros u Hu.
          destruct (Z.eq_dec u (lo + Z.of_nat n)) as [->|Hne];
            [assumption|apply IHn; lia]. }
    destruct (H (Z.to_nat (hi - lo + 1))) as [He|Hn].
    + left. destruct He as [u [Hu Hp]]. exists u. split; [lia|assumption].
    + right. intros u Hu. apply Hn. lia.
Qed.

Section BinarySearch.
Context {Font : Type}.
Variable textbbox : Z * Z -> str -> Font -> bbox.
Variable _get_font : option str -> Z -> Font.
Variable self : ImageGenerator.
Variable text : str.
Variable font_path : option str.

(** With a monotone fit and enough iterations for the range, the loop
    ends on the largest size of the range that fits, and on [best] when
    none does. *)
Lemma auto_size_loop_exact (n : nat) :
  forall lo hi best : Z,
    hi - lo + 1 < 2 ^ Z.of_nat n ->
    fit_monotone (size_fits textbbox _get_font self text font_path) lo hi ->
    let r := auto_size_loop textbbox _get_font self text font_path n lo hi
               best in
    ((forall s : Z,
         lo <= s <= hi ->
         size_fits textbbox _get_font self text font_path s = false) ->
     r = best)
    /\ (forall s : Z,
           lo <= s <= hi ->
           size_fits textbbox _get_font self text font_path s = true ->
           lo <= r <= hi
           /\ size_fits textbbox _get_font self text font_path r = true
           /\ forall t : Z,
               r < t <= hi ->
               size_fits textbbox _get_font self text font_path t = false).
Proof.
  induction n as [|n IH]; intros lo hi best Hsize Hmono; cbn zeta.
  - simpl in Hsize. split; [reflexivity|]. intros s Hs. lia.
  - cbn [auto_size_loop].
    destruct (hi <? lo) eqn:Hr.
    + apply Z.ltb_lt in Hr. split; [reflexivity|]. intros s Hs. lia.
    + apply Z.ltb_ge in Hr.
      set (mid := (lo + hi) / 2).
      assert (Hmid : lo <= mid <= hi).
      { unfold mid. split.
        - apply Z.div_le_lower_bound; lia.
        - apply Z.div_le_upper_bound; lia. }
      assert (Hmid2 : 2 * mid <= lo + hi < 2 * mid + 2).
      { unfold mid. pose proof (Z.mul_div_le (lo + hi) 2 ltac:(lia)).
        pose proof (Z.mul_succ_div_gt (lo + hi) 2 ltac:(lia)). lia. }
      assert (Hpow : 2 ^ Z.of_nat (S n) = 2 * 2 ^ Z.of_nat n).
      { rewrite Nat2Z.inj_succ, Z.pow_succ_r by lia. reflexivity. }
      rewrite Hpow in Hsize.
      destruct (size_fits textbbox _get_font self text font_path mid) eqn:Hf.
      * assert (Hsize' : hi - (mid + 1) + 1 < 2 ^ Z.of_nat n) by lia.
        assert (Hmono' : fit_monotone
                           (size_fits textbbox _get_font self text font_path)
                           (mid + 1) hi).
        { intros s t H1 H2 H3. apply Hmono; lia. }
        destruct (IH (mid + 1) hi mid Hsize' Hmono') as [Hnone Hsome].
        cbn zeta in Hnone, Hsome.
        split.
        -- intros Hall. rewrite (Hall mid Hmid) in Hf. discriminate.
        -- intros s Hs Hfs.
           destruct (existsb_range_dec
                       (size_fits textbbox _get_font self text font_path)
                       (mid + 1) hi) as [[u [Hu Hfu]]|Hno].
           ++ destruct (Hsome u Hu Hfu) as (Hr1 & Hr2 & Hr3).
              split; [lia|]. split; [assumption|]. exact Hr3.
           ++ rewrite (Hnone Hno). split; [lia|]. split; [assumption|].
              intros t Ht. apply Hno. lia.
      * assert (Hsize' : (mid - 1) - lo + 1 < 2 ^ Z.of_nat n) by lia.
        assert (Hmono' : fit_monotone
                           (size_fits textbbox _get_font self text font_path)
                           lo (mid - 1)).
        { intros s t H1 H2 H3. apply Hmono; lia. }
        assert (Hhigh : forall t : Z,
                   mid <= t <= hi ->
                   size_fits textbbox _get_font self text font_path t = false).
        { intros t Ht.
          destruct (size_fits textbbox _get_font self text font_path t) eqn:E;
            [|reflexivity].
          rewrite (Hmono mid t) in Hf by (lia || assumption). discriminate. }
        destruct (IH lo (mid - 1) best Hsize' Hmono') as [Hnone Hsome].
        cbn zeta in Hnone, Hsome.
        split.
        -- intros Hall. apply Hnone. intros s Hs. apply Hall. lia.
        -- intros s Hs Hfs.
           assert (Hs' : lo <= s <= mid - 1).
           { destruct (Z_lt_le_dec s mid); [lia|].
             rewrite Hhigh in Hfs by lia. discriminate. }
           destruct (Hsome s Hs' Hfs) as (Hr1 & Hr2 & Hr3).
           split; [lia|]. split; [assumption|].
           intros t Ht. destruct (Z_lt_le_dec t mid).
           ++ apply Hr3. lia.
           ++ apply Hhigh. lia.
Qed.

End BinarySearch.

(** X1. When the fit is monotone over the configured range (a size that
    fits leaves the smaller ones fitting) and the range holds fewer than
    1024 sizes, the ten iterations of [calculate_auto_font_size] find the
    largest size of [[MIN_AUTO_FONT_SIZE, MAX_AUTO_FONT_SIZE]] that fits:
    it fits, no larger size of the range does, and when no size fits the
    result is [MIN_AUTO_FONT_SIZE]. *)
Theorem auto_size_exact :
  forall (Font : Type) (textbbox : Z * Z -> str -> Font -> bbox)
         (_get_font : option str -> Z -> Font)
         (self : ImageGenerator) (text : str) (font_path : option str),
    let fits := size_fits textbbox _get_font self text font_path in
    let lo := MIN_AUTO_FONT_SIZE (config self) in
    let hi := MAX_AUTO_FONT_SIZE (config self) in
    let r := calculate_auto_font_size textbbox _get_font self text font_path in
    hi - lo < 1023 ->
    fit_monotone fits lo hi ->
    ((forall s : Z, lo <= s <= hi -> fits s = false) -> r = lo)
    /\ (forall s : Z,
           lo <= s <= hi -> fits s = true ->
           s <= r <= hi /\ fits r = true
           /\ forall t : Z, r < t <= hi -> fits t = false).
Proof.
  intros Font textbbox _get_font self text font_path fits lo hi r Hsize Hmono.
  assert (Hpow : hi - lo + 1 < 2 ^ Z.of_nat 10)
    by (change (2 ^ Z.of_nat 10) with 1024; lia).
  destruct (auto_size_loop_exact textbbox _get_font self text font_path 10
              lo hi lo Hpow Hmono) as [Hnone Hsome].
  cbn zeta in Hnone, Hsome.
  change (auto_size_loop textbbox _get_font self text font_path 10 lo hi lo)
    with r in Hnone, Hsome.
  change (size_fits textbbox _get_font self text font_path)
    with fits in Hnone, Hsome.
  split; [exact Hnone|].
  intros s Hs Hfs.
  destruct (Hsome s Hs Hfs) as (Hr1 & Hr2 & Hr3).
  split; [|split; assumption].
  split; [|lia].
  destruct (Z_le_gt_dec s r) as [Hle|Hgt]; [assumption|].
  rewrite Hr3 in Hfs by lia. discriminate.
Qed.

Lemma auto_size_exact_witness :
  200 - 10 < 1023
  /\ fit_monotone
       (size_fits fixed_bbox (fun _ size => size) example_generator
          (lit "hello world") None) 10 200
  /\ calculate_auto_font_size fixed_bbox (fun _ size => size)
       example_generator (lit "hello world") None = 44
  /\ forall t : Z,
       calculate_auto_font_size fixed_bbox (fun _ size => size)
         example_generator (lit "hello world") None < t <= 200 ->
       size_fits fixed_bbox (fun _ size => size) example_generator
         (lit "hello world") None t = false.
Proof.
  assert (H1 : 200 - 10 < 1023) by lia.
  assert (H2 : fit_monotone
                 (size_fits fixed_bbox (fun _ size => size) example_generator
                    (lit "hello world") None) 10 200).
  { apply fit_monotone_b_sound. vm_compute. reflexivity. }
  destruct (auto_size_exact Z fixed_bbox (fun _ size => size)
              example_generator (lit "hello world") None H1 H2) as [_ H].
  assert (H33 : size_fits fixed_bbox (fun _ size => size) example_generator
                  (lit "hello world") None 33 = true)
    by (vm_compute; reflexivity).
  destruct (H 33 ltac:(simpl; lia) H33) as (_ & _ & H3).
  split; [exact H1|]. split; [exact H2|].
  split; [vm_compute; reflexivity|exact H3].
Defined.

(** X2. The size [calculate_auto_font_size] returns is never below
    [MIN_AUTO_FONT_SIZE], also when nothing fits, and never above
    [MAX_AUTO_FONT_SIZE] when the configured range is not empty. *)
Theorem auto_size_within_bounds :
  forall (Font : Type) (textbbox : Z * Z -> str -> Font -> bbox)
         (_get_font : option str -> Z -> Font)
         (self : ImageGenerator) (text : str) (font_path : option str),
    let r := calculate_auto_font_size textbbox _get_font self text font_path in
    MIN_AUTO_FONT_SIZE (config self) <= r
    /\ (MIN_AUTO_FONT_SIZE (config self) <= MAX_AUTO_FONT_SIZE (config self) ->
        r <= MAX_AUTO_FONT_SIZE (config self)).
Proof.
  intros Font textbbox _get_font self text font_path r.
  destruct (auto_size_loop_spec textbbox _get_font self text font_path 10
              (MIN_AUTO_FONT_SIZE (config self))
              (MAX_AUTO_FONT_SIZE (config self))
              (MIN_AUTO_FONT_SIZE (config self))) as [Hrange Hres].
  cbn zeta in Hrange, Hres.
  change (auto_size_loop textbbox _get_font self text font_path 10
            (MIN_AUTO_FONT_SIZE (config self))
            (MAX_AUTO_FONT_SIZE (config self))
            (MIN_AUTO_FONT_SIZE (config self))) with r in Hres.
  rewrite Forall_forall in Hrange.
  destruct (filter _ _) as [|s ss] eqn:E.
  - rewrite Hres. lia.
  - destruct Hres as [Hin _]. rewrite <- E in Hin.
    apply filter_In in Hin as [Hin _]. specialize (Hrange r Hin). lia.
Qed.

(** ** [split_text_into_lines] *)

Lemma total_length_app (a b : list str) :
  total_length (a ++ b) = total_length a + total_length b.
Proof.
  unfold total_length. induction a as [|x a IH]; simpl; [reflexivity|].
  rewrite IH. lia.
Qed.

Lemma length_join_SP (ws : list str) :
  ws <> [] ->
  Z.of_nat (length (join SP ws)) = total_length ws + Z.of_nat (length ws) - 1.
Proof.
  induction ws as [|w ws IH]; intros H; [congruence|].
  destruct ws as [|w' ws'].
  - unfold total_length. simpl. lia.
  - change (join SP (w :: w' :: ws')) with (w ++ SP ++ join SP (w' :: ws')).
    rewrite !length_app. rewrite !Nat2Z.inj_add, IH by discriminate.
    unfold total_length. simpl length. simpl map. simpl fold_right. lia.
Qed.

Lemma measure_unit_pitch (s : str) :
  measure fixed_bbox 1 s = Z.of_nat (length s).
Proof. unfold measure, fixed_bbox, bbox2, bbox0. lia. Qed.

Lemma total_length_single (w : str) : total_length [w] = Z.of_nat (length w).
Proof. unfold total_length. simpl. lia. Qed.

Lemma total_length_nil : total_length [] = 0.
Proof. reflexivity. Qed.

Lemma split_wrap_step (max_chars_per_line : Z)
    (s : list str * list str * Z) (w : list str * list str) (word : str) :
  split_wrap_rel max_chars_per_line s w ->
  split_wrap_rel max_chars_per_line
    (split_lines_step max_chars_per_line s word)
    (wrap_step fixed_bbox 1 max_chars_per_line w word).
Proof.
  destruct s as [[L cur] clen], w as [L' cur'].
  intros [Hlen Hrel]. simpl in Hlen, Hrel. subst clen.
  unfold split_lines_step, wrap_step.
  change (bbox2 (fixed_bbox (0, 0) (join SP (cur' ++ [word])) 1)
          - bbox0 (fixed_bbox (0, 0) (join SP (cur' ++ [word])) 1))
    with (measure fixed_bbox 1 (join SP (cur' ++ [word]))).
  rewrite measure_unit_pitch.
  rewrite length_join_SP by (destruct cur'; discriminate).
  rewrite total_length_app, length_app, total_length_single.
  cbn [length].
  destruct Hrel as [[-> ->]|(w0 & -> & -> & -> & Hlong)].
  - replace (total_length cur' + Z.of_nat (length word)
             + Z.of_nat (length cur' + 1) - 1)
      with (total_length cur' + Z.of_nat (length word)
            + Z.of_nat (length cur')) by lia.
    destruct (_ <=? max_chars_per_line) eqn:E.
    + split; cbn [fst snd]; [|left; auto].
      now rewrite total_length_app, total_length_single.
    + apply Z.leb_gt in E. destruct cur' as [|c cs].
      * split; cbn [fst snd]; [now rewrite total_length_single|].
        right. exists word. repeat split.
        rewrite total_length_nil in E. cbn [length] in E. lia.
      * split; cbn [fst snd]; [now rewrite total_length_single|left; auto].
  - assert (E1 : (total_length [w0] + Z.of_nat (length word)
                  + Z.of_nat (length [w0]) <=? max_chars_per_line) = false).
    { apply Z.leb_gt. rewrite total_length_single. cbn [length]. lia. }
    rewrite E1. clear E1. rewrite total_length_nil. cbn [length Nat.add].
    replace (0 + Z.of_nat (length word) + Z.of_nat 1 - 1)
      with (Z.of_nat (length word)) by lia.
    destruct (_ <=? max_chars_per_line) eqn:E.
    + split; cbn [fst snd app]; [now rewrite total_length_single|left; auto].
    + apply Z.leb_gt in E.
      split; cbn [fst snd]; [now rewrite total_length_single|].
      right. exists word. cbn [join]. repeat split. exact E.
Qed.

Lemma split_wrap_fold (max_chars_per_line : Z) (words : list str) :
  forall (s : list str * list str * Z) (w : list str * list str),
    split_wrap_rel max_chars_per_line s w ->
    split_wrap_rel max_chars_per_line
      (fold_left (split_lines_step max_chars_per_line) words s)
      (fold_left (wrap_step fixed_bbox 1 max_chars_per_line) words w).
Proof.
  induction words as [|x xs IH]; intros s w H; [exact H|].
  simpl. apply IH. now apply split_wrap_step.
Qed.

(** X3. [split_text_into_lines] is the pixel wrapper run at one pixel per
    character: on a text with a word it returns the lines of
    [_wrap_text_for_size] for that measurer, and on a text without a word
    it returns no line at all (where the wrapper hands the text back). *)
Theorem split_text_is_unit_pitch_wrap :
  forall (text : str) (max_chars_per_line : Z),
    split_text_into_lines text max_chars_per_line
    = match split text with
      | [] => []
      | _ :: _ => _wrap_text_for_size fixed_bbox text 1 max_chars_per_line
      end.
Proof.
  intros text n.
  unfold split_text_into_lines, _wrap_text_for_size.
  assert (H0 : split_wrap_rel n ([], [], 0) ([], [])).
  { split; simpl; [reflexivity|left; auto]. }
  pose proof (split_wrap_fold n (split text) _ _ H0) as H.
  pose proof (wrap_lines_spec fixed_bbox 1 n (split text)) as Hw.
  destruct (fold_left (split_lines_step n) (split text) ([], [], 0))
    as [[L cur] clen].
  destruct (fold_left (wrap_step fixed_bbox 1 n) (split text) ([], []))
    as [L' cur'].
  cbv zeta in Hw. destruct Hw as [Hg _].
  destruct H as [_ Hrel]. simpl in Hrel.
  assert (E : match cur with [] => L | _ :: _ => L ++ [join SP cur] end
              = match cur' with [] => L' | _ :: _ => L' ++ [join SP cur'] end).
  { destruct Hrel as [[-> ->]|(w0 & -> & -> & -> & _)]; reflexivity. }
  rewrite E.
  destruct (split text) as [|w ws] eqn:Hs.
  - now apply grouped_nil_inv in Hg.
  - assert (Hne : w :: ws <> []) by discriminate.
    pose proof (grouped_nonempty _ _ Hne Hg) as Hlines.
    destruct (match cur' with [] => L' | _ :: _ => L' ++ [join SP cur'] end);
      [congruence|reflexivity].
Qed.

(** X4. The lines of [split_text_into_lines] hold exactly the words of
    the text, in order; each line is at most [max_chars_per_line]
    characters long, or is a single word of the text that is longer than
    the limit by itself; and there is no line exactly when the text has
    no word. *)
Theorem split_text_lines_bounded :
  forall (text : str) (max_chars_per_line : Z),
    let lines := split_text_into_lines text max_chars_per_line in
    split (join SP lines) = split text
    /\ Forall (fun l =>
                 Z.of_nat (length l) <= max_chars_per_line
                 \/ (In l (split text)
                     /\ max_chars_per_line < Z.of_nat (length l)))
              lines
    /\ (lines = [] <-> split text = []).
Proof.
  intros text n lines. subst lines.
  rewrite split_text_is_unit_pitch_wrap.
  destruct (split text) as [|w ws] eqn:Hs.
  - repeat split; auto.
  - assert (Hne : split text <> []) by (rewrite Hs; discriminate).
    destruct (wrap_for_size_words fixed_bbox 1 n text Hne) as [Hg Hok].
    rewrite <- Hs. split; [apply wrap_for_size_split_join|]. split.
    + eapply Forall_impl; [|exact Hok].
      intros l. unfold line_ok. rewrite measure_unit_pitch. tauto.
    + split; intros H; [|congruence].
      exfalso. exact (grouped_nonempty _ _ Hne Hg H).
Qed.

Example split_text_demo :
  split_text_into_lines (lit "the quick  brown fox jumps over") 10
  = [lit "the quick"; lit "brown fox"; lit "jumps over"]
  /\ split_text_into_lines (lit "a extraordinarily b") 5
     = [lit "a"; lit "extraordinarily"; lit "b"]
  /\ split_text_into_lines (lit "   ") 5 = [].
Proof. vm_compute. repeat split; reflexivity. Qed.

(** ** Font resolution *)

Section FontFacts.
Context {Font : Type}.
Variable path_exists : str -> bool.
Variable truetype : str -> Z -> Result Font.
Variable load_default : Font.
Variable splitext_root : str -> str.

Lemma try_except_ok {A : Type} (a : Result A) (x : A) :
  exists y : A, try_except a (Ok x) = Ok y.
Proof. destruct a as [y|e]; simpl; eauto. Qed.

Lemma get_font_returns (dflt font_path : option str) (font_size : Z) :
  exists f : Font,
    _get_font path_exists truetype load_default dflt font_path font_size
    = Ok f.
Proof. unfold _get_font. apply try_except_ok. Qed.

Lemma get_formatted_font_returns (dflt base_font_path : option str)
    (font_size : Z) (bold italic : bool) :
  exists f : Font,
    _get_formatted_font path_exists truetype load_default splitext_root dflt
      base_font_path font_size bold italic = Ok f.
Proof.
  unfold _get_formatted_font.
  destruct (formatted_font_try _ _ _ _ _ _ _ _) as [[f|]|e];
    eauto using get_font_returns.
Qed.

Lemma get_formatted_font_plain (dflt base_font_path : option str)
    (font_size : Z) :
  _get_formatted_font path_exists truetype load_default splitext_root dflt
    base_font_path font_size false false
  = _get_font path_exists truetype load_default dflt base_font_path
      font_size.
Proof.
  unfold _get_formatted_font, formatted_font_try, _get_font. cbn [andb].
  destruct base_font_path as [[|c p]|]; cbn iota beta.
  - destruct dflt as [[|d q]|]; try reflexivity.
    destruct (truetype (d :: q) font_size); reflexivity.
  - destruct (path_exists (c :: p)).
    + destruct (truetype (c :: p) font_size); reflexivity.
    + destruct dflt as [[|d q]|]; try reflexivity.
      destruct (truetype (d :: q) font_size); reflexivity.
  - destruct dflt as [[|d q]|]; try reflexivity.
    destruct (truetype (d :: q) font_size); reflexivity.
Qed.

End FontFacts.

(** X5. Font resolution never raises: whatever files exist and whatever
    [ImageFont.truetype] does with them, [_get_font] and
    [_get_formatted_font] return a font, every exception of a load being
    caught on the way to the built-in default. *)
Theorem font_resolution_never_raises :
  forall (Font : Type) (path_exists : str -> bool)
         (truetype : str -> Z -> Result Font) (load_default : Font)
         (splitext_root : str -> str)
         (_default_font_path font_path : option str) (font_size : Z)
         (bold italic : bool),
    (exists f : Font,
        _get_font path_exists truetype load_default _default_font_path
          font_path font_size = Ok f)
    /\ (exists f : Font,
           _get_formatted_font path_exists truetype load_default
             splitext_root _default_font_path font_path font_size bold
             italic = Ok f).
Proof.
  intros. split.
  - apply get_font_returns.
  - apply get_formatted_font_returns.
Qed.

(** X6. Asked for neither bold nor italic, [_get_formatted_font] returns
    the font [_get_font] returns for the same path and size, so the
    unformatted parts of a marked-up text are set in the base font. *)
Theorem plain_formatted_font_is_base_font :
  forall (Font : Type) (path_exists : str -> bool)
         (truetype : str -> Z -> Result Font) (load_default : Font)
         (splitext_root : str -> str)
         (_default_font_path font_path : option str) (font_size : Z),
    _get_formatted_font path_exists truetype load_default splitext_root
      _default_font_path font_path font_size false false
    = _get_font path_exists truetype load_default _default_font_path
        font_path font_size.
Proof. intros. apply get_formatted_font_plain. Qed.

(** ** The upload client *)

Lemma startswith_app (p s : str) : startswith (p ++ s) p = true.
Proof.
  induction p as [|c p IH]; [reflexivity|].
  cbn. rewrite Ascii.eqb_refl. exact IH.
Qed.

Lemma endswith_app (s t : str) : endswith (s ++ t) t = true.
Proof. unfold endswith. rewrite rev_app_distr. apply startswith_app. Qed.

Lemma int_in_spec (x : Z) (l : list Z) : int_in x l = true <-> In x l.
Proof.
  unfold int_in. rewrite existsb_exists. split.
  - intros [y [Hy E]]. apply Z.eqb_eq in E. now subst.
  - intros H. exists x. split; [exact H | apply Z.eqb_refl].
Qed.

Section UploadFacts.
Context {Img Bytes : Type}.
Variable dc : DisplayConfig.
Variable path_exists : str -> bool.
Variable image_open : str -> Result Img.
Variable exif_transpose : Img -> Img.
Variable img_mode : Img -> str.
Variable convert_rgb : Img -> Img.
Variable img_size : Img -> Z * Z.
Variable img_crop : Img -> Z * Z * Z * Z -> Img.
Variable img_resize : Img -> Z * Z -> Img.
Variable save_jpeg : Img -> Z -> Bytes.
Variable post : list (Request Bytes) -> Request Bytes -> PostOutcome.

(** The file name [upload_image] sends. *)
Lemma upload_image_cases (self : DisplayUploader)
    (log : list (Request Bytes)) (slot : Z) (image : ImageArg Img Bytes)
    (filename : option str) :
  let out :=
    upload_image dc path_exists image_open exif_transpose img_mode
      convert_rgb img_size img_crop img_resize save_jpeg post self log slot
      image filename in
  (fst out = log /\ exists e, snd out = Raise e)
  \/ (exists req,
        fst out = log ++ [req]
        /\ int_in slot (SLOTS dc) = true
        /\ req_url req = base_url self ++ lit "/upload"
        /\ req_timeout req = timeout self
        /\ req_filename req
           = match filename with
             | None => lit "file" ++ py_str_int slot ++ lit ".jpg"
             | Some f =>
                 if endswith f (lit ".jpg") then f else f ++ lit ".jpg"
             end
        /\ match snd out with
           | Ok res =>
               result_slot res = slot
               /\ result_filename res = req_filename req
               /\ (success res = true <-> status_code res = Some 200)
           | Raise e => post log req = PostRaised e
           end).
Proof.
  unfold upload_image.
  destruct (int_in slot (SLOTS dc)) eqn:Hs; cbn [negb].
  2:{ left. cbn. eauto. }
  set (jb := match image with
             | ImagePath p => _ | ImagePIL i => _
             | ImageBytes b => _ | ImageOther => _ end).
  destruct jb as [jpeg_bytes|e]; cbn zeta.
  2:{ left. cbn. eauto. }
  right. unfold _upload_to_display. cbn [fst snd].
  eexists. split; [reflexivity|].
  cbn [req_url req_timeout req_filename].
  repeat (split; [reflexivity|]).
  split.
  { destruct filename as [f|]; [|reflexivity].
    destruct (endswith f (lit ".jpg")); reflexivity. }
  match goal with |- context [post ?l ?r] => destruct (post l r) eqn:Hp end.
  - cbn. repeat (split; [reflexivity|]). split.
    + intros H. apply Z.eqb_eq in H. now subst.
    + intros H. injection H as ->. reflexivity.
  - cbn. repeat (split; [reflexivity|]). split; discriminate.
  - reflexivity.
Qed.


End UploadFacts.

(** X7. One call of [upload_image] makes at most one request.  If it
    makes none it raises, and it makes none when the slot is not one of
    the configured slots (then it raises [ValueError]).  The request it
    makes goes to [base_url/upload] with the uploader's timeout and under
    a file name that ends in [.jpg]; a result that is returned carries the
    slot and that file name, and reports success exactly when the status
    code is 200. *)
Theorem upload_image_request_wellformed :
  forall (Img Bytes : Type) (dc : DisplayConfig)
         (path_exists : str -> bool) (image_open : str -> Result Img)
         (exif_transpose : Img -> Img) (img_mode : Img -> str)
         (convert_rgb : Img -> Img) (img_size : Img -> Z * Z)
         (img_crop : Img -> Z * Z * Z * Z -> Img)
         (img_resize : Img -> Z * Z -> Img) (save_jpeg : Img -> Z -> Bytes)
         (post : list (Request Bytes) -> Request Bytes -> PostOutcome)
         (self : DisplayUploader) (log : list (Request Bytes)) (slot : Z)
         (image : ImageArg Img Bytes) (filename : option str),
    let out :=
      upload_image dc path_exists image_open exif_transpose img_mode
        convert_rgb img_size img_crop img_resize save_jpeg post self log
        slot image filename in
    ((fst out = log /\ exists e, snd out = Raise e)
     \/ (exists req,
           fst out = log ++ [req]
           /\ In slot (SLOTS dc)
           /\ req_url req = base_url self ++ lit "/upload"
           /\ req_timeout req = timeout self
           /\ endswith (req_filename req) (lit ".jpg") = true
           /\ (forall res, snd out = Ok res ->
                 result_slot res = slot
                 /\ result_filename res = req_filename req
                 /\ (success res = true <-> status_code res = Some 200))))
    /\ (~ In slot (SLOTS dc) ->
        fst out = log /\ snd out = Raise ValueError).
Proof.
  intros. split.
  - destruct (upload_image_cases dc path_exists image_open exif_transpose
                img_mode convert_rgb img_size img_crop img_resize save_jpeg
                post self log slot image filename)
      as [H | [req [Hl [Hs [Hu [Ht [Hf Hr]]]]]]].
    + left. exact H.
    + right. exists req. fold out in Hl, Hr.
      split; [exact Hl|]. split; [now apply int_in_spec|].
      split; [exact Hu|]. split; [exact Ht|]. split.
      * rewrite Hf. destruct filename as [f|].
        -- destruct (endswith f (lit ".jpg")) eqn:E;
             [exact E | apply endswith_app].
        -- rewrite app_assoc. apply endswith_app.
      * intros res Hres. rewrite Hres in Hr. exact Hr.
  - intros Hn. subst out. unfold upload_image.
    destruct (int_in slot (SLOTS dc)) eqn:Hs.
    + apply int_in_spec in Hs. contradiction.
    + split; reflexivity.
Qed.


(** X9. The box [_process_pil_image] crops to is a square of side
    [min(w, h)] that lies inside the image and is centred in it: the
    margins left and right of it, and above and below it, differ by at
    most one pixel, and the box spans the whole of the shorter side. *)
Theorem crop_box_centred_square :
  forall w h : Z,
    let '(x0, y0, x1, y1) := crop_box w h in
    x1 - x0 = Z.min w h
    /\ y1 - y0 = Z.min w h
    /\ 0 <= x0 /\ x1 <= w /\ 0 <= y0 /\ y1 <= h
    /\ 0 <= (w - x1) - x0 <= 1
    /\ 0 <= (h - y1) - y0 <= 1
    /\ ((x0 = 0 /\ x1 = w) \/ (y0 = 0 /\ y1 = h)).
Proof.
  intros w h. unfold crop_box. cbn zeta.
  pose proof (Z.div_mod (w - Z.min w h) 2 ltac:(lia)) as Hw.
  pose proof (Z.mod_pos_bound (w - Z.min w h) 2 ltac:(lia)) as Hw'.
  pose proof (Z.div_mod (h - Z.min w h) 2 ltac:(lia)) as Hh.
  pose proof (Z.mod_pos_bound (h - Z.min w h) 2 ltac:(lia)) as Hh'.
  destruct (Z.min_spec w h) as [[Hlt E] | [Hle E]]; rewrite E in *.
  - replace (w - w) with 0 in * by lia. rewrite Z.div_0_l in * by lia.
    repeat split; lia.
  - replace (h - h) with 0 in * by lia. rewrite Z.div_0_l in * by lia.
    repeat split; lia.
Qed.

(** ** Colours and font sizes *)

Lemma In_all_ascii (c : ascii) : In c all_ascii.
Proof.
  unfold all_ascii. apply in_map_iff. exists (nat_of_ascii c). split.
  - apply ascii_nat_embedding.
  - apply in_seq. pose proof (nat_ascii_bounded c). lia.
Qed.

Lemma ascii_forall (p : ascii -> bool) :
  forallb p all_ascii = true -> forall c, p c = true.
Proof. intros H c. eapply forallb_forall in H; [exact H | apply In_all_ascii]. Qed.

Lemma str_eqb_eq (a b : str) : str_eqb a b = true -> a = b.
Proof.
  revert b. induction a as [|x a IH]; intros [|y b] H; cbn in H;
    try discriminate; [reflexivity|].
  apply andb_true_iff in H as [H1 H2].
  apply Ascii.eqb_eq in H1. subst. f_equal. now apply IH.
Qed.

Lemma dict_get_without {V : Type} (p : ascii -> bool) (d : list (str * V))
    (key : str) :
  keys_without p d = true -> existsb p key = true -> dict_get key d = None.
Proof.
  intros Hd Hk. induction d as [|[k v] d IH]; [reflexivity|].
  cbn in Hd. apply andb_true_iff in Hd as [H1 H2]. cbn.
  destruct (str_eqb key k) eqn:E.
  - apply str_eqb_eq in E. subst k. rewrite Hk in H1. discriminate.
  - now apply IH.
Qed.

Lemma dict_get_In {V : Type} (d : list (str * V)) (key : str) (v : V) :
  dict_get key d = Some v -> exists k, In (k, v) d.
Proof.
  induction d as [|[k w] d IH]; cbn; [discriminate|].
  destruct (str_eqb key k).
  - intros [= ->]. exists k. now left.
  - intros H. destruct (IH H) as [k' Hk]. exists k'. now right.
Qed.

Lemma lstrip_id (s : str) :
  forallb (fun c => negb (isspace c)) s = true -> lstrip s = s.
Proof.
  destruct s as [|c s]; [reflexivity|]. cbn. intros H.
  apply andb_true_iff in H as [H _]. destruct (isspace c); [discriminate|].
  reflexivity.
Qed.

Lemma strip_id (s : str) :
  forallb (fun c => negb (isspace c)) s = true -> strip s = s.
Proof.
  intros H. unfold strip, rstrip. rewrite (lstrip_id s H).
  rewrite lstrip_id.
  - apply rev_involutive.
  - apply forallb_forall. intros c Hc. apply in_rev in Hc.
    eapply forallb_forall in H; eauto.
Qed.

Lemma lower_id (s : str) :
  forallb (fun c => Ascii.eqb (lower_char c) c) s = true -> lower s = s.
Proof.
  induction s as [|c s IH]; [reflexivity|]. cbn. intros H.
  apply andb_true_iff in H as [H1 H2]. apply Ascii.eqb_eq in H1.
  unfold lower in IH. rewrite H1, IH; auto.
Qed.

Lemma split_on_single (sep : ascii) (a : str) :
  char_in sep a = false -> split_on sep a = [a].
Proof.
  induction a as [|c a IH]; [reflexivity|]. cbn. intros H.
  apply orb_false_iff in H as [H1 H2].
  rewrite Ascii.eqb_sym, H1. rewrite (IH H2). reflexivity.
Qed.

Lemma split_on_app (sep : ascii) (a rest : str) :
  char_in sep a = false ->
  split_on sep (a ++ sep :: rest) = a :: split_on sep rest.
Proof.
  induction a as [|c a IH]; cbn.
  - intros _. rewrite Ascii.eqb_refl. reflexivity.
  - intros H. apply orb_false_iff in H as [H1 H2].
    rewrite Ascii.eqb_sym, H1. rewrite (IH H2). reflexivity.
Qed.

(** What being a digit excludes. *)
Lemma is_digit_facts (c : ascii) :
  is_digit c = true ->
  isspace c = false /\ lower_char c = c /\ Ascii.eqb "," c = false
  /\ Ascii.eqb c "#" = false.
Proof.
  intros H.
  assert (A : forallb
                (fun c => negb (is_digit c)
                          || (negb (isspace c)
                              && Ascii.eqb (lower_char c) c
                              && negb (Ascii.eqb "," c)
                              && negb (Ascii.eqb c "#")))
                all_ascii = true) by (vm_compute; reflexivity).
  pose proof (ascii_forall _ A c) as B. cbn beta in B. rewrite H in B.
  cbn [negb orb] in B.
  apply andb_true_iff in B as [B B4]. apply andb_true_iff in B as [B B3].
  apply andb_true_iff in B as [B1 B2].
  apply negb_true_iff in B1, B3, B4. apply Ascii.eqb_eq in B2. auto.
Qed.

Lemma digits_facts (s : str) :
  forallb is_digit s = true ->
  forallb (fun c => negb (isspace c)) s = true
  /\ forallb (fun c => Ascii.eqb (lower_char c) c) s = true
  /\ char_in "," s = false.
Proof.
  induction s as [|c s IH]; [cbn; auto|]. intros H.
  cbn [forallb] in H. apply andb_true_iff in H as [H1 H2].
  destruct (is_digit_facts c H1) as [A [B [C _]]].
  destruct (IH H2) as [IA [IB IC]].
  unfold char_in in *. cbn [forallb existsb].
  rewrite A, B, C, IA, IB, IC, Ascii.eqb_refl. cbn. auto.
Qed.

(** The decimal numeral of a number from 0 to 255 is made of digits and
    reads back as the number. *)
Lemma small_numeral (m n : Z) :
  0 <= n <= 255 ->
  forallb is_digit (py_str_int n) = true
  /\ (exists c rest, py_str_int n = c :: rest)
  /\ py_int m 10 (py_str_int n) = Some n.
Proof.
  intros Hn.
  assert (A : all_from
                (fun n =>
                   forallb is_digit (py_str_int n)
                   && match py_str_int n with [] => false | _ :: _ => true end
                   && match py_int m 10 (py_str_int n) with
                      | Some v => v =? n
                      | None => false
                      end)
                0 256 = true) by (vm_compute; reflexivity).
  pose proof (all_from_spec _ _ _ A n ltac:(lia)) as B. cbn beta in B.
  apply andb_true_iff in B as [B B3]. apply andb_true_iff in B as [B1 B2].
  split; [exact B1|]. split.
  - destruct (py_str_int n) as [|c rest]; [discriminate|eauto].
  - destruct (py_int m 10 (py_str_int n)) as [v|]; [|discriminate].
    apply Z.eqb_eq in B3. now subst.
Qed.

Lemma hex_digit_nospace (c : ascii) (v : Z) :
  hex_digit c v -> isspace c = false.
Proof.
  intros [H _].
  assert (A : forallb
                (fun c => match digit_value c with
                          | Some _ => negb (isspace c)
                          | None => true
                          end)
                all_ascii = true) by (vm_compute; reflexivity).
  pose proof (ascii_forall _ A c) as B. cbn beta in B. rewrite H in B.
  now apply negb_true_iff in B.
Qed.

(** Two hexadecimal digits read as one byte. *)
Lemma hex_pair (m : Z) (a b : ascii) (va vb : Z) :
  hex_digit a va -> hex_digit b vb ->
  py_int m 16 [lower_char a; lower_char b] = Some (16 * va + vb).
Proof.
  intros [Ha Ha'] [Hb Hb'].
  assert (A : forallb
                (fun a =>
                   forallb
                     (fun b =>
                        match digit_value a, digit_value b with
                        | Some va, Some vb =>
                            negb ((va <? 16) && (vb <? 16))
                            || match
                                 py_int m 16 [lower_char a; lower_char b]
                               with
                               | Some v => v =? 16 * va + vb
                               | None => false
                               end
                        | _, _ => true
                        end)
                     all_ascii)
                all_ascii = true) by (vm_compute; reflexivity).
  pose proof (ascii_forall _ (ascii_forall _ A a) b) as B. cbn beta in B.
  rewrite Ha, Hb in B.
  apply Z.ltb_lt in Ha', Hb'. rewrite Ha', Hb' in B. cbn [andb negb orb] in B.
  destruct (py_int m 16 [lower_char a; lower_char b]) as [v|];
    [|discriminate].
  apply Z.eqb_eq in B. now subst.
Qed.

(** Whatever two characters are read in base 16, the value is between
    -15 and 255. *)
Lemma hex_pair_range (m : Z) (a b : ascii) (v : Z) :
  py_int m 16 [a; b] = Some v -> -15 <= v <= 255.
Proof.
  intros H.
  assert (A : forallb
                (fun a =>
                   forallb
                     (fun b =>
                        match py_int m 16 [a; b] with
                        | Some v => (-15 <=? v) && (v <=? 255)
                        | None => true
                        end)
                     all_ascii)
                all_ascii = true) by (vm_compute; reflexivity).
  pose proof (ascii_forall _ (ascii_forall _ A a) b) as B. cbn beta in B.
  rewrite H in B. lia.
Qed.

Lemma channels_within_weaken (lo hi lo' hi' : Z) (c : Color) :
  lo' <= lo -> hi <= hi' ->
  channels_within lo hi c -> channels_within lo' hi' c.
Proof. destruct c as [[r g] b]. unfold channels_within. lia. Qed.

Section ParseFacts.
Variable cfg : ImageDefaults.
Variable m : Z.

Lemma parse_rgb_cases (s : str) :
  parse_rgb cfg m s = DEFAULT_TEXT_COLOR cfg
  \/ is_color (parse_rgb cfg m s) = true.
Proof.
  unfold parse_rgb.
  destruct (char_in "," s); [|now left].
  destruct (split_on "," s) as [|p0 [|p1 [|p2 [|p3 ps]]]]; try now left.
  destruct (py_int m 10 (strip p0)) as [r|]; [|now left].
  destruct (py_int m 10 (strip p1)) as [g|]; [|now left].
  destruct (py_int m 10 (strip p2)) as [b|]; [|now left].
  destruct (forallb is_channel [r; g; b]) eqn:E; [|now left].
  right. cbn in E. unfold is_color. rewrite andb_true_r in E.
  rewrite andb_assoc in E. exact E.
Qed.

Lemma valid_palette_default :
  valid_palette cfg = true -> is_color (DEFAULT_TEXT_COLOR cfg) = true.
Proof.
  unfold valid_palette. rewrite !andb_true_iff. tauto.
Qed.

Lemma valid_palette_color (key : str) (c : Color) :
  valid_palette cfg = true ->
  dict_get key (COLORS cfg) = Some c -> is_color c = true.
Proof.
  unfold valid_palette. rewrite !andb_true_iff.
  intros [[[_ _] H] _] Hg. destruct (dict_get_In _ _ _ Hg) as [k Hk].
  eapply forallb_forall in H; [|exact Hk]. exact H.
Qed.

Lemma valid_palette_scheme (key : str) (sc : ColorScheme) :
  valid_palette cfg = true ->
  dict_get key (COLOR_SCHEMES cfg) = Some sc ->
  is_color (scheme_background sc) = true /\ is_color (scheme_text sc) = true.
Proof.
  unfold valid_palette. rewrite !andb_true_iff.
  intros [_ H] Hg. destruct (dict_get_In _ _ _ Hg) as [k Hk].
  eapply forallb_forall in H; [|exact Hk]. cbn in H.
  now apply andb_true_iff in H.
Qed.

Lemma parse_color_range (s : str) (c : Color) :
  valid_palette cfg = true ->
  parse_color cfg m s = Ok c -> channels_within (-15) 255 c.
Proof.
  intros Hv. unfold parse_color. cbn zeta.
  assert (W : forall c, is_color c = true -> channels_within (-15) 255 c).
  { intros c0 H0. apply (channels_within_weaken 0 255); try lia.
    now apply is_color_spec. }
  assert (Wrgb : forall t, channels_within (-15) 255 (parse_rgb cfg m t)).
  { intros t. destruct (parse_rgb_cases t) as [-> | H]; apply W; auto.
    now apply valid_palette_default. }
  destruct (dict_get (lower (strip s)) (COLORS cfg)) as [c0|] eqn:E1.
  { intros [= <-]. apply W. eapply valid_palette_color; eauto. }
  destruct (dict_get (lower (strip s)) (COLOR_SCHEMES cfg)) as [sc|] eqn:E2.
  { intros [= <-]. apply W. eapply valid_palette_scheme; eauto. }
  destruct (startswith (lower (strip s)) (lit "#")).
  2:{ intros [= <-]. apply Wrgb. }
  destruct (Z.of_nat (length (skipn 1 (lower (strip s)))) =? 6) eqn:E3.
  2:{ intros [= <-]. apply Wrgb. }
  apply Z.eqb_eq in E3.
  destruct (skipn 1 (lower (strip s)))
    as [|c1 [|c2 [|c3 [|c4 [|c5 [|c6 [|c7 rest]]]]]]];
    cbn [length] in E3; try lia.
  unfold slice. cbn [firstn skipn].
  destruct (py_int m 16 [c1; c2]) as [r|] eqn:Hr; [|discriminate].
  destruct (py_int m 16 [c3; c4]) as [g|] eqn:Hg; [|discriminate].
  destruct (py_int m 16 [c5; c6]) as [b|] eqn:Hb; [|discriminate].
  intros [= <-]. unfold channels_within.
  apply hex_pair_range in Hr, Hg, Hb. auto.
Qed.

Lemma parse_color_raise (s : str) (e : PyExc) :
  parse_color cfg m s = Raise e ->
  e = ValueError
  /\ exists body,
       lower (strip s) = "#"%char :: body
       /\ length body = 6%nat
       /\ (py_int m 16 (slice 0 2 body) = None
           \/ py_int m 16 (slice 2 4 body) = None
           \/ py_int m 16 (slice 4 6 body) = None).
Proof.
  unfold parse_color. cbn zeta.
  destruct (dict_get (lower (strip s)) (COLORS cfg)); [discriminate|].
  destruct (dict_get (lower (strip s)) (COLOR_SCHEMES cfg)); [discriminate|].
  destruct (lower (strip s)) as [|c0 body] eqn:E; cbn [startswith lit
    list_ascii_of_string]; [discriminate|].
  destruct (Ascii.eqb c0 "#") eqn:E0; cbn [andb]; [|discriminate].
  apply Ascii.eqb_eq in E0. subst c0. cbn [skipn].
  destruct (Z.of_nat (length body) =? 6) eqn:E3; [|discriminate].
  apply Z.eqb_eq in E3.
  destruct (py_int m 16 (slice 0 2 body)) eqn:Hr.
  2:{ intros [= <-]. split; [reflexivity|]. exists body.
      repeat split; [lia | now left]. }
  destruct (py_int m 16 (slice 2 4 body)) eqn:Hg.
  2:{ intros [= <-]. split; [reflexivity|]. exists body.
      repeat split; [lia | right; now left]. }
  destruct (py_int m 16 (slice 4 6 body)) eqn:Hb; [discriminate|].
  intros [= <-]. split; [reflexivity|]. exists body.
  repeat split; [lia | right; now right].
Qed.

End ParseFacts.

(** X10. A colour written as [r,g,b] in decimal, each number from 0 to
    255, is parsed to exactly that colour, as long as no colour or scheme
    name of the configuration contains a comma. *)
Theorem parse_color_rgb_round_trip :
  forall (cfg : ImageDefaults) (max_str_digits r g b : Z),
    keys_without (Ascii.eqb ",") (COLORS cfg) = true ->
    keys_without (Ascii.eqb ",") (COLOR_SCHEMES cfg) = true ->
    0 <= r <= 255 -> 0 <= g <= 255 -> 0 <= b <= 255 ->
    parse_color cfg max_str_digits
      (py_str_int r ++ lit "," ++ py_str_int g ++ lit "," ++ py_str_int b)
    = Ok (r, g, b).
Proof.
  intros cfg m r g b Hc Hs Hr Hg Hb.
  destruct (small_numeral m r Hr) as [Dr [[cr [rr Er]] Ir]].
  destruct (small_numeral m g Hg) as [Dg [_ Ig]].
  destruct (small_numeral m b Hb) as [Db [_ Ib]].
  destruct (digits_facts _ Dr) as [Sr [Lr Cr]].
  destruct (digits_facts _ Dg) as [Sg [Lg Cg]].
  destruct (digits_facts _ Db) as [Sb [Lb Cb]].
  change (lit ",") with [","%char]. cbn [app].
  set (s := py_str_int r ++ ","%char :: py_str_int g
                           ++ ","%char :: py_str_int b).
  assert (Hsp : forallb (fun c => negb (isspace c)) s = true).
  { unfold s. rewrite forallb_app. cbn [forallb]. rewrite forallb_app.
    cbn [forallb]. rewrite Sr, Sg, Sb. reflexivity. }
  assert (Hlo : forallb (fun c => Ascii.eqb (lower_char c) c) s = true).
  { unfold s. rewrite forallb_app. cbn [forallb]. rewrite forallb_app.
    cbn [forallb]. rewrite Lr, Lg, Lb. reflexivity. }
  assert (Hcomma : existsb (Ascii.eqb ",") s = true).
  { unfold s. rewrite existsb_app. cbn [existsb]. rewrite Ascii.eqb_refl.
    cbn. apply orb_true_r. }
  assert (Hst : startswith s (lit "#") = false).
  { unfold s. rewrite Er. cbn [app startswith lit list_ascii_of_string].
    rewrite Er in Dr. cbn [forallb] in Dr.
    apply andb_true_iff in Dr as [Dc _].
    destruct (is_digit_facts cr Dc) as [_ [_ [_ ->]]]. reflexivity. }
  unfold parse_color. cbn zeta.
  rewrite (strip_id s Hsp), (lower_id s Hlo).
  rewrite (dict_get_without _ _ _ Hc Hcomma).
  rewrite (dict_get_without _ _ _ Hs Hcomma).
  rewrite Hst. unfold parse_rgb, char_in. rewrite Hcomma.
  unfold s. rewrite (split_on_app _ _ _ Cr), (split_on_app _ _ _ Cg).
  rewrite (split_on_single _ _ Cb).
  rewrite (strip_id _ Sr), (strip_id _ Sg), (strip_id _ Sb).
  rewrite Ir, Ig, Ib. cbn [forallb].
  apply is_channel_spec in Hr, Hg, Hb. rewrite Hr, Hg, Hb. reflexivity.
Qed.

Lemma parse_color_rgb_round_trip_witness :
  parse_color example_defaults 4300 (lit "255,165,0") = Ok (255, 165, 0).
Proof.
  apply (parse_color_rgb_round_trip example_defaults 4300 255 165 0);
    first [reflexivity | lia].
Defined.

(** X11. A colour written as [#] and six hexadecimal digits, of either
    case, is parsed to the three bytes the pairs of digits denote, as long
    as no colour or scheme name of the configuration contains a [#]. *)
Theorem parse_color_hex_digits :
  forall (cfg : ImageDefaults) (max_str_digits : Z)
         (c1 c2 c3 c4 c5 c6 : ascii) (v1 v2 v3 v4 v5 v6 : Z),
    keys_without (Ascii.eqb "#") (COLORS cfg) = true ->
    keys_without (Ascii.eqb "#") (COLOR_SCHEMES cfg) = true ->
    hex_digit c1 v1 -> hex_digit c2 v2 -> hex_digit c3 v3 ->
    hex_digit c4 v4 -> hex_digit c5 v5 -> hex_digit c6 v6 ->
    parse_color cfg max_str_digits ("#"%char :: [c1; c2; c3; c4; c5; c6])
    = Ok (16 * v1 + v2, 16 * v3 + v4, 16 * v5 + v6).
Proof.
  intros cfg m c1 c2 c3 c4 c5 c6 v1 v2 v3 v4 v5 v6 Hc Hs H1 H2 H3 H4 H5 H6.
  set (s := "#"%char :: [c1; c2; c3; c4; c5; c6]).
  assert (Hsp : forallb (fun c => negb (isspace c)) s = true).
  { unfold s. cbn [forallb].
    rewrite (hex_digit_nospace _ _ H1), (hex_digit_nospace _ _ H2),
      (hex_digit_nospace _ _ H3), (hex_digit_nospace _ _ H4),
      (hex_digit_nospace _ _ H5), (hex_digit_nospace _ _ H6).
    reflexivity. }
  unfold parse_color. cbn zeta. rewrite (strip_id s Hsp).
  unfold s, lower. cbn [map].
  change (lower_char "#") with "#"%char.
  assert (Hk : existsb (Ascii.eqb "#")
                 ("#"%char :: map lower_char [c1; c2; c3; c4; c5; c6])
               = true) by reflexivity.
  cbn [map] in Hk.
  rewrite (dict_get_without _ _ _ Hc Hk), (dict_get_without _ _ _ Hs Hk).
  change (lit "#") with ["#"%char]. cbn [startswith].
  rewrite Ascii.eqb_refl. cbn [andb skipn length].
  change (Z.of_nat 6 =? 6) with true. cbn iota.
  unfold slice. cbn [firstn skipn].
  rewrite (hex_pair m _ _ _ _ H1 H2), (hex_pair m _ _ _ _ H3 H4),
    (hex_pair m _ _ _ _ H5 H6).
  reflexivity.
Qed.

Lemma parse_color_hex_digits_witness :
  parse_color example_defaults 4300 (lit "#FF8000") = Ok (255, 128, 0).
Proof.
  apply (parse_color_hex_digits example_defaults 4300
           "F" "F" "8" "0" "0" "0" 15 15 8 0 0 0);
    first [reflexivity | split; [reflexivity | lia]].
Defined.

(** X12. When the named colours, the schemes and the default colour have
    channels from 0 to 255, every channel of a colour [parse_color]
    returns is between -15 and 255: a negative channel can only come from
    a signed hexadecimal pair, which is not checked against the range. *)
Theorem parse_color_channels_from_minus_15 :
  forall (cfg : ImageDefaults) (max_str_digits : Z) (color_str : str)
         (c : Color),
    valid_palette cfg = true ->
    parse_color cfg max_str_digits color_str = Ok c ->
    channels_within (-15) 255 c.
Proof. intros cfg m s c Hv H. eapply parse_color_range; eauto. Qed.

Lemma parse_color_channels_from_minus_15_witness :
  parse_color example_defaults 4300 (lit "#-f-f-f") = Ok (-15, -15, -15)
  /\ channels_within (-15) 255 (-15, -15, -15).
Proof.
  split; [reflexivity|].
  apply (parse_color_channels_from_minus_15 example_defaults 4300
           (lit "#-f-f-f") (-15, -15, -15));
    reflexivity.
Defined.



(** X14. [parse_font_size] returns a size from 8 to 100 for every string,
    when the named sizes and the default size of the configuration are in
    that range. *)
Theorem parse_font_size_in_range :
  forall (cfg : ImageDefaults) (max_str_digits : Z) (size_str : str),
    valid_font_sizes cfg = true ->
    8 <= parse_font_size cfg max_str_digits size_str <= 100.
Proof.
  intros cfg m s Hv. unfold valid_font_sizes in Hv.
  apply andb_true_iff in Hv as [Hd Hf].
  apply andb_true_iff in Hd as [Hd1 Hd2].
  apply Z.leb_le in Hd1, Hd2.
  unfold parse_font_size. cbn zeta.
  destruct (dict_get (lower (strip s)) (FONT_SIZES cfg)) as [v|] eqn:E.
  - destruct (dict_get_In _ _ _ E) as [k Hk].
    eapply forallb_forall in Hf; [|exact Hk]. cbn in Hf. lia.
  - destruct (py_int m 10 (lower (strip s))) as [v|]; [|lia].
    destruct ((8 <=? v) && (v <=? 100)) eqn:Ev; lia.
Qed.

Lemma parse_font_size_in_range_witness :
  8 <= parse_font_size example_defaults 4300 (lit "huge") <= 100.
Proof.
  apply (parse_font_size_in_range example_defaults 4300 (lit "huge")).
  reflexivity.
Defined.

(** X15. A size from 8 to 100 written in decimal is parsed to itself, as
    long as no size name of the configuration contains a digit. *)
Theorem parse_font_size_round_trip :
  forall (cfg : ImageDefaults) (max_str_digits n : Z),
    keys_without is_digit (FONT_SIZES cfg) = true ->
    8 <= n <= 100 ->
    parse_font_size cfg max_str_digits (py_str_int n) = n.
Proof.
  intros cfg m n Hk Hn.
  destruct (small_numeral m n ltac:(lia)) as [Dn [[c [rest En]] In']].
  destruct (digits_facts _ Dn) as [Sn [Ln _]].
  unfold parse_font_size. cbn zeta.
  rewrite (strip_id _ Sn), (lower_id _ Ln).
  rewrite (dict_get_without _ _ _ Hk).
  - rewrite In'.
    replace ((8 <=? n) && (n <=? 100)) with true; [reflexivity|].
    symmetry. apply andb_true_iff. split; apply Z.leb_le; lia.
  - rewrite En in *. cbn [forallb existsb] in *.
    apply andb_true_iff in Dn as [-> _]. reflexivity.
Qed.

Lemma parse_font_size_round_trip_witness :
  parse_font_size example_defaults 4300 (lit "42") = 42.
Proof.
  apply (parse_font_size_round_trip example_defaults 4300 42);
    first [reflexivity | lia].
Defined.

(** ** Removing tags *)

Lemma find_gt_none (s : str) :
  find_gt s = None <-> ~ In ">"%char s.
Proof.
  induction s as [|c s IH]; cbn [find_gt In]; [tauto|].
  destruct (Ascii.eqb c ">") eqn:E.
  - apply Ascii.eqb_eq in E. subst. split; [discriminate|]. tauto.
  - apply Ascii.eqb_neq in E. destruct (find_gt s); cbn.
    + split; [discriminate|]. intros H. exfalso.
      assert (N : ~ In ">"%char s) by tauto.
      apply IH in N. discriminate.
    + split; [|reflexivity]. intros _ [H|H]; [congruence|].
      apply (proj1 IH); auto.
Qed.

Lemma sub_tags_In (s : str) :
  forall (skip : nat) (c : ascii), In c (sub_tags skip s) -> In c s.
Proof.
  induction s as [|x s IH]; intros skip c; cbn [sub_tags]; [tauto|].
  destruct skip as [|k].
  - destruct (Ascii.eqb x "<").
    + destruct (match_any_tag s) as [n|].
      * intros H. right. eapply IH; eauto.
      * intros [H|H]; [now left | right; eapply IH; eauto].
    + intros [H|H]; [now left | right; eapply IH; eauto].
  - intros H. right. eapply IH; eauto.
Qed.

Lemma match_any_tag_sub (s : str) :
  match_any_tag s = None -> match_any_tag (sub_tags 0 s) = None.
Proof.
  unfold match_any_tag. destruct (find_gt s) as [[|k]|] eqn:E;
    try discriminate; intros _.
  - destruct s as [|c s]; [discriminate|]. cbn [find_gt] in E.
    destruct (Ascii.eqb c ">") eqn:Ec.
    + apply Ascii.eqb_eq in Ec. subst c. cbn [sub_tags].
      change (Ascii.eqb ">" "<") with false. cbn iota.
      cbn [find_gt]. rewrite Ascii.eqb_refl. reflexivity.
    + destruct (find_gt s); discriminate.
  - assert (N : find_gt (sub_tags 0 s) = None).
    { apply find_gt_none. intros H. apply sub_tags_In in H.
      apply find_gt_none in E. contradiction. }
    rewrite N. reflexivity.
Qed.

Lemma sub_tags_no_match (s : str) :
  forall skip : nat, search_any_tag (sub_tags skip s) = false.
Proof.
  induction s as [|c s IH]; intros skip; cbn [sub_tags]; [reflexivity|].
  destruct skip as [|k]; [|apply IH].
  destruct (Ascii.eqb c "<") eqn:Ec.
  - destruct (match_any_tag s) as [n|] eqn:Em; [apply IH|].
    cbn [search_any_tag]. rewrite Ec, (match_any_tag_sub s Em), IH.
    reflexivity.
  - cbn [search_any_tag]. rewrite Ec, IH. reflexivity.
Qed.

Lemma sub_tags_fixed (s : str) :
  search_any_tag s = false -> sub_tags 0 s = s.
Proof.
  induction s as [|c s IH]; [reflexivity|]. cbn [search_any_tag sub_tags].
  intros H. apply orb_false_iff in H as [H1 H2].
  destruct (Ascii.eqb c "<").
  - destruct (match_any_tag s); [discriminate|]. now rewrite IH.
  - now rewrite IH.
Qed.

Lemma reaches_gt_find (s : str) :
  reaches_gt s = true -> exists k, find_gt s = Some k.
Proof.
  induction s as [|c s IH]; cbn [reaches_gt find_gt]; [discriminate|].
  destruct (Ascii.eqb c ">"); [eauto|].
  destruct (Ascii.eqb c "010"); [discriminate|].
  intros H. destruct (IH H) as [k ->]. cbn. eauto.
Qed.

Lemma is_biu_not_gt (c : ascii) : is_biu c = true -> Ascii.eqb c ">" = false.
Proof.
  intros H.
  assert (A : forallb (fun c => negb (is_biu c) || negb (Ascii.eqb c ">"))
                all_ascii = true) by (vm_compute; reflexivity).
  pose proof (ascii_forall _ A c) as B. cbn beta in B. rewrite H in B.
  now apply negb_true_iff in B.
Qed.

Lemma loose_tag_is_tag (s : str) :
  re_search_loose s = true -> search_any_tag s = true.
Proof.
  induction s as [|c s IH]; [discriminate|].
  cbn [re_search_loose search_any_tag]. intros H.
  apply orb_true_iff in H as [H|H].
  - apply orb_true_iff. left. unfold match_loose_tag in H.
    destruct (Ascii.eqb c "<") eqn:Ec.
    2:{ exfalso. destruct c as [[] [] [] [] [] [] [] []];
          try discriminate Ec; discriminate H. }
    apply Ascii.eqb_eq in Ec. subst c.
    destruct s as [|d s']; [discriminate|].
    apply andb_true_iff in H as [Hd Hr].
    destruct (reaches_gt_find _ Hr) as [k Hk].
    unfold match_any_tag. cbn [find_gt].
    rewrite (is_biu_not_gt d Hd), Hk. reflexivity.
  - apply orb_true_iff. right. now apply IH.
Qed.

(** X16. [strip_html_tags] leaves no tag behind: nothing in its result
    matches the pattern it removes, so stripping twice is stripping once,
    and [has_html_tags] is false on the result.  A text without a tag is
    returned unchanged. *)
Theorem strip_html_tags_leaves_no_tag :
  forall text : str,
    search_any_tag (strip_html_tags text) = false
    /\ strip_html_tags (strip_html_tags text) = strip_html_tags text
    /\ has_html_tags (strip_html_tags text) = false
    /\ (search_any_tag text = false -> strip_html_tags text = text).
Proof.
  intros text. unfold strip_html_tags.
  pose proof (sub_tags_no_match text 0) as N.
  split; [exact N|]. split; [now apply sub_tags_fixed|]. split.
  - unfold has_html_tags. destruct (sub_tags 0 text) as [|c s] eqn:E;
      [reflexivity|].
    destruct (re_search_loose (c :: s)) eqn:R; [|reflexivity].
    apply loose_tag_is_tag in R. congruence.
  - apply sub_tags_fixed.
Qed.

(** ** The words passed to [draw.text] *)







Section DrawnWords.
Context {Font : Type} {F : Type} {fops : PyFloatOps F}.
Variable textbbox : Z * Z -> str -> Font -> bbox.
Variable _get_formatted_font : option str -> Z -> bool -> bool -> Font.












End DrawnWords.


(** At a fixed size of 100 pixels the three words of this text are all
    passed, at positions left of and above the 240-pixel canvas. *)
Example long_text_leaves_canvas_demo :
  pic_ops
    (create_text_image (fops := binary64) fixed_bbox (fun _ size => size)
       (fun _ size _ _ => size) (fun f => Some f) example_defaults
       example_generator (lit "hello wide world") (Some 100) None None None
       (lit "center") false 0 None false false)
  = [ DrawText (-130, -53) (lit "hello") (255, 255, 255) 100 0;
      DrawText (-80, 57) (lit "wide") (255, 255, 255) 100 0;
      DrawText (-130, 167) (lit "world") (255, 255, 255) 100 0 ].
Proof. vm_compute. reflexivity. Qed.

(** ** Strokes *)

Lemma stroke_settings_not_requested (text_color background_color : Color)
    (stroke_width : Z) (stroke_color : option Color) :
  stroke_width <= 0 ->
  _calculate_stroke_settings text_color background_color stroke_width
    stroke_color false = (0, None).
Proof.
  intros H. unfold _calculate_stroke_settings.
  destruct (stroke_width =? 0); cbn [andb negb]; [reflexivity|].
  destruct (0 <? stroke_width) eqn:E; [apply Z.ltb_lt in E; lia|].
  reflexivity.
Qed.

Lemma stroke_settings_ignore_color (text_color background_color : Color)
    (stroke_width : Z) (sc1 sc2 : option Color) (auto_stroke : bool) :
  stroke_width <= 0 ->
  _calculate_stroke_settings text_color background_color stroke_width sc1
    auto_stroke
  = _calculate_stroke_settings text_color background_color stroke_width sc2
      auto_stroke.
Proof.
  intros H. unfold _calculate_stroke_settings.
  destruct (0 <? stroke_width) eqn:E; [apply Z.ltb_lt in E; lia|].
  reflexivity.
Qed.

Section StrokeFree.
Context {Font : Type} {F : Type} {fops : PyFloatOps F}.
Variable textbbox : Z * Z -> str -> Font -> bbox.
Variable _get_formatted_font : option str -> Z -> bool -> bool -> Font.

Lemma stroked_free (xy : Z * Z) (txt : str) (font : Font) (color : Color)
    (stroke_color : option Color) :
  stroke_free (draw_text_stroked xy txt font color 0 stroke_color).
Proof. repeat constructor. Qed.

Lemma justified_loop_free (y : Z) (font : Font) (color : Color)
    (stroke_color : option Color) (word_widths : list Z) (space_per_gap : F)
    (count : nat) (words : list str) :
  forall (i : nat) (x : PyNum F),
    stroke_free
      (justified_loop y font color 0 stroke_color word_widths space_per_gap
         count words i x).
Proof.
  induction words as [|w rest IH]; intros i x; [constructor|].
  cbn [justified_loop]. apply Forall_app. split; [apply stroked_free|].
  apply IH.
Qed.

Lemma justified_line_free (self : ImageGenerator) (line : str) (y : Z)
    (font : Font) (color : Color) (stroke_color : option Color) :
  stroke_free
    (_draw_justified_line textbbox self line y font color 0 stroke_color).
Proof.
  unfold _draw_justified_line.
  destruct (length (split line) <=? 1)%nat; [apply stroked_free|].
  destruct (measure_words textbbox font (split line)) as [tw ww].
  destruct ((0 <? Z.of_nat (length (split line)) - 1)
            && (0 <=? width self - padding_left self - padding_right self
                      - tw)).
  - apply justified_loop_free.
  - apply stroked_free.
Qed.

Lemma multiline_loop_free (self : ImageGenerator) (font : Font)
    (color : Color) (alignment : str) (stroke_color : option Color)
    (line_heights : list Z) (spacing : Z) (count : nat) (lines : list str) :
  forall (i : nat) (y : Z),
    stroke_free
      (multiline_loop textbbox self font color alignment 0 stroke_color
         line_heights spacing count lines i y).
Proof.
  induction lines as [|line rest IH]; intros i y; [constructor|].
  cbn [multiline_loop]. apply Forall_app. split; [|apply IH].
  destruct (str_eqb alignment (lit "justify") && (1 <? Z.of_nat count)
            && (Z.of_nat i <? Z.of_nat count - 1)).
  - apply justified_line_free.
  - apply stroked_free.
Qed.

Lemma segments_free (y : Z) (text_color : Color)
    (stroke_color : option Color) (font_path : option str) (font_size : Z)
    (line_segments : list TextSegment) :
  forall (x : Z) (ops0 : list (DrawOp Font)),
    stroke_free ops0 ->
    stroke_free
      (snd (fold_left
              (draw_segment textbbox _get_formatted_font y text_color 0
                 stroke_color font_path font_size)
              line_segments (x, ops0))).
Proof.
  induction line_segments as [|s rest IH]; intros x ops0 H0; [exact H0|].
  cbn [fold_left]. unfold draw_segment at 2.
  destruct (text s) as [|c t]; [now apply IH|].
  apply IH. change (0 <? 0) with false. cbn iota.
  assert (E : match stroke_color with Some _ => ops0 | None => ops0 end
              = ops0) by (destruct stroke_color; reflexivity).
  rewrite E. apply Forall_app. split; [|repeat constructor].
  destruct (underline s); [|exact H0].
  apply Forall_app. split; [exact H0|repeat constructor].
Qed.

Lemma formatted_lines_free (self : ImageGenerator) (text_color : Color)
    (alignment : str) (stroke_color : option Color)
    (font_path : option str) (font_size : Z) (spacing : Z)
    (formatted_lines : list (list TextSegment)) :
  forall y : Z,
    stroke_free
      (draw_formatted_lines textbbox _get_formatted_font self
         formatted_lines y text_color alignment 0 stroke_color font_path
         font_size spacing).
Proof.
  induction formatted_lines as [|l rest IH]; intros y; [constructor|].
  cbn [draw_formatted_lines]. apply Forall_app. split; [|apply IH].
  unfold _draw_formatted_line_segments. apply segments_free. constructor.
Qed.

Variable _get_font : option str -> Z -> Font.
Variable font_size_attr : Font -> option Z.
Variable defaults : ImageDefaults.

Lemma create_text_image_free (self : ImageGenerator) (text : str)
    (font_size : option Z) (text_color background_color : option Color)
    (font_path : option str) (alignment : str) (auto_size : bool)
    (stroke_width : Z) (stroke_color : option Color) (enable_html : bool) :
  stroke_width <= 0 ->
  stroke_free
    (pic_ops
       (create_text_image textbbox _get_font _get_formatted_font
          font_size_attr defaults self text font_size text_color
          background_color font_path alignment auto_size stroke_width
          stroke_color false enable_html)).
Proof.
  intros H. unfold create_text_image.
  rewrite stroke_settings_not_requested by exact H. cbn [pic_ops].
  destruct enable_html.
  - unfold _draw_formatted_text. apply formatted_lines_free.
  - unfold _draw_multiline_text. apply multiline_loop_free.
Qed.

Lemma create_with_gradient_free (self : ImageGenerator) (text : str)
    (color1 color2 : Color) (text_color : option Color)
    (font_size : option Z) (font_path : option str) (direction : str)
    (auto_size : bool) (stroke_width : Z) (stroke_color : option Color)
    (enable_html : bool) :
  stroke_width <= 0 ->
  stroke_free
    (pic_ops
       (create_with_gradient textbbox _get_font _get_formatted_font
          font_size_attr defaults self text color1 color2 text_color
          font_size font_path direction auto_size stroke_width stroke_color
          false enable_html)).
Proof.
  intros H. unfold create_with_gradient.
  destruct color1 as [[r1 g1] b1], color2 as [[r2 g2] b2].
  rewrite stroke_settings_not_requested by exact H. cbn [pic_ops].
  destruct enable_html.
  - unfold _draw_formatted_text. apply formatted_lines_free.
  - unfold _draw_multiline_text. apply multiline_loop_free.
Qed.

Lemma create_text_image_ignores_color (self : ImageGenerator) (text : str)
    (font_size : option Z) (text_color background_color : option Color)
    (font_path : option str) (alignment : str) (auto_size : bool)
    (stroke_width : Z) (sc1 sc2 : option Color)
    (auto_stroke enable_html : bool) :
  stroke_width <= 0 ->
  create_text_image textbbox _get_font _get_formatted_font font_size_attr
    defaults self text font_size text_color background_color font_path
    alignment auto_size stroke_width sc1 auto_stroke enable_html
  = create_text_image textbbox _get_font _get_formatted_font font_size_attr
      defaults self text font_size text_color background_color font_path
      alignment auto_size stroke_width sc2 auto_stroke enable_html.
Proof.
  intros H. unfold create_text_image.
  now rewrite (stroke_settings_ignore_color _ _ _ sc1 sc2).
Qed.

Lemma create_with_gradient_ignores_color (self : ImageGenerator)
    (text : str) (color1 color2 : Color) (text_color : option Color)
    (font_size : option Z) (font_path : option str) (direction : str)
    (auto_size : bool) (stroke_width : Z) (sc1 sc2 : option Color)
    (auto_stroke enable_html : bool) :
  stroke_width <= 0 ->
  create_with_gradient textbbox _get_font _get_formatted_font
    font_size_attr defaults self text color1 color2 text_color font_size
    font_path direction auto_size stroke_width sc1 auto_stroke enable_html
  = create_with_gradient textbbox _get_font _get_formatted_font
      font_size_attr defaults self text color1 color2 text_color font_size
      font_path direction auto_size stroke_width sc2 auto_stroke
      enable_html.
Proof.
  intros H. unfold create_with_gradient.
  destruct color1 as [[r1 g1] b1], color2 as [[r2 g2] b2].
  now rewrite (stroke_settings_ignore_color _ _ _ sc1 sc2).
Qed.

End StrokeFree.

(** ** The command line *)

Section MainFacts.
Context {Font : Type} {F : Type} {fops : PyFloatOps F}.
Context {Img Bytes : Type}.
Variable textbbox : Z * Z -> str -> Font -> bbox.
Variable _get_font : option str -> Z -> Font.
Variable _get_formatted_font : option str -> Z -> bool -> bool -> Font.
Variable font_size_attr : Font -> option Z.
Variable cfg : ImageConfig.
Variable defaults : ImageDefaults.
Variable max_str_digits : Z.
Variable import_dc : DisplayConfig.
Variable of_picture : Picture Font -> Img.
Variable path_exists : str -> bool.
Variable image_open : str -> Result Img.
Variable exif_transpose : Img -> Img.
Variable img_mode : Img -> str.
Variable convert_rgb : Img -> Img.
Variable img_size : Img -> Z * Z.
Variable img_crop : Img -> Z * Z * Z * Z -> Img.
Variable img_resize : Img -> Z * Z -> Img.
Variable save_jpeg : Img -> Z -> Bytes.
Variable post : list (Request Bytes) -> Request Bytes -> PostOutcome.
Variable save_image_locally : Picture Font -> Z -> Result str.

Lemma text_image_stroke_free (text : str) (kw : TextKwargs)
    (pic : Picture Font) :
  get_default (kw_text_stroke kw) false = false ->
  get_default (kw_stroke_width kw) 0 <= 0 ->
  truthy (kw_stroke_color kw) = false ->
  text_image textbbox _get_font _get_formatted_font font_size_attr cfg
    defaults max_str_digits import_dc text kw = Ok pic ->
  stroke_free (pic_ops pic).
Proof.
  intros Hts Hsw Hsc H. unfold text_image in H. cbn zeta in H.
  assert (E : (0 <? get_default (kw_stroke_width kw) 0) = false)
    by (apply Z.ltb_ge; lia).
  rewrite Hts, Hsc, E in H. cbn [andb orb negb] in H. unfold bind in H.
  destruct (get_color_scheme defaults _) as [scheme|]; [|discriminate].
  destruct (if truthy (kw_font_color kw) then _ else _) as [text_color|];
    [|discriminate].
  destruct (if get_default (kw_gradient kw) false then _ else _)
    as [[g|]|].
  - destruct (parse_color defaults max_str_digits g) as [ge|];
      [|discriminate].
    injection H as <-. now apply create_with_gradient_free.
  - discriminate.
  - injection H as <-. now apply create_text_image_free.
Qed.

Lemma text_image_stroke_color (text : str) (kw : TextKwargs)
    (c1 c2 : str) (col1 col2 : Color) :
  get_default (kw_text_stroke kw) false = false ->
  get_default (kw_stroke_width kw) 0 <= 0 ->
  c1 <> [] -> c2 <> [] ->
  parse_color defaults max_str_digits c1 = Ok col1 ->
  parse_color defaults max_str_digits c2 = Ok col2 ->
  text_image textbbox _get_font _get_formatted_font font_size_attr cfg
    defaults max_str_digits import_dc text (with_stroke_color kw (Some c1))
  = text_image textbbox _get_font _get_formatted_font font_size_attr cfg
      defaults max_str_digits import_dc text
      (with_stroke_color kw (Some c2)).
Proof.
  intros Hts Hsw N1 N2 P1 P2. unfold text_image. cbn zeta.
  cbn [with_stroke_color kw_padding_top kw_padding_bottom kw_padding_left
         kw_padding_right kw_font_size kw_auto_size kw_color_scheme
         kw_font_color kw_text_align kw_save_local kw_gradient
         kw_gradient_end kw_text_stroke kw_stroke_width kw_stroke_color
         kw_no_auto_stroke kw_enable_html].
  assert (T1 : truthy (Some c1) = true)
    by (destruct c1; [congruence | reflexivity]).
  assert (T2 : truthy (Some c2) = true)
    by (destruct c2; [congruence | reflexivity]).
  rewrite T1, T2, Hts. cbn [get_default andb orb]. rewrite P1, P2.
  unfold bind.
  destruct (get_color_scheme defaults _) as [scheme|]; [|reflexivity].
  destruct (if truthy (kw_font_color kw) then _ else _) as [text_color|];
    [|reflexivity].
  destruct (if get_default (kw_gradient kw) false then _ else _)
    as [[g|]|]; [|reflexivity|].
  - destruct (parse_color defaults max_str_digits g) as [ge|];
      [|reflexivity].
    f_equal. now apply create_with_gradient_ignores_color.
  - f_equal. now apply create_text_image_ignores_color.
Qed.

Lemma text_image_gradient_none (text : str) (kw : TextKwargs) :
  get_default (kw_gradient kw) false = true ->
  kw_gradient_end kw = Some None ->
  exists e,
    text_image textbbox _get_font _get_formatted_font font_size_attr cfg
      defaults max_str_digits import_dc text kw = Raise e
    /\ (e = AttributeError \/ e = KeyError \/ e = ValueError).
Proof.
  intros Hg He. unfold text_image. cbn zeta. rewrite Hg, He. unfold bind.
  unfold get_color_scheme.
  destruct (dict_get _ (COLOR_SCHEMES defaults)) as [scheme|].
  2: destruct (dict_get _ (COLOR_SCHEMES defaults)) as [scheme|];
       [|eauto].
  all: destruct (truthy (kw_font_color kw)).
  all: try (destruct (parse_color defaults max_str_digits
                        (get_default (kw_font_color kw) []))
              as [tc|e] eqn:E1;
            [|apply parse_color_raise in E1 as [-> _]; eauto]).
  all: destruct (truthy (kw_stroke_color kw)).
  all: try (destruct (parse_color defaults max_str_digits
                        (get_default (kw_stroke_color kw) []))
              as [sc|e] eqn:E2;
            [|apply parse_color_raise in E2 as [-> _]; eauto]).
  all: eauto.
Qed.

Lemma main_kwargs_gradient (args : Args) :
  kw_gradient (main_kwargs max_str_digits args) = Some (arg_gradient args)
  /\ kw_gradient_end (main_kwargs max_str_digits args)
     = Some (arg_gradient_end args).
Proof.
  unfold main_kwargs. destruct (arg_padding args);
    destruct (str_eqb _ _); try destruct (py_int _ _ _); split; reflexivity.
Qed.

Lemma upload_image_url (dc : DisplayConfig) (log : list (Request Bytes))
    (slot : Z) (image : ImageArg Img Bytes) :
  let out :=
    upload_image dc path_exists image_open exif_transpose img_mode
      convert_rgb img_size img_crop img_resize save_jpeg post
      (new_uploader import_dc dc) log slot image None in
  fst out = log
  \/ exists req,
       fst out = log ++ [req]
       /\ req_url req = BASE_URL import_dc ++ lit "/upload".
Proof.
  destruct (upload_image_cases dc path_exists image_open exif_transpose
              img_mode convert_rgb img_size img_crop img_resize save_jpeg
              post (new_uploader import_dc dc) log slot image None)
    as [[H _] | [req [H1 [_ [H2 _]]]]].
  - left. exact H.
  - right. exists req. split; [exact H1 | exact H2].
Qed.

Lemma create_and_upload_text_requests (dc : DisplayConfig)
    (saved : list (Picture Font * Z)) (log : list (Request Bytes))
    (slot : Z) (text : str) (kw : TextKwargs) :
  let out :=
    create_and_upload_text textbbox _get_font _get_formatted_font
      font_size_attr cfg defaults max_str_digits import_dc of_picture
      path_exists image_open exif_transpose img_mode convert_rgb img_size
      img_crop img_resize save_jpeg post save_image_locally dc (saved, log)
      slot text kw in
  (snd (fst out) = log
   \/ exists req,
        snd (fst out) = log ++ [req]
        /\ req_url req = BASE_URL import_dc ++ lit "/upload")
  /\ (forall e,
        text_image textbbox _get_font _get_formatted_font font_size_attr
          cfg defaults max_str_digits import_dc text kw = Raise e ->
        out = ((saved, log), Raise e)).
Proof.
  unfold create_and_upload_text.
  destruct (text_image _ _ _ _ _ _ _ _ text kw) as [image|e0].
  2:{ split; [now left|]. intros e [= ->]. reflexivity. }
  split; [|discriminate].
  destruct (if get_default (kw_save_local kw) false then _ else _)
    as [saved'|e1]; [|now left].
  pose proof (upload_image_url dc log slot (ImagePIL (of_picture image)))
    as H. cbn zeta in H.
  destruct (upload_image _ _ _ _ _ _ _ _ _ _ _ _ _ _ _ _) as [log' r].
  exact H.
Qed.

Lemma upload_file_requests (dc : DisplayConfig)
    (saved : list (Picture Font * Z)) (log : list (Request Bytes))
    (slot : Z) (file_path : str) :
  let out :=
    upload_file (Font := Font) import_dc path_exists image_open
      exif_transpose img_mode convert_rgb img_size img_crop img_resize
      save_jpeg post dc (saved, log) slot file_path in
  snd (fst out) = log
  \/ exists req,
       snd (fst out) = log ++ [req]
       /\ req_url req = BASE_URL import_dc ++ lit "/upload".
Proof.
  unfold upload_file.
  pose proof (upload_image_url dc log slot (ImagePath file_path)) as H.
  cbn zeta in H.
  destruct (upload_image _ _ _ _ _ _ _ _ _ _ _ _ _ _ _ _) as [log' r].
  exact H.
Qed.

Lemma main_requests (args : Args) (saved : list (Picture Font * Z))
    (log : list (Request Bytes)) :
  let out :=
    main textbbox _get_font _get_formatted_font font_size_attr cfg defaults
      max_str_digits import_dc of_picture path_exists image_open
      exif_transpose img_mode convert_rgb img_size img_crop img_resize
      save_jpeg post save_image_locally args (saved, log) in
  (arg_base_url args <> [] ->
   BASE_URL (fst (fst out)) = arg_base_url args)
  /\ (snd (snd (fst out)) = log
      \/ exists req,
           snd (snd (fst out)) = log ++ [req]
           /\ req_url req = BASE_URL import_dc ++ lit "/upload").
Proof.
  unfold main.
  set (dc := match arg_base_url args with [] => import_dc | _ :: _ => _ end).
  assert (Hdc : arg_base_url args <> [] -> BASE_URL dc = arg_base_url args).
  { subst dc. destruct (arg_base_url args); [congruence|reflexivity]. }
  destruct (negb (truthy (arg_text args)) && negb (truthy (arg_file args)));
    [cbn; auto|].
  destruct (truthy (arg_text args) && truthy (arg_file args)); [cbn; auto|].
  destruct (truthy (arg_text args)).
  - pose proof (create_and_upload_text_requests dc saved log (arg_slot args)
                  (get_default (arg_text args) [])
                  (main_kwargs max_str_digits args)) as [H _].
    destruct (create_and_upload_text _ _ _ _ _ _ _ _ _ _ _ _ _ _ _ _ _ _ _ _
                _ _ _ _ _) as [[saved' log'] r].
    cbn [fst snd] in *. auto.
  - pose proof (upload_file_requests dc saved log (arg_slot args)
                  (get_default (arg_file args) [])) as H.
    cbn zeta in H.
    destruct (upload_file _ _ _ _ _ _ _ _ _ _ _ _ _ _ _) as [[saved' log'] r].
    cbn [fst snd] in *. auto.
Qed.

Lemma main_gradient_none (args : Args) (eff : Effects (Font := Font)) :
  truthy (arg_text args) = true ->
  truthy (arg_file args) = false ->
  arg_gradient args = true ->
  arg_gradient_end args = None ->
  let out :=
    main textbbox _get_font _get_formatted_font font_size_attr cfg defaults
      max_str_digits import_dc of_picture path_exists image_open
      exif_transpose img_mode convert_rgb img_size img_crop img_resize
      save_jpeg post save_image_locally args eff in
  snd (fst out) = eff
  /\ (snd out = Raised AttributeError \/ snd out = Raised KeyError
      \/ snd out = Raised ValueError).
Proof.
  intros Ht Hf Hg He. unfold main. rewrite Ht, Hf. cbn [negb andb].
  destruct eff as [saved log].
  destruct (main_kwargs_gradient args) as [K1 K2].
  destruct (text_image_gradient_none (get_default (arg_text args) [])
              (main_kwargs max_str_digits args)) as [e [E Hcases]].
  { rewrite K1, Hg. reflexivity. }
  { rewrite K2, He. reflexivity. }
  match goal with
  | |- context [create_and_upload_text _ _ _ _ _ _ _ _ _ _ _ _ _ _ _ _ _ _ _
                  _ ?dc _ _ _ _] =>
      pose proof (create_and_upload_text_requests dc saved log
                    (arg_slot args) (get_default (arg_text args) [])
                    (main_kwargs max_str_digits args)) as [_ H]
  end.
  rewrite (H e E). cbn [fst snd].
  split; [reflexivity|].
  destruct Hcases as [-> | [-> | ->]]; auto.
Qed.

End MainFacts.

(** X18. Without a stroke option no stroke is drawn: when
    [create_and_upload_text] is given neither [text_stroke], nor a
    positive [stroke_width], nor a [stroke_color], every call that builds
    its image has stroke width 0, whatever the colours and their
    contrast. *)
Theorem no_stroke_without_stroke_option :
  forall (Font F : Type) (fops : PyFloatOps F)
         (textbbox : Z * Z -> str -> Font -> bbox)
         (_get_font : option str -> Z -> Font)
         (_get_formatted_font : option str -> Z -> bool -> bool -> Font)
         (font_size_attr : Font -> option Z) (cfg : ImageConfig)
         (defaults : ImageDefaults) (max_str_digits : Z)
         (import_dc : DisplayConfig) (txt : str) (kw : TextKwargs)
         (pic : Picture Font),
    get_default (kw_text_stroke kw) false = false ->
    get_default (kw_stroke_width kw) 0 <= 0 ->
    truthy (kw_stroke_color kw) = false ->
    text_image textbbox _get_font _get_formatted_font font_size_attr cfg
      defaults max_str_digits import_dc txt kw = Ok pic ->
    stroke_free (pic_ops pic).
Proof. intros. eapply text_image_stroke_free; eauto. Qed.

Lemma no_stroke_without_stroke_option_witness :
  exists pic : Picture Z,
    text_image (fops := binary64) fixed_bbox (fun _ size => size)
      (fun _ size _ _ => size) (fun size => Some size) example_config
      example_defaults 4300 example_display_config (lit "red alert")
      (with_font_color no_kwargs (Some (lit "red"))) = Ok pic
    /\ stroke_free (pic_ops pic).
Proof.
  eexists. split; [reflexivity|].
  eapply (no_stroke_without_stroke_option Z float binary64 fixed_bbox
            (fun _ size => size) (fun _ size _ _ => size)
            (fun size => Some size) example_config example_defaults 4300
            example_display_config (lit "red alert")
            (with_font_color no_kwargs (Some (lit "red"))));
    first [reflexivity | cbn; lia].
Defined.

(** X19. A stroke colour given alone is not used: when
    [create_and_upload_text] is given a [stroke_color] but neither
    [text_stroke] nor a positive [stroke_width], the image is the same for
    every colour that parses. *)
Theorem stroke_color_alone_is_not_used :
  forall (Font F : Type) (fops : PyFloatOps F)
         (textbbox : Z * Z -> str -> Font -> bbox)
         (_get_font : option str -> Z -> Font)
         (_get_formatted_font : option str -> Z -> bool -> bool -> Font)
         (font_size_attr : Font -> option Z) (cfg : ImageConfig)
         (defaults : ImageDefaults) (max_str_digits : Z)
         (import_dc : DisplayConfig) (txt : str) (kw : TextKwargs)
         (c1 c2 : str) (col1 col2 : Color),
    get_default (kw_text_stroke kw) false = false ->
    get_default (kw_stroke_width kw) 0 <= 0 ->
    c1 <> [] -> c2 <> [] ->
    parse_color defaults max_str_digits c1 = Ok col1 ->
    parse_color defaults max_str_digits c2 = Ok col2 ->
    text_image textbbox _get_font _get_formatted_font font_size_attr cfg
      defaults max_str_digits import_dc txt (with_stroke_color kw (Some c1))
    = text_image textbbox _get_font _get_formatted_font font_size_attr cfg
        defaults max_str_digits import_dc txt
        (with_stroke_color kw (Some c2)).
Proof. intros. eapply text_image_stroke_color; eauto. Qed.

Lemma stroke_color_alone_is_not_used_witness :
  text_image (fops := binary64) fixed_bbox (fun _ size => size)
    (fun _ size _ _ => size) (fun size => Some size) example_config
    example_defaults 4300 example_display_config (lit "red alert")
    (with_stroke_color (with_font_color no_kwargs (Some (lit "red")))
       (Some (lit "yellow")))
  = text_image (fops := binary64) fixed_bbox (fun _ size => size)
      (fun _ size _ _ => size) (fun size => Some size) example_config
      example_defaults 4300 example_display_config (lit "red alert")
      (with_stroke_color (with_font_color no_kwargs (Some (lit "red")))
         (Some (lit "#0000ff"))).
Proof.
  apply (stroke_color_alone_is_not_used Z float binary64 fixed_bbox
           (fun _ size => size) (fun _ size _ _ => size)
           (fun size => Some size) example_config example_defaults 4300
           example_display_config (lit "red alert")
           (with_font_color no_kwargs (Some (lit "red")))
           (lit "yellow") (lit "#0000ff") (255, 255, 0) (0, 0, 255));
    first [reflexivity | discriminate | cbn; lia].
Defined.

(** X20. [--gradient] without [--gradient-end] fails: [main] passes the
    key ['gradient_end'] with [None], [create_and_upload_text] takes the
    gradient branch because the key is present, and the run ends in an
    exception ([AttributeError] from parsing [None], unless a colour or
    the scheme failed before) with nothing saved and nothing uploaded. *)
Theorem gradient_without_end_color_fails :
  forall (Font F : Type) (fops : PyFloatOps F) (Img Bytes : Type)
         (textbbox : Z * Z -> str -> Font -> bbox)
         (_get_font : option str -> Z -> Font)
         (_get_formatted_font : option str -> Z -> bool -> bool -> Font)
         (font_size_attr : Font -> option Z) (cfg : ImageConfig)
         (defaults : ImageDefaults) (max_str_digits : Z)
         (import_dc : DisplayConfig) (of_picture : Picture Font -> Img)
         (path_exists : str -> bool) (image_open : str -> Result Img)
         (exif_transpose : Img -> Img) (img_mode : Img -> str)
         (convert_rgb : Img -> Img) (img_size : Img -> Z * Z)
         (img_crop : Img -> Z * Z * Z * Z -> Img)
         (img_resize : Img -> Z * Z -> Img) (save_jpeg : Img -> Z -> Bytes)
         (post : list (Request Bytes) -> Request Bytes -> PostOutcome)
         (save_image_locally : Picture Font -> Z -> Result str)
         (args : Args)
         (eff : list (Picture Font * Z) * list (Request Bytes)),
    truthy (arg_text args) = true ->
    truthy (arg_file args) = false ->
    arg_gradient args = true ->
    arg_gradient_end args = None ->
    let out :=
      main textbbox _get_font _get_formatted_font font_size_attr cfg
        defaults max_str_digits import_dc of_picture path_exists image_open
        exif_transpose img_mode convert_rgb img_size img_crop img_resize
        save_jpeg post save_image_locally args eff in
    snd (fst out) = eff
    /\ (snd out = Raised AttributeError \/ snd out = Raised KeyError
        \/ snd out = Raised ValueError).
Proof. intros. now apply main_gradient_none. Qed.

Lemma gradient_without_end_color_fails_witness :
  let out :=
    main (fops := binary64) fixed_bbox (fun _ size => size)
      (fun _ size _ _ => size) (fun size => Some size) example_config
      example_defaults 4300 example_display_config
      (fun pic : Picture Z => pic) (fun _ => false)
      (fun _ => Raise FileNotFoundError) (fun img => img)
      (fun _ => lit "RGB") (fun img => img) pic_size (fun img _ => img)
      (fun img _ => img) (fun _ _ => lit "jpeg") accepting_post
      (fun _ _ => Ok (lit "img.jpg"))
      (with_gradient (text_args (lit "Hello")) None) ([], []) in
  snd (fst out) = ([], [])
  /\ (snd out = Raised AttributeError \/ snd out = Raised KeyError
      \/ snd out = Raised ValueError).
Proof.
  apply (gradient_without_end_color_fails Z float binary64 (Picture Z) str
           fixed_bbox (fun _ size => size) (fun _ size _ _ => size)
           (fun size => Some size) example_config example_defaults 4300
           example_display_config (fun pic : Picture Z => pic)
           (fun _ => false) (fun _ => Raise FileNotFoundError)
           (fun img => img) (fun _ => lit "RGB") (fun img => img) pic_size
           (fun img _ => img) (fun img _ => img) (fun _ _ => lit "jpeg")
           accepting_post (fun _ _ => Ok (lit "img.jpg"))
           (with_gradient (text_args (lit "Hello")) None) ([], []));
    reflexivity.
Defined.

(** X21. [--base-url] changes [DisplayConfig.BASE_URL] but not where the
    upload goes: the uploader's default [base_url] was fixed when the
    class was defined, so every request of [main] goes to the URL
    configured at that time, and at most one request is made. *)
Theorem base_url_option_is_not_used :
  forall (Font F : Type) (fops : PyFloatOps F) (Img Bytes : Type)
         (textbbox : Z * Z -> str -> Font -> bbox)
         (_get_font : option str -> Z -> Font)
         (_get_formatted_font : option str -> Z -> bool -> bool -> Font)
         (font_size_attr : Font -> option Z) (cfg : ImageConfig)
         (defaults : ImageDefaults) (max_str_digits : Z)
         (import_dc : DisplayConfig) (of_picture : Picture Font -> Img)
         (path_exists : str -> bool) (image_open : str -> Result Img)
         (exif_transpose : Img -> Img) (img_mode : Img -> str)
         (convert_rgb : Img -> Img) (img_size : Img -> Z * Z)
         (img_crop : Img -> Z * Z * Z * Z -> Img)
         (img_resize : Img -> Z * Z -> Img) (save_jpeg : Img -> Z -> Bytes)
         (post : list (Request Bytes) -> Request Bytes -> PostOutcome)
         (save_image_locally : Picture Font -> Z -> Result str)
         (args : Args) (saved : list (Picture Font * Z))
         (log : list (Request Bytes)),
    let out :=
      main textbbox _get_font _get_formatted_font font_size_attr cfg
        defaults max_str_digits import_dc of_picture path_exists image_open
        exif_transpose img_mode convert_rgb img_size img_crop img_resize
        save_jpeg post save_image_locally args (saved, log) in
    (arg_base_url args <> [] ->
     BASE_URL (fst (fst out)) = arg_base_url args)
    /\ (snd (snd (fst out)) = log
        \/ exists req,
             snd (snd (fst out)) = log ++ [req]
             /\ req_url req = BASE_URL import_dc ++ lit "/upload").
Proof. intros. apply main_requests. Qed.

(** A run of [main]: [--text "Hello world" --base-url http://10.0.0.7]
    uploads one image, under the name [file1.jpg], to the configured
    address. *)
Example main_demo :
  let out :=
    main (fops := binary64) fixed_bbox (fun _ size => size)
      (fun _ size _ _ => size) (fun size => Some size) example_config
      example_defaults 4300 example_display_config
      (fun pic : Picture Z => pic) (fun _ => false)
      (fun _ => Raise FileNotFoundError) (fun img => img)
      (fun _ => lit "RGB") (fun img => img) pic_size (fun img _ => img)
      (fun img _ => img) (fun _ _ => lit "jpeg") accepting_post
      (fun _ _ => Ok (lit "img.jpg"))
      (with_base_url (text_args (lit "Hello world")) (lit "http://10.0.0.7"))
      ([], []) in
  snd out = Returned
  /\ map (fun r => (req_url r, req_filename r)) (snd (snd (fst out)))
     = [(lit "http://192.168.10.154/upload", lit "file1.jpg")]
  /\ BASE_URL (fst (fst out)) = lit "http://10.0.0.7".
Proof. vm_compute. repeat split. Qed.

(** ** Where the lines are put *)






Section LinePositions.
Context {Font : Type} {F : Type} {fops : PyFloatOps F}.
Variable textbbox : Z * Z -> str -> Font -> bbox.






End LinePositions.



Lemma auto_size_loop_ignores_padding {Font : Type}
    (textbbox : Z * Z -> str -> Font -> bbox)
    (_get_font : option str -> Z -> Font) (cfg : ImageConfig) (w h : Z)
    (pt pb pl pr : option Z) (txt : str) (font_path : option str)
    (n : nat) :
  forall min_size max_size best_size : Z,
    auto_size_loop textbbox _get_font
      (new_ImageGenerator cfg w h pt pb pl pr) txt font_path n min_size
      max_size best_size
    = auto_size_loop textbbox _get_font
        (new_ImageGenerator cfg w h None None None None) txt font_path n
        min_size max_size best_size.
Proof.
  induction n as [|n IH]; intros lo hi best; [reflexivity|].
  cbn [auto_size_loop]. destruct (hi <? lo); [reflexivity|].
  assert (E : size_fits textbbox _get_font
                (new_ImageGenerator cfg w h pt pb pl pr) txt font_path
                ((lo + hi) / 2)
              = size_fits textbbox _get_font
                  (new_ImageGenerator cfg w h None None None None) txt
                  font_path ((lo + hi) / 2)) by reflexivity.
  rewrite E. destruct (size_fits _ _ _ _ _ _); apply IH.
Qed.

(** X23. The automatic font size does not depend on the paddings of the
    generator: the search measures against [AUTO_SIZE_PADDING] and
    [AUTO_SIZE_PADDING_BOTTOM] only, so it returns the same size whatever
    paddings the generator was built with, while the text is then wrapped
    and placed with the generator's paddings. *)
Theorem auto_font_size_ignores_padding :
  forall (Font : Type) (textbbox : Z * Z -> str -> Font -> bbox)
         (_get_font : option str -> Z -> Font) (cfg : ImageConfig)
         (w h : Z) (padding_top padding_bottom padding_left padding_right :
                      option Z)
         (txt : str) (font_path : option str),
    calculate_auto_font_size textbbox _get_font
      (new_ImageGenerator cfg w h padding_top padding_bottom padding_left
         padding_right) txt font_path
    = calculate_auto_font_size textbbox _get_font
        (new_ImageGenerator cfg w h None None None None) txt font_path.
Proof.
  intros. unfold calculate_auto_font_size. cbn [config new_ImageGenerator].
  apply auto_size_loop_ignores_padding.
Qed.

(** ** Gradients *)

Lemma py_range_nth (n y : Z) :
  0 <= y < n -> nth_error (py_range n) (Z.to_nat y) = Some y.
Proof.
  intros H. unfold py_range. rewrite nth_error_map.
  rewrite nth_error_seq.
  replace (Z.to_nat y <? Z.to_nat n)%nat with true
    by (symmetry; apply Nat.ltb_lt; lia).
  cbn. f_equal. lia.
Qed.

(** At ratio 0 a channel is the first colour's. *)
Lemma gradient_channel_start (c1 c2 : Z) :
  0 <= c1 <= 255 -> 0 <= c2 <= 255 ->
  gradient_channel c1 c2 (float_of_int 0 / float_of_int 240)%float = c1.
Proof.
  intros H1 H2.
  assert (A : all_from
                (fun a =>
                   all_from
                     (fun b =>
                        gradient_channel a b
                          (float_of_int 0 / float_of_int 240)%float =? a)
                     0 256)
                0 256 = true) by (vm_compute; reflexivity).
  apply Z.eqb_eq.
  apply (all_from_2 (fun a b => gradient_channel a b _ =? a) 256 256);
    [exact A | lia | lia].
Qed.

(** Between two equal values a channel is the value or one less. *)
Lemma gradient_channel_equal (c y : Z) :
  0 <= c <= 255 -> 0 <= y < 240 ->
  c - 1
  <= gradient_channel c c (float_of_int y / float_of_int 240)%float
  <= c.
Proof.
  intros Hc Hy.
  assert (A : all_from
                (fun c =>
                   all_from
                     (fun y =>
                        let v :=
                          gradient_channel c c
                            (float_of_int y / float_of_int 240)%float in
                        (c - 1 <=? v) && (v <=? c))
                     0 240)
                0 256 = true) by (vm_compute; reflexivity).
  pose proof (all_from_2
                (fun c y =>
                   let v :=
                     gradient_channel c c
                       (float_of_int y / float_of_int 240)%float in
                   (c - 1 <=? v) && (v <=? c))
                256 240 c y A ltac:(lia) ltac:(lia)) as B.
  cbn zeta in B. apply andb_true_iff in B as [B1 B2].
  apply Z.leb_le in B1, B2. lia.
Qed.

(** X24. On the 240-pixel display a vertical gradient starts exactly at
    its first colour: the first rectangle is the top row, filled with
    [color1], for all colours with channels from 0 to 255. *)
Theorem gradient_starts_at_first_color :
  forall (self : ImageGenerator) (color1 color2 : Color),
    height self = 240 ->
    is_color color1 = true -> is_color color2 = true ->
    hd_error (create_gradient_background self color1 color2 (lit "vertical"))
    = Some ((0, 0), (width self, 1), color1).
Proof.
  intros self [[r1 g1] b1] [[r2 g2] b2] Hh H1 H2.
  apply is_color_spec in H1, H2. cbn in H1, H2.
  unfold create_gradient_background.
  change (str_eqb (lit "vertical") (lit "vertical")) with true. cbn iota.
  rewrite Hh.
  change (py_range 240) with (0 :: map Z.succ (py_range 239)).
  cbn [map hd_error]. unfold gradient_color.
  rewrite !gradient_channel_start by lia. reflexivity.
Qed.

Lemma gradient_starts_at_first_color_witness :
  hd_error
    (create_gradient_background example_generator (0, 50, 100)
       (255, 128, 0) (lit "vertical"))
  = Some ((0, 0), (width example_generator, 1), (0, 50, 100)).
Proof.
  apply (gradient_starts_at_first_color example_generator (0, 50, 100)
           (255, 128, 0));
    reflexivity.
Defined.

(** X25. On the 240-pixel display a vertical gradient between two equal
    colours is solid up to one level: row [y] is filled with the colour
    or with a colour whose channels are one less, which does happen (the
    interpolation is rounded before it is truncated). *)
Theorem gradient_between_equal_colors :
  forall (self : ImageGenerator) (color : Color) (y : Z),
    height self = 240 ->
    is_color color = true ->
    0 <= y < 240 ->
    exists fill : Color,
      nth_error
        (create_gradient_background self color color (lit "vertical"))
        (Z.to_nat y)
      = Some ((0, y), (width self, y + 1), fill)
      /\ let '(r, g, b) := color in
         let '(r', g', b') := fill in
         r - 1 <= r' <= r /\ g - 1 <= g' <= g /\ b - 1 <= b' <= b.
Proof.
  intros self [[r g] b] y Hh Hc Hy.
  apply is_color_spec in Hc. cbn in Hc.
  unfold create_gradient_background.
  change (str_eqb (lit "vertical") (lit "vertical")) with true. cbn iota.
  rewrite Hh. rewrite nth_error_map, (py_range_nth 240 y Hy).
  cbn [option_map]. unfold gradient_color.
  eexists. split; [reflexivity|]. cbn beta iota.
  repeat split; apply gradient_channel_equal; lia.
Qed.

Lemma gradient_between_equal_colors_witness :
  exists fill : Color,
    nth_error
      (create_gradient_background example_generator (3, 3, 3) (3, 3, 3)
         (lit "vertical"))
      4
    = Some ((0, 4), (width example_generator, 5), fill)
    /\ let '(r', g', b') := fill in
       2 <= r' <= 3 /\ 2 <= g' <= 3 /\ 2 <= b' <= 3.
Proof.
  apply (gradient_between_equal_colors example_generator (3, 3, 3) 4);
    first [reflexivity | lia].
Defined.

(** Row 4 of the gradient from (3, 3, 3) to (3, 3, 3) is (2, 2, 2). *)
Example gradient_demo :
  nth_error
    (create_gradient_background example_generator (3, 3, 3) (3, 3, 3)
       (lit "vertical"))
    4
  = Some ((0, 4), (240, 5), (2, 2, 2)).
Proof. vm_compute. reflexivity. Qed.

(** ** The stroke colour *)

(** X26. The stroke colour [_get_contrasting_color] picks is decided by
    an integer test: for a colour with channels from 0 to 255 it is black
    exactly when [299 r + 587 g + 114 b > 128000], and white otherwise;
    the float division by 1000 never moves a colour across the
    threshold. *)
Theorem contrasting_color_threshold :
  forall r g b : Z,
    is_color (r, g, b) = true ->
    _get_contrasting_color (r, g, b)
    = if 128000 <? 299 * r + 587 * g + 114 * b
      then (0, 0, 0)
      else (255, 255, 255).
Proof.
  intros r g b H. apply is_color_spec in H. cbn in H.
  unfold _get_contrasting_color, brightness.
  rewrite brightness_threshold by lia.
  replace (r * 299 + g * 587 + b * 114) with (299 * r + 587 * g + 114 * b)
    by lia.
  reflexivity.
Qed.

Lemma contrasting_color_threshold_witness :
  _get_contrasting_color (255, 165, 0) = (0, 0, 0).
Proof.
  apply (contrasting_color_threshold 255 165 0). reflexivity.
Defined.

(** ** What the parser keeps *)

Lemma slice_empty (a b : nat) (s : str) : (b <= a)%nat -> slice a b s = [].
Proof.
  intros H. unfold slice. apply skipn_all2.
  rewrite length_firstn. lia.
Qed.

Lemma slice_guard (a b : nat) (s : str) :
  (if (a <? b)%nat then slice a b s else []) = slice a b s.
Proof.
  destruct (a <? b)%nat eqn:E; [reflexivity|].
  apply Nat.ltb_ge in E. symmetry. now apply slice_empty.
Qed.

Lemma match_tag_head (c : ascii) (s : str) :
  Ascii.eqb "<" c = false -> match_tag (c :: s) = None.
Proof.
  intros H. destruct c as [[] [] [] [] [] [] [] []];
    first [discriminate H | reflexivity].
Qed.

Lemma finditer_no_bracket (s : str) :
  existsb (Ascii.eqb "<"%char) s = false ->
  forall pos skip : nat, finditer_from pos skip s = [].
Proof.
  induction s as [|c s IH]; intros H pos skip; [reflexivity|].
  cbn [existsb] in H. apply orb_false_iff in H as [Hc Hs].
  cbn [finditer_from]. destruct skip as [|k]; [|now apply IH].
  rewrite (match_tag_head c s Hc). now apply IH.
Qed.

Section ParserFacts.
Variable txt : str.

(** One step of the loop adds the text before the match. *)
Lemma parse_step_text (st : ParseState) (m : Match) :
  Forall (fun s => text s <> []) (segments st) ->
  Forall (fun s => text s <> []) (segments (parse_step txt st m))
  /\ concat (map text (segments (parse_step txt st m)))
     ++ current_text (parse_step txt st m)
     = concat (map text (segments st))
       ++ (current_text st ++ slice (last_pos st) (m_start m) txt)
  /\ last_pos (parse_step txt st m) = m_end m.
Proof.
  intros Hne. unfold parse_step.
  assert (E : (if (last_pos st <? m_start m)%nat
               then current_text st ++ slice (last_pos st) (m_start m) txt
               else current_text st)
              = current_text st ++ slice (last_pos st) (m_start m) txt).
  { destruct (last_pos st <? m_start m)%nat eqn:El; [reflexivity|].
    apply Nat.ltb_ge in El. rewrite slice_empty by exact El.
    now rewrite app_nil_r. }
  rewrite E.
  destruct (current_text st ++ slice (last_pos st) (m_start m) txt)
    as [|c0 ct0].
  - destruct (negb match group1 m with [] => false | _ :: _ => true end);
      cbn [segments current_text last_pos]; auto.
  - assert (A : Forall (fun s => text s <> [])
                  (segments st ++ [flush_segment (format_stack st) (c0 :: ct0)])).
    { apply Forall_app. split; [exact Hne|].
      constructor; [cbn; discriminate|constructor]. }
    assert (B : concat (map text
                          (segments st
                           ++ [flush_segment (format_stack st) (c0 :: ct0)]))
                ++ []
                = concat (map text (segments st)) ++ c0 :: ct0).
    { rewrite map_app, concat_app. cbn. now rewrite !app_nil_r. }
    destruct (negb match group1 m with [] => false | _ :: _ => true end);
      cbn [segments current_text last_pos]; auto.
Qed.

(** The text the loop has gathered, and will gather from [ms]. *)
Lemma parse_fold_text (ms : list Match) :
  forall st : ParseState,
    Forall (fun s => text s <> []) (segments st) ->
    Forall (fun s => text s <> [])
      (segments (fold_left (parse_step txt) ms st))
    /\ concat (map text (segments (fold_left (parse_step txt) ms st)))
       ++ current_text (fold_left (parse_step txt) ms st)
       ++ slice (last_pos (fold_left (parse_step txt) ms st)) (length txt)
            txt
       = concat (map text (segments st)) ++ current_text st
         ++ gaps txt (last_pos st) ms.
Proof.
  induction ms as [|m ms IH]; intros st Hne.
  - cbn [fold_left gaps]. auto.
  - cbn [fold_left gaps].
    destruct (parse_step_text st m Hne) as [H1 [H2 H3]].
    destruct (IH (parse_step txt st m) H1) as [I1 I2].
    split; [exact I1|].
    rewrite I2, H3. rewrite app_assoc, H2.
    now rewrite <- !app_assoc.
Qed.

Lemma parse_html_formatting_text :
  match gaps txt 0 (finditer_tags txt) with
  | [] => parse_html_formatting txt = [plain_segment txt]
  | _ :: _ =>
      concat (map text (parse_html_formatting txt))
      = gaps txt 0 (finditer_tags txt)
      /\ Forall (fun s => text s <> []) (parse_html_formatting txt)
  end.
Proof.
  unfold parse_html_formatting.
  destruct (match txt with [] => true | _ :: _ => false end
            || negb (existsb (Ascii.eqb "<"%char) txt)) eqn:Early.
  - assert (G : gaps txt 0 (finditer_tags txt) = txt).
    { destruct txt as [|c t] eqn:Et; [reflexivity|].
      cbn [orb] in Early. apply negb_true_iff in Early.
      unfold finditer_tags. rewrite finditer_no_bracket by exact Early.
      cbn [gaps]. unfold slice. rewrite firstn_all. reflexivity. }
    rewrite G. destruct txt as [|c t]; [reflexivity|].
    split; [cbn; now rewrite app_nil_r|].
    constructor; [cbn; discriminate|constructor].
  - destruct (parse_fold_text (finditer_tags txt) (mkParseState [] [] [] 0))
      as [Hne Hcat]; [constructor|].
    cbn [segments current_text last_pos] in Hcat.
    cbn [map concat app] in Hcat.
    set (st := fold_left (parse_step txt) (finditer_tags txt)
                 (mkParseState [] [] [] 0)) in *.
    assert (E : (if (last_pos st <? length txt)%nat
                 then current_text st
                      ++ slice (last_pos st) (length txt) txt
                 else current_text st)
                = current_text st ++ slice (last_pos st) (length txt) txt).
    { destruct (last_pos st <? length txt)%nat eqn:El; [reflexivity|].
      apply Nat.ltb_ge in El. rewrite slice_empty by exact El.
      now rewrite app_nil_r. }
    rewrite E.
    set (ct := current_text st ++ slice (last_pos st) (length txt) txt) in *.
    set (final := match ct with
                  | [] => segments st
                  | _ :: _ => segments st ++ [flush_segment (format_stack st) ct]
                  end).
    assert (Hfinal : concat (map text final)
                     = gaps txt 0 (finditer_tags txt)
                     /\ Forall (fun s => text s <> []) final).
    { subst final. destruct ct as [|c0 ct0] eqn:Ect.
      - rewrite app_nil_r in Hcat. auto.
      - split.
        + rewrite map_app, concat_app. cbn. rewrite app_nil_r. exact Hcat.
        + apply Forall_app. split; [exact Hne|].
          constructor; [cbn; discriminate|constructor]. }
    destruct Hfinal as [F1 F2].
    destruct (gaps txt 0 (finditer_tags txt)) as [|g0 gs] eqn:G.
    + destruct final as [|s0 rest]; [reflexivity|].
      exfalso. inversion F2 as [|? ? Hs0 _]; subst.
      cbn in F1. destruct (text s0); [congruence|discriminate].
    + destruct final as [|s0 rest] eqn:Ef; [discriminate F1|].
      split; [exact F1 | exact F2].
Qed.

End ParserFacts.

(** X27. [parse_html_formatting] neither loses nor repeats text: the
    texts of its segments, one after the other, are the text between the
    tags it recognises, and no segment is empty.  When nothing is left
    between the tags (the text is empty or made of tags only), the whole
    text comes back as one unformatted segment, tags included. *)
Theorem parse_keeps_text_between_tags :
  forall txt : str,
    match gaps txt 0 (finditer_tags txt) with
    | [] => parse_html_formatting txt = [plain_segment txt]
    | _ :: _ =>
        concat (map text (parse_html_formatting txt))
        = gaps txt 0 (finditer_tags txt)
        /\ Forall (fun s => text s <> []) (parse_html_formatting txt)
    end.
Proof. intros txt. apply parse_html_formatting_text. Qed.

(** A text of tags only comes back with its tags; otherwise they go. *)
Example parse_tags_only_demo :
  parse_html_formatting (lit "<b></b>") = [plain_segment (lit "<b></b>")]
  /\ map text (parse_html_formatting (lit "a<b>b</b>c<br>"))
     = [lit "a"; lit "b"; lit "c<br>"].
Proof. split; reflexivity. Qed.
